(** * Chinese new-word discovery: a shallow embedding of [word_discovery.py]

    The development follows the four algorithmic pieces of the program:
    the decoder of KenLM's packed n-gram records ([KenlmNgrams]), the
    cohesion filter ([filter_ngrams]), the fragment trie ([SimpleTrie]) and
    the backward validator ([filter_vocab]).

    Python values are modelled as follows.
    - [str] is a sequence of Unicode code points: [list N].
    - [int] is unbounded: [Z].
    - [float] is IEEE 754 binary64 with round-to-nearest-even, given by the
      executable specification [SpecFloat] of the standard library.
    - a [dict] that is iterated is an insertion-ordered association list
      ([odict]); a [dict] that is only probed by key is a [gmap]; a [set]
      is a [gset].
    - an exception is a value of [exn] carried by [result]. *)

From Stdlib Require Import ZArith List Ascii String Bool Lia SpecFloat.
From stdpp Require Import base option list gmap.

Set Warnings "-register-all".

Local Open Scope Z_scope.

(** ** Strings *)

Abbreviation char := N (only parsing).
Abbreviation str := (list N) (only parsing).

(** A Python string literal over ASCII, as the sequence of its code points. *)
Definition py (s : string) : str := map N_of_ascii (list_ascii_of_string s).

(** [s[lo:hi]] for non-negative bounds: out-of-range bounds are clamped and
    an empty range gives the empty string. *)
Definition slice {A} (s : list A) (lo hi : nat) : list A :=
  take (hi - lo)%nat (drop lo s).

(** ** SimpleTrie *)

(** A node of [SimpleTrie.dic]: a dict whose character keys lead to child
    dicts and whose key [self.end] ([True]), when present, holds the word
    that ends at this node. *)
Inductive dic : Type :=
  Dic (end_word : option (list N)) (sub : gmap N dic).

Definition end_word (d : dic) : option str := let 'Dic e _ := d in e.
Definition sub (d : dic) : gmap N dic := let 'Dic _ m := d in m.

(** [SimpleTrie.__init__]: [self.dic = {}]. *)
Definition SimpleTrie_init : dic := Dic None ∅.

(** The loop of [add_word], at the node reached so far ([_]) with [rest] the
    characters still to be consumed: a missing child is created empty, the
    walk descends into it, and the last node gets [_[self.end] = word]. *)
Fixpoint add_word_from (d : dic) (rest word : str) : dic :=
  match rest with
  | [] => Dic (Some word) (sub d)
  | c :: rest' =>
      let child := default (Dic None ∅) (sub d !! c) in
      Dic (end_word d) (<[c := add_word_from child rest' word]> (sub d))
  end.

Definition add_word (d : dic) (word : str) : dic := add_word_from d word word.

(** The trie holding the given words, inserted in order. *)
Definition trie_of (words : list str) : dic := foldl add_word SimpleTrie_init words.

(** The inner loop of [tokenize], [for j, c2 in enumerate(sent[i:])]:
    [rest] is what is left of [sent[i:]], [pos] is [i + j], and the value
    returned is [end] when the loop finishes or breaks. *)
Fixpoint scan (d : dic) (rest : str) (pos end_ : nat) : nat :=
  match rest with
  | [] => end_
  | c2 :: rest' =>
      match sub d !! c2 with
      | Some d' =>
          let end' :=
            match end_word d' with
            | Some _ => if (end_ <? pos + 1)%nat then (pos + 1)%nat else end_
            | None => end_
            end in
          scan d' rest' (S pos) end'
      | None => end_
      end
  end.

(** The state of the outer loop of [tokenize]. *)
Record tok_state := TokState {
  tok_result : list (list N);
  tok_start : nat;
  tok_end : nat
}.

(** One iteration of [for i, c1 in enumerate(sent)]. *)
Definition tokenize_step (root : dic) (sent : str) (st : tok_state) (i : nat) : tok_state :=
  let st1 :=
    if (i =? tok_end st)%nat
    then TokState (tok_result st ++ [slice sent (tok_start st) (tok_end st)]) i (i + 1)
    else st in
  TokState (tok_result st1) (tok_start st1) (scan root (drop i sent) i (tok_end st1)).

Definition tokenize (root : dic) (sent : str) : list str :=
  let st := foldl (tokenize_step root sent) (TokState [] 0 1) (seq 0 (length sent)) in
  tok_result st ++ [slice sent (tok_start st) (tok_end st)].

(** ** filter_vocab *)

(** [candidates] is only iterated to copy entries into [result], so the
    order of its items does not show in what is kept: it is a [gmap], and
    so is [result].  [ngrams] is the set that [filter_ngrams] returned. *)

(** The [flag] computed by the loop [for k in range(len(i) + 1 - order)]:
    it starts [True] and is cleared by every window [i[k: k + order]] that
    is not in [ngrams]. *)
Definition windows_flag (i : str) (ngrams : gset (list N)) (order : nat) : bool :=
  foldl (fun flag k => if decide (slice i k (k + order) ∈ ngrams) then flag else false)
        true (seq 0 (length i + 1 - order)).

(** The body of the loop of [filter_vocab] for the item [(i, j)]. *)
Definition filter_vocab_step (ngrams : gset (list N)) (order : nat)
    (i : str) (j : Z) (result : gmap (list N) Z) : gmap (list N) Z :=
  if (length i <? 3)%nat then <[i := j]> result
  else if (length i <=? order)%nat && bool_decide (i ∈ ngrams) then <[i := j]> result
  else if (order <? length i)%nat then
    (if windows_flag i ngrams order then <[i := j]> result else result)
  else result.

Definition filter_vocab (candidates : gmap (list N) Z) (ngrams : gset (list N))
    (order : nat) : gmap (list N) Z :=
  map_fold (filter_vocab_step ngrams order) ∅ candidates.

(** ** Exceptions *)

Inductive exn : Type :=
  | IndexError | ValueError | ZeroDivisionError | OverflowError | StructError.

Inductive result (A : Type) : Type :=
  | Ok (a : A)
  | Raise (e : exn).
Arguments Ok {A} a.
Arguments Raise {A} e.

Definition bind {A B} (r : result A) (k : A -> result B) : result B :=
  match r with
  | Ok a => k a
  | Raise e => Raise e
  end.

Notation "'let!' x ':=' r 'in' k" := (bind r (fun x => k))
  (at level 10, x pattern, r at level 100, k at level 200).

(** A list comprehension whose element expression may raise. *)
Fixpoint mapR {A B} (f : A -> result B) (l : list A) : result (list B) :=
  match l with
  | [] => Ok []
  | a :: l' => let! b := f a in let! bs := mapR f l' in Ok (b :: bs)
  end.

(** A [for] loop over [l] that threads the state [s] and may raise. *)
Fixpoint foldR {A S} (body : S -> A -> result S) (s : S) (l : list A) : result S :=
  match l with
  | [] => Ok s
  | a :: l' => let! s' := body s a in foldR body s' l'
  end.

(** ** Insertion-ordered dicts *)

Abbreviation odict K V := (list (K * V)).

Section odict.
Context {K V : Type} `{EqDecision K}.

(** [d.get(k)] *)
Fixpoint odict_get (k : K) (d : odict K V) : option V :=
  match d with
  | [] => None
  | (k', v) :: d' => if decide (k = k') then Some v else odict_get k d'
  end.

(** [d[k] = v]: an existing key keeps its position, a new key goes last. *)
Fixpoint odict_set (k : K) (v : V) (d : odict K V) : odict K V :=
  match d with
  | [] => [(k, v)]
  | (k', v') :: d' =>
      if decide (k = k') then (k, v) :: d' else (k', v') :: odict_set k v d'
  end.

(** A list of pairs is a dict when no key occurs twice. *)
Definition odict_wf (d : odict K V) : Prop := NoDup (map fst d).
End odict.

(** ** KenlmNgrams: the packed record format *)

(** The byte order of the host; [struct.unpack] without a prefix uses it. *)
Inductive byteorder : Type := LittleEndian | BigEndian.

(** The unsigned value of a little-endian byte string. *)
Definition le_unsigned (bs : list Byte.byte) : Z :=
  foldr (fun b acc => Z.of_N (Byte.to_N b) + 256 * acc) 0 bs.

(** The two's complement reading, on [bits] bits, of an unsigned value. *)
Definition twos_complement (bits : Z) (u : Z) : Z :=
  if u <? 2 ^ (bits - 1) then u else u - 2 ^ bits.

Definition int_from_bytes (bo : byteorder) (bs : list Byte.byte) : Z :=
  twos_complement (8 * Z.of_nat (length bs))
    (le_unsigned match bo with LittleEndian => bs | BigEndian => rev bs end).

(** The two format characters the program uses: ['i'] is a C [int] and
    ['l'] a C [long], 4 and 8 bytes where the program runs. *)
Inductive fmt : Type := Fmt_i | Fmt_l.

Definition calcsize (t : fmt) : nat :=
  match t with Fmt_i => 4%nat | Fmt_l => 8%nat end.

(** [KenlmNgrams.unpack]: [struct.unpack(t, s)[0]]; a buffer of the wrong
    size raises [struct.error]. *)
Definition unpack (native : byteorder) (t : fmt) (s : list Byte.byte) : result Z :=
  if (length s =? calcsize t)%nat then Ok (int_from_bytes native s)
  else Raise StructError.

(** [f.read(n)] on a binary file whose unread content is [f]: the bytes
    read and the content left. *)
Definition file_read (n : nat) (f : list Byte.byte) : list Byte.byte * list Byte.byte :=
  (take n f, drop n f).

(** [s[-8:]] *)
Definition last8 (s : list Byte.byte) : list Byte.byte := drop (length s - 8)%nat s.

(** The generator [ngrams()] of [read_ngrams], run to exhaustion: the list
    of the pairs it yields.  [fuel] bounds the iterations of [while True];
    [None] means the bound was reached. *)
Fixpoint ngrams_loop (fuel : nat) (native : byteorder) (size_per_item : nat)
    (f : list Byte.byte) : option (result (list (list Byte.byte * Z))) :=
  match fuel with
  | O => None
  | S fuel' =>
      let '(s, f') := file_read size_per_item f in
      if (length s =? size_per_item)%nat then
        match unpack native Fmt_l (last8 s) with
        | Ok n =>
            match ngrams_loop fuel' native size_per_item f' with
            | Some (Ok items) => Some (Ok ((s, n) :: items))
            | other => other
            end
        | Raise e => Some (Raise e)
        end
      else Some (Ok [])
  end.

Definition ngrams_gen (native : byteorder) (order : nat) (f : list Byte.byte)
    : option (result (list (list Byte.byte * Z))) :=
  ngrams_loop (S (length f)) native (order * 4 + 8) f.

(** The two attributes that [read_ngrams] builds. *)
Record counts := Counts {
  ngrams : list (odict (list N) Z);
  total : Z
}.

(** [c = [self.unpack('i', s[j * 4: (j + 1) * 4]) for j in range(self.order)]] *)
Definition record_indices (native : byteorder) (order : nat) (s : list Byte.byte)
    : result (list Z) :=
  mapR (fun j => unpack native Fmt_i (slice s (j * 4) ((j + 1) * 4))) (seq 0 order).

(** [self.chars[j]] for an index that is known to be positive. *)
Definition chars_at (chars : list (list N)) (j : Z) : result str :=
  match chars !! Z.to_nat j with
  | Some c => Ok c
  | None => Raise IndexError
  end.

(** [c = ''.join([self.chars[j] for j in c if j > 2])] *)
Definition record_string (chars : list (list N)) (c : list Z) : result str :=
  let! cs := mapR (chars_at chars) (filter (fun j => 2 < j) c) in
  Ok (concat cs).

(** [self.ngrams[j][c[:j + 1]] = self.ngrams[j].get(c[:j + 1], 0) + n] *)
Definition add_prefix (c : str) (n : Z) (ngrams : list (odict (list N) Z)) (j : nat)
    : result (list (odict (list N) Z)) :=
  match ngrams !! j with
  | Some d =>
      let key := take (j + 1) c in
      Ok (<[j := odict_set key (default 0 (odict_get key d) + n) d]> ngrams)
  | None => Raise IndexError
  end.

(** The body of [for s, n in Progress(ngrams(), ...)]. *)
Definition read_ngrams_step (native : byteorder) (chars : list (list N))
    (order : nat) (min_count : Z) (st : counts) (item : list Byte.byte * Z)
    : result counts :=
  let '(s, n) := item in
  if min_count <=? n then
    let total' := total st + n in
    let! c := record_indices native order s in
    let! c := record_string chars c in
    let! ngrams' := foldR (add_prefix c n) (ngrams st) (seq 0 (length c)) in
    Ok (Counts ngrams' total')
  else Ok st.

(** [KenlmNgrams.read_ngrams] on the content [f] of [ngram_file]. *)
Definition read_ngrams (native : byteorder) (chars : list (list N))
    (order : nat) (min_count : Z) (f : list Byte.byte) : option (result counts) :=
  match ngrams_gen native order f with
  | Some (Ok items) =>
      Some (foldR (read_ngrams_step native chars order min_count)
                  (Counts (replicate order []) 0) items)
  | Some (Raise e) => Some (Raise e)
  | None => None
  end.

(** ** Python numbers *)

(** binary64 *)
Definition prec : Z := 53.
Definition emax : Z := 1024.

(** A number is an [int] or a [float]. *)
Inductive pynum : Type :=
  | PyInt (z : Z)
  | PyFloat (x : spec_float).

(** [float(z)]: the nearest double, ties to even; an [int] too large for a
    double raises [OverflowError]. *)
Definition float_of_int (z : Z) : result spec_float :=
  match binary_normalize prec emax z 0 false with
  | S754_infinity _ => Raise OverflowError
  | x => Ok x
  end.

(** The conversion applied to an operand of a mixed operation. *)
Definition to_float (a : pynum) : result spec_float :=
  match a with
  | PyInt z => float_of_int z
  | PyFloat x => Ok x
  end.

(** [x == 0.0] *)
Definition is_zero (x : spec_float) : bool :=
  match x with
  | S754_zero _ => true
  | _ => false
  end.

(** [a * b]: exact on two ints, otherwise the float product. *)
Definition py_mul (a b : pynum) : result pynum :=
  match a, b with
  | PyInt x, PyInt y => Ok (PyInt (x * y))
  | _, _ =>
      let! x := to_float a in
      let! y := to_float b in
      Ok (PyFloat (SFmul prec emax x y))
  end.

(** [x / b] for a float [x]. *)
Definition float_truediv (x : spec_float) (b : pynum) : result spec_float :=
  let! y := to_float b in
  if is_zero y then Raise ZeroDivisionError else Ok (SFdiv prec emax x y).

(** [min(l)] on a list of floats: the first item is kept until a later one
    compares smaller with [<]; the empty list raises [ValueError]. *)
Definition py_min (l : list spec_float) : result spec_float :=
  match l with
  | [] => Raise ValueError
  | x :: l' => Ok (foldl (fun cur item => if SFltb item cur then item else cur) x l')
  end.

(** [x >= z] for a float and an int, which Python compares exactly. *)
Definition float_ge_int (x : spec_float) (z : Z) : bool :=
  match x with
  | S754_nan => false
  | S754_infinity s => negb s
  | S754_zero _ => z <=? 0
  | S754_finite s m e =>
      let mz := if s then Zneg m else Zpos m in
      if 0 <=? e then z <=? mz * 2 ^ e else z * 2 ^ (- e) <=? mz
  end.

(** [x >= t] for a float [x]. *)
Definition float_ge (x : spec_float) (t : pynum) : bool :=
  match t with
  | PyInt z => float_ge_int x z
  | PyFloat y => SFleb y x
  end.

(** [l[i]] for a non-negative index. *)
Definition list_at {A} (l : list A) (i : nat) : result A :=
  match l !! i with
  | Some a => Ok a
  | None => Raise IndexError
  end.

(** ** filter_ngrams *)

(** The argument [min_pmi]: a number, or something iterable. *)
Inductive min_pmi_arg : Type :=
  | Scalar (t : pynum)
  | Iterable (l : list pynum).

Section filter_ngrams.
(** The logarithm of the C library on a positive finite double. *)
Variable libm_log : spec_float -> spec_float.

(** [math.log(x)] for a float: zero and negative arguments raise
    [ValueError], and so does a result that is not finite although the
    argument is. *)
Definition math_log (x : spec_float) : result spec_float :=
  match x with
  | S754_nan => Ok S754_nan
  | S754_infinity false => Ok x
  | S754_finite false _ _ =>
      match libm_log x with
      | S754_nan | S754_infinity _ => Raise ValueError
      | r => Ok r
      end
  | _ => Raise ValueError
  end.

(** [d.get(key, total)] *)
Definition get_or_total (d : odict (list N) Z) (key : str) (total : spec_float) : pynum :=
  match odict_get key d with
  | Some c => PyInt c
  | None => PyFloat total
  end.

(** The element expression of the comprehension under [min]:
    [total * v / (ngrams[j].get(w[:j + 1], total)
                  * ngrams[i - j - 1].get(w[j + 1:], total))] *)
Definition pmi_term (ngrams : list (odict (list N) Z)) (total : spec_float)
    (i : nat) (w : str) (v : Z) (j : nat) : result spec_float :=
  let! fv := float_of_int v in
  let num := SFmul prec emax total fv in
  let! dl := list_at ngrams j in
  let! dr := list_at ngrams (i - j - 1) in
  let! den := py_mul (get_or_total dl (take (j + 1) w) total)
                     (get_or_total dr (drop (j + 1) w) total) in
  float_truediv num den.

(** The body of [for w, v in ngrams[i].items()]. *)
Definition filter_ngrams_item (ngrams : list (odict (list N) Z)) (total : spec_float)
    (min_pmi : list pynum) (i : nat) (output_ngrams : gset (list N))
    (item : list N * Z) : result (gset (list N)) :=
  let '(w, v) := item in
  let! terms := mapR (pmi_term ngrams total i w v) (seq 0 i) in
  let! pmi := py_min terms in
  let! lg := math_log pmi in
  let! th := list_at min_pmi i in
  Ok (if float_ge lg th then {[w]} ∪ output_ngrams else output_ngrams).

(** The body of [for i in range(order - 1, 0, -1)]. *)
Definition filter_ngrams_order (ngrams : list (odict (list N) Z)) (total : spec_float)
    (min_pmi : list pynum) (output_ngrams : gset (list N)) (i : nat)
    : result (gset (list N)) :=
  let! d := list_at ngrams i in
  foldR (filter_ngrams_item ngrams total min_pmi i) output_ngrams d.

(** [filter_ngrams(ngrams, total, min_pmi)], with [total] the int that
    [read_ngrams] accumulates. *)
Definition filter_ngrams (ngrams : list (odict (list N) Z)) (total : Z)
    (min_pmi : min_pmi_arg) : result (gset (list N)) :=
  let order := length ngrams in
  let min_pmi :=
    match min_pmi with
    | Iterable l => l
    | Scalar t => replicate order t
    end in
  let! total := float_of_int total in
  foldR (filter_ngrams_order ngrams total min_pmi) ∅ (rev (seq 1 (order - 1))).
End filter_ngrams.

(** * Invariants and specifications *)

(** Whether [filter_vocab] keeps the candidate [i]: the outcome of its
    [if]/[elif] chain as one boolean. *)
Definition retained (ngrams : gset (list N)) (order : nat) (i : str) : bool :=
  (length i <? 3)%nat
  || ((length i <=? order)%nat && bool_decide (i ∈ ngrams))
  || ((order <? length i)%nat && windows_flag i ngrams order).

(** What holds of the loop state before iteration [i] of the outer loop. *)
Record tok_inv (sent : str) (i : nat) (st : tok_state) : Prop := TokInv {
  tok_inv_window : (tok_start st < tok_end st)%nat;
  tok_inv_lower : (i <= tok_end st)%nat;
  tok_inv_upper : (tok_end st <= length sent)%nat;
  tok_inv_concat : concat (tok_result st) = take (tok_start st) sent;
  tok_inv_nonempty : Forall (fun w => w <> []) (tok_result st)
}.

(** The cohesion score as the spec words it, over the per-order count maps
    [OrderCountMap], the normaliser [total] and the per-order [threshold]. *)
Section pmi_spec.
Variable libm_log : spec_float -> spec_float.
Variable OrderCountMap : list (odict (list N) Z).
Variable total : spec_float.
Variable threshold : list pynum.

(** [OrderCountMap[k][key]], or [total] when [key] is absent from the map. *)
Definition count_or_total (k : nat) (key : str) : result pynum :=
  match OrderCountMap !! k with
  | Some m =>
      Ok match odict_get key m with
         | Some count => PyInt count
         | None => PyFloat total
         end
  | None => Raise IndexError
  end.

(** The contribution of the split point [j]:
    [total * v / (OrderCountMap[j][w[0:j+1]] * OrderCountMap[i-j-1][w[j+1:]])]. *)
Definition split_pmi (i : nat) (w : str) (v : Z) (j : nat) : result spec_float :=
  let! fv := float_of_int v in
  let! left_count := count_or_total j (slice w 0 (j + 1)) in
  let! right_count := count_or_total (i - j - 1) (drop (j + 1) w) in
  let! denominator := py_mul left_count right_count in
  float_truediv (SFmul prec emax total fv) denominator.

(** The minimum over the split points [0 .. i-1]. *)
Definition min_split_pmi (i : nat) (w : str) (v : Z) : result spec_float :=
  let! contributions := mapR (split_pmi i w v) (seq 0 i) in
  py_min contributions.

(** Whether [log(minPmi) >= threshold[i]]. *)
Definition pmi_retains (i : nat) (w : str) (v : Z) : result bool :=
  let! min_pmi := min_split_pmi i w v in
  let! lg := math_log libm_log min_pmi in
  let! th := list_at threshold i in
  Ok (float_ge lg th).
End pmi_spec.

(** The list of per-order thresholds that [filter_ngrams] works with. *)
Definition thresholds_of (order : nat) (min_pmi : min_pmi_arg) : list pynum :=
  match min_pmi with
  | Iterable l => l
  | Scalar t => replicate order t
  end.

(** The data model of the count maps: map [k] is a dict whose keys are the
    strings of length [k + 1]. *)
Definition count_maps_wf (ngrams : list (odict (list N) Z)) : Prop :=
  forall (k : nat) (d : odict (list N) Z),
    ngrams !! k = Some d ->
    odict_wf d /\ forall (w : list N) (v : Z), (w, v) ∈ d -> length w = (k + 1)%nat.

(** A float of magnitude 1 or more, infinities included: with [d] the
    number of bits of the mantissa [m], [m * 2^e >= 1] is [d + e >= 1]. *)
Definition at_least_one (x : spec_float) : Prop :=
  match x with
  | S754_finite _ m e => 1 <= Zdigits2 (Zpos m) + e
  | S754_infinity _ => True
  | _ => False
  end.

(** A number that is a non-zero int or a float of magnitude 1 or more. *)
Definition at_least_one_num (a : pynum) : Prop :=
  match a with
  | PyInt z => z <> 0
  | PyFloat x => at_least_one x
  end.

(** What a record decodes to: the indices of its chunks, then the string
    of the vocabulary entries of the indices above 2. *)
Definition decode_record (native : byteorder) (chars : list (list N)) (order : nat)
    (s : list Byte.byte) : result str :=
  let! idxs := record_indices native order s in
  record_string chars idxs.

(** The records of a file that pass [min_count], in file order, each as
    its decoded string and its count. *)
Definition kept_records (native : byteorder) (chars : list (list N)) (order : nat)
    (min_count : Z) (items : list (list Byte.byte * Z)) : result (list (str * Z)) :=
  mapR (fun it => let! c := decode_record native chars order (fst it) in Ok (c, snd it))
       (filter (fun it => min_count <= snd it) items).

(** The kept records that count for the key [w] of [OrderCountMap[j]]:
    those whose string has more than [j] characters and starts with [w]. *)
Definition records_of_key (j : nat) (w : str) (recs : list (str * Z)) : list (str * Z) :=
  filter (fun cn => (j < length (fst cn))%nat /\ take (j + 1) (fst cn) = w) recs.

Definition sum_counts (recs : list (str * Z)) : Z := foldr Z.add 0 (map snd recs).

(** * Example data *)

(** A vocabulary table: the three reserved entries, then four characters. *)
Definition example_chars : list (list N) :=
  [py "<unk>"; py "<s>"; py "</s>"; py "a"; py "b"; py "c"; py "d"].

(** A record of order 2, little-endian: two indices and a count below 256. *)
Definition example_record (i1 i2 count : Byte.byte) : list Byte.byte :=
  [i1; Byte.x00; Byte.x00; Byte.x00; i2; Byte.x00; Byte.x00; Byte.x00;
   count; Byte.x00; Byte.x00; Byte.x00; Byte.x00; Byte.x00; Byte.x00; Byte.x00].

(** Count maps of order 2 in which "ab" is as frequent as its parts. *)
Definition example_counts : list (odict (list N) Z) :=
  [[(py "a", 5); (py "b", 5)]; [(py "ab", 5)]].

(** The file of the two records ("ab", 0) and ("cd", 3), and the count
    maps that [read_ngrams] builds from it with [min_count = 0]. *)
Definition zero_count_file : list Byte.byte :=
  example_record Byte.x03 Byte.x04 Byte.x00 ++ example_record Byte.x05 Byte.x06 Byte.x03.

Definition zero_count_maps : list (odict (list N) Z) :=
  [[(py "a", 0); (py "c", 3)]; [(py "ab", 0); (py "cd", 3)]].

(** A stand-in for the C library's logarithm that is right at 1.0. *)
Definition log_at_one (x : spec_float) : spec_float := S754_zero false.

(** The file of the four records ("ab", 5), ("cd", 3), ("ab", 2) and
    ("ab", 1). *)
Definition four_record_file : list Byte.byte :=
  example_record Byte.x03 Byte.x04 Byte.x05 ++ example_record Byte.x05 Byte.x06 Byte.x03
  ++ example_record Byte.x03 Byte.x04 Byte.x02 ++ example_record Byte.x03 Byte.x04 Byte.x01.
From Stdlib Require Import Sorted.

(** * The rest of the program: specifications *)

(** ** SimpleTrie: what a trie holds *)

(** The node reached from [d] by following the characters of [w], as the
    inner loop of [tokenize] follows them. *)
Fixpoint walk (d : dic) (w : str) : option dic :=
  match w with
  | [] => Some d
  | c :: w' =>
      match sub d !! c with
      | Some d' => walk d' w'
      | None => None
      end
  end.

(** The value under [self.end] at the end of the path of [w], if any. *)
Definition stored (root : dic) (w : str) : option str :=
  match walk root w with
  | Some d => end_word d
  | None => None
  end.

(** No occurrence of a stored word lies across the position [b] of [sent]. *)
Definition uncut (root : dic) (sent : str) (b : nat) : Prop :=
  forall p k : nat,
    (p + k <= length sent)%nat ->
    is_Some (stored root (slice sent p (p + k))) ->
    ~ (p < b < p + k)%nat.

(** A fragment of two characters or more starts with a stored word of two
    characters or more and ends with a stored word. *)
Definition backed (root : dic) (frag : str) : Prop :=
  (length frag <= 1)%nat \/
  ((exists k : nat, (2 <= k <= length frag)%nat /\ is_Some (stored root (take k frag))) /\
   (exists p : nat, (p < length frag)%nat /\ is_Some (stored root (drop p frag)))).

(** What holds, beside [tok_inv], of the loop state of [tokenize] before
    iteration [i]. *)
Record tok_cover (root : dic) (sent : str) (i : nat) (st : tok_state) : Prop := TokCover {
  tok_cover_start : (tok_start st <= i)%nat;
  tok_cover_window :
    forall p k : nat,
      (tok_start st <= p < i)%nat -> (1 <= k)%nat -> (p + k <= length sent)%nat ->
      is_Some (stored root (slice sent p (p + k))) ->
      (p + k <= tok_end st)%nat;
  tok_cover_bounds :
    forall j : nat,
      (0 < j <= length (tok_result st))%nat ->
      uncut root sent (length (concat (take j (tok_result st))));
  tok_cover_backed :
    tok_end st = (tok_start st + 1)%nat \/
    ((exists k : nat,
        (2 <= k <= tok_end st - tok_start st)%nat /\
        is_Some (stored root (slice sent (tok_start st) (tok_start st + k)))) /\
     (exists p : nat,
        (tok_start st <= p < tok_end st)%nat /\
        is_Some (stored root (slice sent p (tok_end st)))));
  tok_cover_frags : Forall (backed root) (tok_result st)
}.

(** * The rest of the program: functions *)

(** ** KenlmNgrams.read_chars and __init__ *)

(** [s.split(sep)] for a separator of one character: the pieces between
    the occurrences of [sep], empty pieces included. *)
Fixpoint split_on (sep : N) (s : str) : list str :=
  match s with
  | [] => [[]]
  | c :: s' =>
      let pieces := split_on sep s' in
      if decide (c = sep) then [] :: pieces
      else (c :: hd [] pieces) :: tl pieces
  end.

(** [sep.join(pieces)] *)
Fixpoint py_join (sep : str) (pieces : list str) : str :=
  match pieces with
  | [] => []
  | [p] => p
  | p :: ps => p ++ sep ++ py_join sep ps
  end.

(** [f.read()] on a file opened in text mode with [open(name)], whose
    decoded text is [s]: newlines are translated, a carriage return with
    the line feed after it, or a carriage return alone, is read as one
    line feed. *)
Fixpoint universal_newlines (s : str) : str :=
  match s with
  | [] => []
  | c :: s' =>
      if (c =? 13)%N then
        10%N :: match s' with
                | c' :: s'' =>
                    if (c' =? 10)%N then universal_newlines s'' else universal_newlines s'
                | [] => []
                end
      else c :: universal_newlines s'
  end.

(** [read_chars] on the decoded text of [vocab_file]:
    [f.read().split('\x00')]. *)
Definition read_chars (content : str) : list str :=
  split_on 0%N (universal_newlines content).

(** [KenlmNgrams.__init__] on the contents of the two files: the attributes
    [chars], [ngrams] and [total] of the object. *)
Definition KenlmNgrams_init (native : byteorder) (vocab_content : str)
    (ngram_content : list Byte.byte) (order : nat) (min_count : Z)
    : option (result (list (list N) * counts)) :=
  let chars := read_chars vocab_content in
  match read_ngrams native chars order min_count ngram_content with
  | Some (Ok st) => Some (Ok (chars, st))
  | Some (Raise e) => Some (Raise e)
  | None => None
  end.

(** The counts of the records that pass [min_count], in file order. *)
Definition kept_counts (min_count : Z) (items : list (list Byte.byte * Z)) : list Z :=
  filter (fun n => min_count <= n) (map snd items).

(** What a kept record with string [c] and count [n] does to the maps: in
    each map [j < len(c)] the entry of [c[:j + 1]] grows by [n]. *)
Definition bump (c : str) (n : Z) (ngrams : list (odict (list N) Z))
    : list (odict (list N) Z) :=
  imap (fun j d =>
          if decide (j < length c)%nat
          then odict_set (take (j + 1) c)
                 (default 0 (odict_get (take (j + 1) c) d) + n) d
          else d) ngrams.

(** [ngrams[j].get(w)] *)
Definition count_of (ngrams : list (odict (list N) Z)) (j : nat) (w : str) : option Z :=
  match ngrams !! j with
  | Some d => odict_get w d
  | None => None
  end.

(** ** Progress *)

(** What [Progress.__iter__] does, in order: a call of [logger.info] with
    the count [i + 1] put into the format, or the hand-over of an item.
    The text of the message is not modelled: [desc] is taken to hold no
    percent sign, as in every use in this file, so that the format that
    [__init__] builds accepts the count. *)
Inductive progress_event (A : Type) : Type :=
  | Logged (count : Z)
  | Yielded (item : A).
Arguments Logged {A} count.
Arguments Yielded {A} item.

(** [Progress.__iter__] run to the end of [iterator], from the index [i] of
    [enumerate]: the events, and the exception that stops it, if any.
    [(i + 1) % self.period] raises when [period] is 0. *)
Fixpoint Progress_iter_from {A} (period : Z) (i : Z) (iterator : list A)
    : list (progress_event A) * option exn :=
  match iterator with
  | [] => ([], None)
  | j :: rest =>
      if period =? 0 then ([], Some ZeroDivisionError)
      else
        let '(events, err) := Progress_iter_from period (i + 1) rest in
        ((if (i + 1) mod period =? 0 then [Logged (i + 1)] else [])
           ++ Yielded j :: events, err)
  end.

Definition Progress_iter {A} (period : Z) (iterator : list A)
    : list (progress_event A) * option exn :=
  Progress_iter_from period 0 iterator.

(** The items handed over, and the counts logged. *)
Definition yielded_items {A} (events : list (progress_event A)) : list A :=
  omap (fun ev => match ev with Yielded j => Some j | Logged _ => None end) events.

Definition logged_counts {A} (events : list (progress_event A)) : list Z :=
  omap (fun ev => match ev with Logged k => Some k | Yielded _ => None end) events.

(** ** write_corpus *)

(** Iterating a string gives its characters, as strings of length one. *)
Definition str_chars (s : str) : list str := map (fun c => [c]) s.

(** [' '.join(s) + '\n'] for a text [s] that is a string. *)
Definition corpus_line (s : str) : str := py_join [32%N] (str_chars s) ++ [10%N].

(** What [write_corpus] writes to the file, before it is encoded. *)
Definition write_corpus (texts : list (list N)) : str := concat (map corpus_line texts).

(** ** text_generator *)

(** [str.isspace] on one character. *)
Definition py_isspace (c : N) : bool :=
  ((9 <=? c) && (c <=? 13) || (28 <=? c) && (c <=? 32) || (c =? 133) || (c =? 160)
   || (c =? 5760) || (8192 <=? c) && (c <=? 8202) || (c =? 8232) || (c =? 8233)
   || (c =? 8239) || (c =? 8287) || (c =? 12288))%N.

Fixpoint py_lstrip (s : str) : str :=
  match s with
  | [] => []
  | c :: s' => if py_isspace c then py_lstrip s' else s
  end.

(** [s.strip()] *)
Definition py_strip (s : str) : str := reverse (py_lstrip (reverse (py_lstrip s))).

(** [s.replace(a, b)] for two strings of one character. *)
Definition replace_char (a b : N) (s : str) : str :=
  map (fun c => if (c =? a)%N then b else c) s.

(** The characters that the pattern [[^一-龥0-9a-zA-Z ]] does not
    match. *)
Definition kept_char (c : N) : bool :=
  ((19968 <=? c) && (c <=? 40869) || (48 <=? c) && (c <=? 57)
   || (97 <=? c) && (c <=? 122) || (65 <=? c) && (c <=? 90) || (c =? 32))%N.

(** [re.sub(u'[^一-龥0-9a-zA-Z ]+', '\n', s)]: each maximal run of
    characters that match is replaced by one newline.  [in_run] tells that
    the character before belongs to a run already replaced. *)
Fixpoint re_sub_runs (in_run : bool) (s : str) : str :=
  match s with
  | [] => []
  | c :: s' =>
      if kept_char c then c :: re_sub_runs false s'
      else if in_run then re_sub_runs true s'
      else 10%N :: re_sub_runs true s'
  end.

(** What [text_generator] yields for a file whose text is [d]. *)
Definition clean_text (d : str) : str :=
  re_sub_runs false (py_strip (replace_char 12288 32 d)).

(** [text_generator] on the texts of the files that [glob] lists. *)
Definition text_generator (files : list (list N)) : list str := map clean_text files.

(** ** The construction of the vocabulary *)

(** The object bound to [texts]: the list of the texts, which every loop
    reads from its start, or the generator of [text_generator], which hands
    over each text once. *)
Inductive texts_obj : Type :=
  | TextsList (items : list str)
  | TextsGenerator (pending : list str).

(** A [for] loop over [texts] that runs to the end: the items it sees, and
    the object afterwards. *)
Definition iterate (texts : texts_obj) : list str * texts_obj :=
  match texts with
  | TextsList items => (items, TextsList items)
  | TextsGenerator pending => (pending, TextsGenerator [])
  end.

(** [candidates[w] = candidates.get(w, 0) + 1] *)
Definition count_word (candidates : odict str Z) (w : str) : odict str Z :=
  odict_set w (default 0 (odict_get w candidates) + 1) candidates.

(** The loop over the texts that fills [candidates]. *)
Definition count_candidates (ngtrie : dic) (texts : list str) : odict str Z :=
  foldl (fun candidates t => foldl count_word candidates (tokenize ngtrie t)) [] texts.

(** [{i: j for i, j in candidates.items() if j >= min_count}] *)
Definition frequency_filter (min_count : Z) (candidates : odict str Z) : odict str Z :=
  foldl (fun result ij => if decide (min_count <= ij.2)
                          then odict_set ij.1 ij.2 result else result)
        [] candidates.

(** [filter_vocab] on a dict whose order of insertion is followed, as the
    sorting of the result needs it. *)
Definition filter_vocab_ordered_step (ngrams : gset (list N)) (order : nat)
    (result : odict str Z) (ij : str * Z) : odict str Z :=
  let '(i, j) := ij in
  if (length i <? 3)%nat then odict_set i j result
  else if (length i <=? order)%nat && bool_decide (i ∈ ngrams) then odict_set i j result
  else if (order <? length i)%nat then
    (if windows_flag i ngrams order then odict_set i j result else result)
  else result.

Definition filter_vocab_ordered (candidates : odict str Z) (ngrams : gset (list N))
    (order : nat) : odict str Z :=
  foldl (filter_vocab_ordered_step ngrams order) [] candidates.

(** [sorted(items, key=lambda s: -s[1])]: the sort is stable, an item goes
    behind the items before it whose key is not greater. *)
Fixpoint insert_sorted (x : str * Z) (sorted : list (str * Z)) : list (str * Z) :=
  match sorted with
  | [] => [x]
  | y :: rest => if - x.2 <? - y.2 then x :: sorted else y :: insert_sorted x rest
  end.

Definition py_sorted (items : list (str * Z)) : list (str * Z) :=
  foldl (fun sorted x => insert_sorted x sorted) [] items.

(** How often [w] is among the fragments. *)
Definition occurrences (w : str) (fragments : list str) : Z :=
  Z.of_nat (length (filter (fun x => x = w) fragments)).

(** The entries of the output file, from the trie and the accepted set on:
    counting, frequency filter, [filter_vocab], sorting. *)
Definition vocabulary (ngtrie : dic) (ngrams : gset (list N)) (order : nat)
    (min_count : Z) (texts : list str) : list (str * Z) :=
  py_sorted (filter_vocab_ordered
               (frequency_filter min_count (count_candidates ngtrie texts))
               ngrams order).

Section main.
Variable libm_log : spec_float -> spec_float.
Variable native : byteorder.

(** KenLM's [count_ngrams], run by [os.system] on the corpus file: its exit
    status, the text of the vocabulary file and the bytes of the n-gram
    file that it leaves.  The share of the memory that it may take is a
    setting of the tool. *)
Variable kenlm : nat -> str -> Z * (str * list Byte.byte).

Definition count_ngrams (order : nat) (corpus : str) : result (str * list Byte.byte) :=
  let '(done, files) := kenlm order corpus in
  if done =? 0 then Ok files else Raise ValueError.

(** The script, from the texts of the files that [glob] lists to the
    entries of the output file. *)
Definition main (load_texts_in_memory : bool) (files : list (list N)) (min_count : Z)
    (order : nat) : option (result (list (str * Z))) :=
  let texts := if load_texts_in_memory then TextsList (text_generator files)
               else TextsGenerator (text_generator files) in
  let '(written, texts) := iterate texts in
  match count_ngrams order (write_corpus written) with
  | Raise e => Some (Raise e)
  | Ok (vocab_content, ngram_content) =>
      match KenlmNgrams_init native vocab_content ngram_content order min_count with
      | None => None
      | Some (Raise e) => Some (Raise e)
      | Some (Ok (chars, st)) =>
          match filter_ngrams libm_log (ngrams st) (total st)
                  (Iterable [PyInt 0; PyInt 2; PyInt 4; PyInt 6]) with
          | Raise e => Some (Raise e)
          | Ok accepted =>
              let ngtrie := trie_of (elements accepted) in
              let '(read, texts) := iterate texts in
              Some (Ok (vocabulary ngtrie accepted order min_count read))
          end
      end
  end.
End main.

(** * Example data for the script *)

(** A stand-in for KenLM that succeeds and leaves the vocabulary of
    [example_chars] and the two records ("ab", 5) and ("cd", 3). *)
Definition example_kenlm (order : nat) (corpus : str) : Z * (str * list Byte.byte) :=
  (0, (py_join [0%N] example_chars,
       example_record Byte.x03 Byte.x04 Byte.x05
       ++ example_record Byte.x05 Byte.x06 Byte.x03)).

(** A stand-in for the C library's logarithm that never exceeds it from
    1.0 on: 2.0 from 8.0 on, and 0.0 below. *)
Definition log_step (x : spec_float) : spec_float :=
  if SFleb (S754_finite false 4503599627370496 (-49)) x
  then S754_finite false 4503599627370496 (-51)
  else S754_zero false.

(** A stand-in for KenLM that succeeds and leaves the vocabulary of
    [example_chars] and the three records ("ab", 5), ("b", 5) and
    ("cd", 200). *)
Definition example_kenlm_cohesive (order : nat) (corpus : str)
    : Z * (str * list Byte.byte) :=
  (0, (py_join [0%N] example_chars,
       example_record Byte.x03 Byte.x04 Byte.x05
       ++ example_record Byte.x01 Byte.x04 Byte.x05
       ++ example_record Byte.x05 Byte.x06 Byte.xc8)).

(** * Properties *)

(** ** Slices, loops that may raise, dicts *)

Lemma slice_length {A} (s : list A) (lo hi : nat) :
  length (slice s lo hi) = ((hi - lo) `min` (length s - lo))%nat.
Proof. unfold slice. by rewrite length_take, length_drop. Qed.

Lemma slice_length_in {A} (s : list A) (lo hi : nat) :
  (lo <= hi)%nat -> (hi <= length s)%nat -> length (slice s lo hi) = (hi - lo)%nat.
Proof. intros. rewrite slice_length. lia. Qed.

Lemma take_app_slice {A} (s : list A) (lo hi : nat) :
  (lo <= hi)%nat -> take lo s ++ slice s lo hi = take hi s.
Proof.
  intros Hle. unfold slice. rewrite take_take_drop. f_equal. lia.
Qed.

Lemma bind_ok_inv {A B} (r : result A) (k : A -> result B) (b : B) :
  (let! a := r in k a) = Ok b -> exists a : A, r = Ok a /\ k a = Ok b.
Proof. destruct r as [a|e]; simpl; [eauto|discriminate]. Qed.

Lemma bind_raise_inv {A B} (r : result A) (k : A -> result B) (e : exn) :
  (let! a := r in k a) = Raise e ->
  r = Raise e \/ exists a : A, r = Ok a /\ k a = Raise e.
Proof. destruct r as [a|e']; simpl; [eauto|intros [= ->]; by left]. Qed.

Lemma mapR_ok {A B} (f : A -> result B) (g : A -> B) (l : list A) :
  (forall a, a ∈ l -> f a = Ok (g a)) -> mapR f l = Ok (map g l).
Proof.
  induction l as [|a l IH]; intros H; simpl; [reflexivity|].
  rewrite (H a) by left. simpl. rewrite IH; [reflexivity|].
  intros b Hb. apply H. by right.
Qed.

Lemma mapR_ok_inv {A B} (f : A -> result B) (l : list A) (bs : list B) :
  mapR f l = Ok bs -> forall b, b ∈ bs -> exists a, a ∈ l /\ f a = Ok b.
Proof.
  revert bs. induction l as [|a l IH]; intros bs; simpl.
  - intros [= <-] b Hb. by apply elem_of_nil in Hb.
  - intros H. apply bind_ok_inv in H as (b0 & Hb0 & H).
    apply bind_ok_inv in H as (bs' & Hbs' & [= <-]).
    intros b Hb. apply elem_of_cons in Hb as [->|Hb].
    + exists a. split; [left|exact Hb0].
    + destruct (IH _ Hbs' b Hb) as (a' & Hin & Ha'). exists a'. split; [by right|exact Ha'].
Qed.

Lemma mapR_length {A B} (f : A -> result B) (l : list A) (bs : list B) :
  mapR f l = Ok bs -> length bs = length l.
Proof.
  revert bs. induction l as [|a l IH]; intros bs; simpl.
  - intros [= <-]. reflexivity.
  - destruct (f a) as [b|e]; simpl; [|discriminate].
    destruct (mapR f l) as [bs'|e]; simpl; [|discriminate].
    intros [= <-]. simpl. f_equal. by apply IH.
Qed.

Lemma mapR_ext {A B} (f g : A -> result B) (l : list A) :
  (forall a, a ∈ l -> f a = g a) -> mapR f l = mapR g l.
Proof.
  induction l as [|a l IH]; intros H; simpl; [reflexivity|].
  rewrite (H a) by left. rewrite IH; [reflexivity|].
  intros b Hb. apply H. by right.
Qed.

Lemma mapR_raise_inv {A B} (f : A -> result B) (l : list A) (e : exn) :
  mapR f l = Raise e -> exists a : A, a ∈ l /\ f a = Raise e.
Proof.
  induction l as [|a l IH]; simpl; [discriminate|]. intros H.
  apply bind_raise_inv in H as [H|(b & _ & H)].
  - exists a. split; [left|exact H].
  - apply bind_raise_inv in H as [H|(bs & _ & H)]; [|discriminate].
    destruct (IH H) as (a' & Hin & Ha'). exists a'. split; [by right|exact Ha'].
Qed.

Lemma foldR_app {A S} (body : S -> A -> result S) (s : S) (l1 l2 : list A) :
  foldR body s (l1 ++ l2) = let! s' := foldR body s l1 in foldR body s' l2.
Proof.
  revert s. induction l1 as [|a l1 IH]; intros s; simpl; [reflexivity|].
  destruct (body s a) as [s'|e]; simpl; [apply IH|reflexivity].
Qed.

Lemma foldR_invariant {A S} (P : S -> Prop) (body : S -> A -> result S) (l : list A) :
  (forall (s : S) (a : A) (s' : S), a ∈ l -> P s -> body s a = Ok s' -> P s') ->
  forall s s' : S, P s -> foldR body s l = Ok s' -> P s'.
Proof.
  induction l as [|a l IH]; intros Hstep s s' Hs; simpl.
  - by intros [= <-].
  - intros H. apply bind_ok_inv in H as (s1 & Hs1 & H).
    apply (IH (fun s0 a0 s0' Hin => Hstep s0 a0 s0' (list_elem_of_further _ _ _ Hin)) s1 s');
      [|exact H].
    apply (Hstep s a s1); [left|exact Hs|exact Hs1].
Qed.

Lemma foldR_raise_inv {A S} (body : S -> A -> result S) (l : list A) (e : exn) :
  forall s : S,
    foldR body s l = Raise e ->
    exists (s' : S) (a : A), a ∈ l /\ body s' a = Raise e.
Proof.
  induction l as [|a l IH]; intros s; simpl; [discriminate|]. intros H.
  apply bind_raise_inv in H as [H|(s1 & _ & H)].
  - exists s, a. split; [left|exact H].
  - destruct (IH _ H) as (s' & a' & Hin & Ha'). exists s', a'. split; [by right|exact Ha'].
Qed.

Lemma list_at_raise {A} (l : list A) (i : nat) (e : exn) :
  list_at l i = Raise e -> e = IndexError.
Proof. unfold list_at. destruct (l !! i); congruence. Qed.

Section odict_facts.
Context {K V : Type} `{EqDecision K}.

Lemma odict_get_set_eq (k : K) (v : V) (d : odict K V) :
  odict_get k (odict_set k v d) = Some v.
Proof.
  induction d as [|[k' v'] d IH]; simpl.
  - by rewrite decide_True.
  - destruct (decide (k = k')) as [->|Hne]; simpl.
    + by rewrite decide_True.
    + by rewrite decide_False.
Qed.

Lemma odict_get_set_ne (k k' : K) (v : V) (d : odict K V) :
  k <> k' -> odict_get k' (odict_set k v d) = odict_get k' d.
Proof.
  intros Hne. induction d as [|[k0 v0] d IH]; simpl.
  - by rewrite decide_False.
  - destruct (decide (k = k0)) as [->|Hne0]; simpl.
    + by rewrite !decide_False.
    + destruct (decide (k' = k0)); [reflexivity|exact IH].
Qed.

Lemma odict_get_Some_in (k : K) (v : V) (d : odict K V) :
  odict_get k d = Some v -> (k, v) ∈ d.
Proof.
  induction d as [|[k' v'] d IH]; simpl; [discriminate|].
  destruct (decide (k = k')) as [->|Hne].
  - intros [= ->]. left.
  - intros H. right. by apply IH.
Qed.

Lemma odict_in_get (k : K) (v : V) (d : odict K V) :
  odict_wf d -> (k, v) ∈ d -> odict_get k d = Some v.
Proof.
  unfold odict_wf. induction d as [|[k' v'] d IH]; simpl.
  - intros _ Hin. by apply elem_of_nil in Hin.
  - rewrite NoDup_cons. intros [Hnotin Hnd] Hin.
    apply elem_of_cons in Hin as [[= -> ->]|Hin].
    + by rewrite decide_True.
    + destruct (decide (k = k')) as [->|Hne]; [|by apply IH].
      exfalso. apply Hnotin. apply list_elem_of_fmap. by exists (k', v).
Qed.

Lemma odict_set_keys (k : K) (v : V) (d : odict K V) :
  map fst (odict_set k v d) = map fst d \/
  ((k ∉ map fst d) /\ map fst (odict_set k v d) = map fst d ++ [k]).
Proof.
  induction d as [|[k' v'] d IH]; simpl.
  - right. split; [apply not_elem_of_nil|reflexivity].
  - destruct (decide (k = k')) as [->|Hne]; simpl; [by left|].
    destruct IH as [IH|[Hnotin IH]].
    + left. by rewrite IH.
    + right. split; [|by rewrite IH].
      apply not_elem_of_cons. by split.
Qed.

(** [d[k] = v] leaves a dict a dict. *)
Lemma odict_set_wf (k : K) (v : V) (d : odict K V) :
  odict_wf d -> odict_wf (odict_set k v d).
Proof.
  unfold odict_wf. intros Hnd.
  destruct (odict_set_keys k v d) as [->|[Hnotin ->]]; [exact Hnd|].
  apply NoDup_app. split; [exact Hnd|]. split; [|apply NoDup_singleton].
  intros x Hx Hx'. apply list_elem_of_singleton in Hx' as ->. by apply Hnotin.
Qed.

Lemma odict_set_elem (k k' : K) (v v' : V) (d : odict K V) :
  (k', v') ∈ odict_set k v d -> (k' = k /\ v' = v) \/ (k', v') ∈ d.
Proof.
  induction d as [|[k0 v0] d IH]; simpl.
  - intros Hin. apply list_elem_of_singleton in Hin as [= -> ->]. by left.
  - destruct (decide (k = k0)) as [->|Hne]; intros Hin;
      apply elem_of_cons in Hin as [[= -> ->]|Hin].
    + by left.
    + right. by right.
    + right. left.
    + destruct (IH Hin) as [?|?]; [by left|right; by right].
Qed.
End odict_facts.

(** ** SimpleTrie.tokenize *)

(** The inner loop never lowers [end] and never moves it past the end of
    the text it scans. *)
Lemma scan_bounds (rest : str) :
  forall (d : dic) (pos e : nat),
    (e <= scan d rest pos e)%nat /\
    (scan d rest pos e <= e `max` (pos + length rest))%nat.
Proof.
  induction rest as [|c rest IH]; intros d pos e; simpl.
  - lia.
  - destruct (sub d !! c) as [d'|]; [|lia].
    destruct (end_word d') as [w|].
    + destruct (Nat.ltb_spec e (pos + 1)) as [Hlt|Hge].
      * specialize (IH d' (S pos) (pos + 1)%nat). lia.
      * specialize (IH d' (S pos) e). lia.
    + specialize (IH d' (S pos) e). lia.
Qed.

Lemma tokenize_step_inv (root : dic) (sent : str) (i : nat) (st : tok_state) :
  (i < length sent)%nat ->
  tok_inv sent i st -> tok_inv sent (S i) (tokenize_step root sent st i).
Proof.
  intros Hi [Hw Hlo Hup Hcat Hne]. unfold tokenize_step.
  destruct (Nat.eqb_spec i (tok_end st)) as [Heq|Hneq]; simpl.
  - pose proof (scan_bounds (drop i sent) root i (i + 1)) as Hs.
    rewrite length_drop in Hs.
    split; simpl; try lia.
    + rewrite concat_app, Hcat. simpl. rewrite app_nil_r.
      rewrite take_app_slice by lia. by subst i.
    + apply Forall_app. split; [done|].
      apply Forall_singleton. intros Hnil.
      apply (f_equal length) in Hnil. rewrite slice_length in Hnil.
      simpl in Hnil. lia.
  - pose proof (scan_bounds (drop i sent) root i (tok_end st)) as Hs.
    rewrite length_drop in Hs.
    split; simpl; try lia; done.
Qed.

Lemma tokenize_loop_inv (root : dic) (sent : str) (n : nat) :
  forall (a : nat) (st : tok_state),
    (a + n <= length sent)%nat ->
    tok_inv sent a st ->
    tok_inv sent (a + n) (foldl (tokenize_step root sent) st (seq a n)).
Proof.
  induction n as [|n IH]; intros a st Hlen Hinv; simpl.
  - by replace (a + 0)%nat with a by lia.
  - replace (a + S n)%nat with (S a + n)%nat by lia.
    apply IH; [lia|]. apply tokenize_step_inv; [lia|done].
Qed.

(** C10: the fragments of [tokenize], concatenated in order, give back the
    sentence, for every trie and every sentence; and no fragment of a
    non-empty sentence is empty. *)
Theorem tokenize_concat (root : dic) (sent : str) :
  concat (tokenize root sent) = sent /\
  (sent <> [] -> Forall (fun w => w <> []) (tokenize root sent)).
Proof.
  destruct sent as [|c sent'] eqn:Hsent.
  { split; [reflexivity|congruence]. }
  rewrite <- Hsent. unfold tokenize.
  assert (Hinv : tok_inv sent (0 + length sent)
            (foldl (tokenize_step root sent) (TokState [] 0 1) (seq 0 (length sent)))).
  { apply tokenize_loop_inv; [lia|].
    split; simpl; try lia; try done. subst sent. simpl. lia. }
  simpl in Hinv. destruct Hinv as [Hw Hlo Hup Hcat Hne].
  set (st := foldl _ _ _) in *.
  split.
  - rewrite concat_app, Hcat. simpl. rewrite app_nil_r.
    rewrite take_app_slice by lia. apply take_ge. lia.
  - intros _. apply Forall_app. split; [done|].
    apply Forall_singleton. intros Hnil.
    apply (f_equal length) in Hnil. rewrite slice_length in Hnil.
    simpl in Hnil. lia.
Qed.

Lemma tokenize_concat_witness :
  concat (tokenize (trie_of [py "the"; py "there"]) (py "thereby")) = py "thereby" /\
  Forall (fun w => w <> []) (tokenize (trie_of [py "the"; py "there"]) (py "thereby")).
Proof.
  destruct (tokenize_concat (trie_of [py "the"; py "there"]) (py "thereby")) as [H1 H2].
  split; [exact H1|]. apply H2. discriminate.
Defined.

(** C1, as the spec has it, fails on its second half: after ["there"] the
    two characters that no trie word covers come out one by one. *)
Lemma tokenize_thereby_not_by :
  tokenize (trie_of [py "the"; py "there"]) (py "thereby") <> [py "there"; py "by"].
Proof. vm_compute. discriminate. Qed.

(** C1 (amended): with the words "the", "there" and "here" in the trie,
    "there" is one fragment; with "the" and "there" only, "thereby" is cut
    into "there", "b" and "y". *)
Theorem tokenize_examples :
  tokenize (trie_of [py "the"; py "there"; py "here"]) (py "there") = [py "there"] /\
  tokenize (trie_of [py "the"; py "there"]) (py "thereby")
    = [py "there"; py "b"; py "y"].
Proof. split; vm_compute; reflexivity. Qed.

(** ** filter_vocab *)

Lemma windows_flag_fold (P : nat -> Prop) `{!forall k, Decision (P k)}
    (l : list nat) (b : bool) :
  foldl (fun flag k => if decide (P k) then flag else false) b l
  = b && forallb (fun k => bool_decide (P k)) l.
Proof.
  revert b. induction l as [|k l IH]; intros b; simpl.
  - by rewrite andb_true_r.
  - rewrite IH. destruct (decide (P k)) as [Hk|Hk].
    + by rewrite (bool_decide_eq_true_2 _ Hk).
    + rewrite (bool_decide_eq_false_2 _ Hk). simpl. by rewrite andb_false_r.
Qed.

(** [flag] stays [True] exactly when every window is accepted. *)
Lemma windows_flag_true (i : str) (ngrams : gset (list N)) (order : nat) :
  windows_flag i ngrams order = true <->
  forall k : nat, (k < length i + 1 - order)%nat -> slice i k (k + order) ∈ ngrams.
Proof.
  unfold windows_flag.
  rewrite (windows_flag_fold (fun k => slice i k (k + order) ∈ ngrams)).
  simpl. rewrite forallb_forall. split.
  - intros H k Hk. specialize (H k). rewrite bool_decide_eq_true in H.
    apply H. apply in_seq. lia.
  - intros H k Hk. apply in_seq in Hk. apply bool_decide_eq_true, H. lia.
Qed.

(** The decision that the [if]/[elif] chain of [filter_vocab] takes. *)
Lemma filter_vocab_step_cases (ngrams : gset (list N)) (order : nat)
    (i : str) (j : Z) (result : gmap (list N) Z) :
  filter_vocab_step ngrams order i j result =
    if retained ngrams order i then <[i := j]> result else result.
Proof.
  unfold filter_vocab_step, retained.
  destruct (length i <? 3)%nat; [reflexivity|].
  destruct ((length i <=? order)%nat && bool_decide (i ∈ ngrams)); [reflexivity|].
  destruct (order <? length i)%nat; [|reflexivity].
  by destruct (windows_flag i ngrams order).
Qed.

(** The result holds the retained candidates, each with its count, and
    nothing else. *)
Lemma filter_vocab_lookup (candidates : gmap (list N) Z) (ngrams : gset (list N))
    (order : nat) (i : str) :
  filter_vocab candidates ngrams order !! i =
    if retained ngrams order i then candidates !! i else None.
Proof.
  unfold filter_vocab.
  apply (map_fold_weak_ind
           (fun (r : gmap (list N) Z) (m : gmap (list N) Z) =>
              r !! i = if retained ngrams order i then m !! i else None)).
  - rewrite !lookup_empty. by destruct (retained _ _ _).
  - intros i' x m r Hnone IH. rewrite filter_vocab_step_cases.
    destruct (decide (i' = i)) as [->|Hne].
    + destruct (retained ngrams order i) eqn:Hret.
      * by rewrite !lookup_insert_eq.
      * done.
    + rewrite (lookup_insert_ne m) by done.
      destruct (retained ngrams order i'); [|done].
      by rewrite lookup_insert_ne.
Qed.

(** C3, as the spec has it, fails: with [order = 1] the candidate "ab" is
    longer than [order] and none of its windows of one character is
    accepted, yet it is kept with its count, because the test
    [len(i) < 3] is tried first. *)
Lemma short_candidate_kept :
  ~ (forall (candidates : gmap (list N) Z) (ngrams : gset (list N)) (order : nat)
            (i : str) (j : Z),
       candidates !! i = Some j -> (order < length i)%nat ->
       (filter_vocab candidates ngrams order !! i = Some j <->
        forall k : nat, (k < length i - order + 1)%nat -> slice i k (k + order) ∈ ngrams)).
Proof.
  intros H.
  destruct (H {[py "ab" := 7]} ∅ 1%nat (py "ab") 7) as [Hkeep _].
  - by vm_compute.
  - simpl. lia.
  - assert (Hin : slice (py "ab") 0 (0 + 1) ∈ (∅ : gset (list N))).
    { apply Hkeep; [by vm_compute|simpl; lia]. }
    by apply not_elem_of_empty in Hin.
Qed.

(** C3 (amended): a candidate shorter than 3 keeps its count, whatever
    [order] and the accepted set are; one of length 3 to [order] is kept
    exactly when it is an accepted n-gram; one that is longer than [order]
    and has 3 characters at least is kept exactly when each of its
    [len - order + 1] windows of length [order] is accepted.  A kept
    candidate keeps its count. *)
Theorem filter_vocab_spec (candidates : gmap (list N) Z) (ngrams : gset (list N))
    (order : nat) (i : str) (j : Z) :
  candidates !! i = Some j ->
  (filter_vocab candidates ngrams order !! i = Some j \/
   filter_vocab candidates ngrams order !! i = None) /\
  ((length i < 3)%nat -> filter_vocab candidates ngrams order !! i = Some j) /\
  ((3 <= length i <= order)%nat ->
   (filter_vocab candidates ngrams order !! i = Some j <-> i ∈ ngrams)) /\
  ((3 <= length i)%nat -> (order < length i)%nat ->
   (filter_vocab candidates ngrams order !! i = Some j <->
    forall k : nat, (k < length i - order + 1)%nat -> slice i k (k + order) ∈ ngrams)).
Proof.
  intros Hi. rewrite filter_vocab_lookup, Hi.
  assert (Hlong : (3 <= length i)%nat -> (order < length i)%nat ->
            (retained ngrams order i = true <->
             forall k : nat, (k < length i - order + 1)%nat ->
                             slice i k (k + order) ∈ ngrams)).
  { intros H3 Ho. unfold retained.
    destruct (Nat.ltb_spec (length i) 3); [lia|].
    destruct (Nat.leb_spec (length i) order); [lia|].
    destruct (Nat.ltb_spec order (length i)); [|lia].
    simpl. rewrite windows_flag_true.
    replace (length i + 1 - order)%nat with (length i - order + 1)%nat by lia.
    reflexivity. }
  repeat split.
  - destruct (retained ngrams order i); [by left|by right].
  - intros H3. unfold retained.
    by destruct (Nat.ltb_spec (length i) 3); [|lia].
  - intros Hk. destruct (retained ngrams order i) eqn:Hret; [|done].
    unfold retained in Hret.
    destruct (Nat.ltb_spec (length i) 3); [lia|].
    destruct (Nat.leb_spec (length i) order); [|lia].
    destruct (Nat.ltb_spec order (length i)); [lia|].
    simpl in Hret. rewrite orb_false_r in Hret.
    by apply bool_decide_eq_true in Hret.
  - intros Hin. unfold retained.
    destruct (Nat.ltb_spec (length i) 3); [lia|].
    destruct (Nat.leb_spec (length i) order); [|lia].
    simpl. by rewrite (bool_decide_eq_true_2 _ Hin).
  - intros Hk. apply Hlong; [done..|]. by destruct (retained ngrams order i).
  - intros Hw. apply Hlong in Hw; [|done..]. by rewrite Hw.
Qed.

Lemma filter_vocab_spec_witness :
  filter_vocab {[py "abc" := 5; py "abd" := 7]} {[py "ab"; py "bc"]} 2 !! py "abc"
  = Some 5.
Proof.
  pose proof (filter_vocab_spec {[py "abc" := 5; py "abd" := 7]}
                {[py "ab"; py "bc"]} 2 (py "abc") 5) as H.
  destruct H as (_ & _ & _ & H); [by vm_compute|].
  apply H; [simpl; lia|simpl; lia|].
  intros k Hk. simpl in Hk.
  destruct k as [|[|k]]; [by vm_compute|by vm_compute|lia].
Defined.

(** ** KenlmNgrams.read_ngrams: the generator *)



Lemma unpack_ok (native : byteorder) (t : fmt) (s : list Byte.byte) :
  length s = calcsize t -> unpack native t s = Ok (int_from_bytes native s).
Proof. intros H. unfold unpack. by rewrite H, Nat.eqb_refl. Qed.

Lemma last8_length (s : list Byte.byte) :
  (8 <= length s)%nat -> length (last8 s) = 8%nat.
Proof. intros H. unfold last8. rewrite length_drop. lia. Qed.

Lemma div_step (a size : nat) :
  (0 < size)%nat -> (size <= a)%nat -> (a / size = S ((a - size) / size))%nat.
Proof.
  intros Hs Ha.
  replace a with ((a - size) + 1 * size)%nat at 1 by lia.
  rewrite Nat.div_add by lia. lia.
Qed.

(** With enough fuel the reading loop ends by itself, on the first short
    read, and has then yielded every full record before it. *)
Lemma ngrams_loop_spec (native : byteorder) (size : nat) :
  (8 <= size)%nat ->
  forall (fuel : nat) (f : list Byte.byte),
    (length f < fuel)%nat ->
    exists items : list (list Byte.byte * Z),
      ngrams_loop fuel native size f = Some (Ok items) /\
      length items = (length f / size)%nat /\
      concat (map fst items) = take (length items * size) f /\
      Forall (fun it => length (fst it) = size /\
                        snd it = int_from_bytes native (last8 (fst it))) items.
Proof.
  intros Hsize fuel. induction fuel as [|fuel IH]; intros f Hfuel; [lia|].
  simpl.
  destruct (Nat.eqb_spec (length (take size f)) size) as [Hfull|Hshort];
    rewrite length_take in *.
  - assert (Hlen : (size <= length f)%nat) by lia.
    rewrite unpack_ok
      by (rewrite last8_length; [reflexivity|rewrite length_take; lia]).
    destruct (IH (drop size f)) as (items & Hrun & Hcount & Hcat & Hall).
    { rewrite length_drop. lia. }
    rewrite Hrun. eexists. split; [reflexivity|].
    rewrite length_drop in Hcount. simpl. repeat split.
    + rewrite Hcount. symmetry. apply div_step; lia.
    + rewrite Hcat. apply take_take_drop.
    + constructor; [|exact Hall]. simpl. split; [|reflexivity].
      rewrite length_take. lia.
  - exists []. repeat split; [|constructor].
    simpl. symmetry. apply Nat.div_small. lia.
Qed.

(** C7: on every byte stream the generator ends without an exception, on
    the first read that is shorter than a record of [order * 4 + 8] bytes;
    it has then yielded the [len / size] full records that precede, each
    with its count, and the bytes left over are dropped. *)
Theorem ngrams_gen_stops_cleanly (native : byteorder) (order : nat)
    (f : list Byte.byte) :
  exists items : list (list Byte.byte * Z),
    ngrams_gen native order f = Some (Ok items) /\
    length items = (length f / (order * 4 + 8))%nat /\
    concat (map fst items) = take (length items * (order * 4 + 8)) f /\
    Forall (fun it => length (fst it) = (order * 4 + 8)%nat /\
                      snd it = int_from_bytes native (last8 (fst it))) items.
Proof. apply ngrams_loop_spec; lia. Qed.

(** ** KenlmNgrams.read_ngrams: decoding a record *)

(** The [order] leading chunks of 4 bytes, each read as a signed C [int]. *)
Lemma record_indices_spec (native : byteorder) (order : nat) (s : list Byte.byte) :
  (order * 4 <= length s)%nat ->
  record_indices native order s
  = Ok (map (fun j => int_from_bytes native (slice s (j * 4) ((j + 1) * 4)))
            (seq 0 order)).
Proof.
  intros Hlen. unfold record_indices. apply mapR_ok.
  intros j Hj. apply list_elem_of_In, in_seq in Hj.
  apply unpack_ok. simpl. rewrite slice_length_in; lia.
Qed.










(** ** KenlmNgrams.read_ngrams: counting the prefixes *)

(** The loop [for j in range(len(c))], stopped after [L] rounds: the maps
    below [L] have their prefix of [c] updated, the others are untouched. *)
Lemma add_prefix_loop (c : str) (n : Z) (ngs : list (odict (list N) Z)) (L : nat) :
  (L <= length ngs)%nat ->
  exists ngs' : list (odict (list N) Z),
    foldR (add_prefix c n) ngs (seq 0 L) = Ok ngs' /\
    length ngs' = length ngs /\
    forall (j : nat) (d : odict (list N) Z),
      ngs !! j = Some d ->
      ngs' !! j = Some (if decide (j < L)%nat
                        then odict_set (take (j + 1) c)
                               (default 0 (odict_get (take (j + 1) c) d) + n) d
                        else d).
Proof.
  induction L as [|L IH]; intros HL.
  - exists ngs. split; [reflexivity|]. split; [reflexivity|].
    intros j d Hj. by rewrite decide_False by lia.
  - destruct IH as (ngs1 & Hrun & Hlen & Hget); [lia|].
    rewrite seq_S, foldR_app, Hrun. simpl.
    destruct (lookup_lt_is_Some_2 ngs L) as [d0 Hd0]; [lia|].
    unfold add_prefix at 1. rewrite (Hget L d0 Hd0), decide_False by lia.
    eexists. split; [reflexivity|]. split; [by rewrite length_insert|].
    intros j d Hj. destruct (decide (j = L)) as [->|Hne].
    + rewrite list_lookup_insert_eq by lia. rewrite decide_True by lia. congruence.
    + rewrite list_lookup_insert_ne by done. rewrite (Hget j d Hj).
      destruct (decide (j < L)%nat), (decide (j < S L)%nat); (reflexivity || lia).
Qed.

(** One run of the body of the loop: a record whose count is below
    [min_count] leaves the maps and [total] as they are; a kept record
    whose decoded string is [c] adds its count to [total] and, for every
    [j < len(c)], to the entry of [c[:j + 1]] in [ngrams[j]]; no other
    entry and no other map changes. *)
Lemma read_ngrams_step_spec (native : byteorder) (chars : list (list N))
    (order : nat) (min_count : Z) (st : counts) (s : list Byte.byte) (n : Z) :
  (n < min_count ->
   read_ngrams_step native chars order min_count st (s, n) = Ok st) /\
  (min_count <= n ->
   forall (idxs : list Z) (c : list N),
     record_indices native order s = Ok idxs ->
     record_string chars idxs = Ok c ->
     (length c <= length (ngrams st))%nat ->
     exists ngrams' : list (odict (list N) Z),
       read_ngrams_step native chars order min_count st (s, n)
       = Ok (Counts ngrams' (total st + n)) /\
       length ngrams' = length (ngrams st) /\
       forall (j : nat) (d : odict (list N) Z),
         ngrams st !! j = Some d ->
         exists d' : odict (list N) Z,
           ngrams' !! j = Some d' /\
           ((j < length c)%nat ->
            odict_get (take (j + 1) c) d'
            = Some (default 0 (odict_get (take (j + 1) c) d) + n) /\
            forall key : list N,
              key <> take (j + 1) c -> odict_get key d' = odict_get key d) /\
           ((length c <= j)%nat -> d' = d)).
Proof.
  split.
  - intros Hn. unfold read_ngrams_step.
    destruct (Z.leb_spec min_count n); [lia|reflexivity].
  - intros Hn idxs c Hidxs Hc Hlen. unfold read_ngrams_step.
    destruct (Z.leb_spec min_count n); [|lia].
    rewrite Hidxs. simpl. rewrite Hc. simpl.
    destruct (add_prefix_loop c n (ngrams st) (length c) Hlen) as (ngs' & Hrun & Hl & Hget).
    rewrite Hrun. simpl. exists ngs'. split; [reflexivity|]. split; [exact Hl|].
    intros j d Hj. eexists. split; [apply (Hget j d Hj)|]. split.
    + intros Hlt. rewrite decide_True by done. split.
      * apply odict_get_set_eq.
      * intros key Hkey. apply odict_get_set_ne. congruence.
    + intros Hge. by rewrite decide_False by lia.
Qed.

(** One update of the loop [for j in range(len(c))] keeps the data model:
    the key it writes in map [j] has [j + 1] characters. *)
Lemma add_prefix_wf (c : str) (n : Z) (ngs ngs' : list (odict (list N) Z)) (j : nat) :
  (j < length c)%nat ->
  count_maps_wf ngs ->
  add_prefix c n ngs j = Ok ngs' ->
  count_maps_wf ngs' /\ length ngs' = length ngs.
Proof.
  intros Hj Hwf. unfold add_prefix.
  destruct (ngs !! j) as [d|] eqn:Hd; [|discriminate]. intros [= <-].
  split; [|apply length_insert].
  intros k dk Hk. destruct (decide (k = j)) as [->|Hne].
  - rewrite list_lookup_insert_eq in Hk by (by eapply lookup_lt_Some).
    injection Hk as <-. destruct (Hwf j d Hd) as [Hnd Hlen]. split.
    + by apply odict_set_wf.
    + intros w v Hin. apply odict_set_elem in Hin as [[-> _]|Hin]; [|by eapply Hlen].
      rewrite length_take. lia.
  - rewrite list_lookup_insert_ne in Hk by done. by apply (Hwf k dk).
Qed.

(** The maps that [read_ngrams] returns follow the data model: there are
    [order] of them, each is a dict, and the keys of map [k] have [k + 1]
    characters. *)
Lemma read_ngrams_count_maps_wf (native : byteorder) (chars : list (list N))
    (order : nat) (min_count : Z) (f : list Byte.byte) (st : counts) :
  read_ngrams native chars order min_count f = Some (Ok st) ->
  count_maps_wf (ngrams st) /\ length (ngrams st) = order.
Proof.
  unfold read_ngrams.
  destruct (ngrams_gen native order f) as [[items|e]|]; [|discriminate..].
  intros [= Hrun]. revert Hrun.
  apply (foldR_invariant
           (fun st => count_maps_wf (ngrams st) /\ length (ngrams st) = order)).
  - intros s [rec n] s' _ [Hwf Hlen] Hstep. unfold read_ngrams_step in Hstep.
    destruct (min_count <=? n); [|by injection Hstep as <-].
    apply bind_ok_inv in Hstep as (idxs & _ & Hstep).
    apply bind_ok_inv in Hstep as (c & _ & Hstep).
    apply bind_ok_inv in Hstep as (ngs' & Hloop & [= <-]). simpl.
    revert Hloop.
    apply (foldR_invariant
             (fun ngs => count_maps_wf ngs /\ length ngs = order)); [|by split].
    intros ngs j ngs1 Hj [Hwf1 Hlen1] Hadd.
    apply list_elem_of_In, in_seq in Hj.
    destruct (add_prefix_wf c n ngs ngs1 j) as [Hwf2 Hlen2]; [lia|exact Hwf1|exact Hadd|].
    split; [exact Hwf2|congruence].
  - simpl. split; [|apply length_replicate].
    intros k d Hk. apply lookup_replicate in Hk as [-> _]. split.
    + apply NoDup_nil_2.
    + intros w v Hin. by apply elem_of_nil in Hin.
Qed.

(** ** binary64 arithmetic *)

Lemma digits2_pos_size (p : positive) : digits2_pos p = Pos.size p.
Proof. induction p; simpl; congruence. Qed.

Lemma Zdigits2_log2 (m : Z) : 0 < m -> Zdigits2 m = Z.log2 m + 1.
Proof.
  destruct m as [|p|p]; try lia. intros _. simpl.
  rewrite digits2_pos_size. destruct p; simpl; lia.
Qed.

Lemma Zdigits2_mono (a b : Z) : 0 < a -> a <= b -> Zdigits2 a <= Zdigits2 b.
Proof.
  intros Ha Hab. rewrite !Zdigits2_log2 by lia.
  pose proof (Z.log2_le_mono a b Hab). lia.
Qed.

Lemma shr_1_div2 (mrs : shr_record) :
  0 <= shr_m mrs -> shr_m (shr_1 mrs) = shr_m mrs / 2.
Proof.
  destruct mrs as [m r s]. simpl. intros Hm.
  rewrite <- Z.div2_div.
  destruct m as [|[p|p|]|p]; simpl; try reflexivity; lia.
Qed.

Lemma iter_pos_shr_1 (p : positive) :
  forall mrs : shr_record,
    0 <= shr_m mrs ->
    shr_m (SpecFloat.iter_pos shr_1 p mrs) = shr_m mrs / 2 ^ Zpos p.
Proof.
  induction p as [p IH|p IH|]; intros mrs Hm; simpl SpecFloat.iter_pos.
  - assert (H1 : 0 <= shr_m (shr_1 mrs)).
    { rewrite shr_1_div2 by done. apply Z.div_pos; lia. }
    assert (H2 : 0 <= shr_m (SpecFloat.iter_pos shr_1 p (shr_1 mrs))).
    { rewrite IH by done. apply Z.div_pos; lia. }
    rewrite IH, IH, shr_1_div2 by done.
    rewrite !Z.div_div by lia. f_equal.
    replace (Zpos p~1) with (1 + Zpos p + Zpos p) by lia.
    rewrite !Z.pow_add_r by lia. rewrite Z.pow_1_r. ring.
  - assert (H2 : 0 <= shr_m (SpecFloat.iter_pos shr_1 p mrs)).
    { rewrite IH by done. apply Z.div_pos; lia. }
    rewrite IH, IH by done. rewrite Z.div_div by lia. f_equal.
    replace (Zpos p~0) with (Zpos p + Zpos p) by lia.
    rewrite Z.pow_add_r by lia. reflexivity.
  - rewrite shr_1_div2 by done. reflexivity.
Qed.

Lemma shr_record_of_loc_m (m : Z) (l : location) : shr_m (shr_record_of_loc m l) = m.
Proof. by destruct l as [|[]]. Qed.

(** Truncation keeps a mantissa of 53 bits at least when the value is 1 or
    more: nothing is lost but low-order bits. *)
Lemma shr_fexp_at_least_one (m e : Z) (l : location) :
  0 < m -> 1 <= Zdigits2 m + e ->
  0 < shr_m (fst (shr_fexp prec emax m e l)) /\
  Zdigits2 (shr_m (fst (shr_fexp prec emax m e l))) + snd (shr_fexp prec emax m e l)
  = Zdigits2 m + e.
Proof.
  intros Hm Hd. unfold shr_fexp, fexp, emin, prec, emax.
  rewrite Z.max_l by lia.
  rewrite (Zdigits2_log2 m Hm) in *.
  pose proof (Z.log2_nonneg m) as Hlog.
  unfold shr.
  destruct (Z.log2 m + 1 + e - 53 - e) as [|p|p] eqn:Hn; simpl fst; simpl snd;
    rewrite ?shr_record_of_loc_m, ?(Zdigits2_log2 m Hm); try (split; [lia|reflexivity]).
  rewrite iter_pos_shr_1 by (rewrite shr_record_of_loc_m; lia).
  rewrite shr_record_of_loc_m, <- Z.shiftr_div_pow2 by lia.
  assert (Hpos : 0 < Z.shiftr m (Zpos p)).
  { destruct (Z.shiftr_eq_0_iff m (Zpos p)) as [H1 _].
    assert (0 <= Z.shiftr m (Zpos p)) by (apply Z.shiftr_nonneg; lia).
    destruct (Z.eq_dec (Z.shiftr m (Zpos p)) 0) as [H0|H0]; [|lia].
    apply H1 in H0. lia. }
  split; [exact Hpos|].
  rewrite (Zdigits2_log2 _ Hpos), Z.log2_shiftr by done. lia.
Qed.

Lemma round_nearest_even_ge (m : Z) (l : location) :
  m <= round_nearest_even m l <= m + 1.
Proof.
  unfold round_nearest_even. destruct l as [|[]]; try lia.
  destruct (Z.even m); lia.
Qed.

(** Rounding a value of magnitude 1 or more gives a float of magnitude 1 or
    more, or an infinity: never a zero and never a NaN. *)
Lemma binary_round_aux_at_least_one (s : bool) (m e : Z) (l : location) :
  0 < m -> 1 <= Zdigits2 m + e ->
  at_least_one (binary_round_aux prec emax s m e l).
Proof.
  intros Hm Hd. unfold binary_round_aux.
  destruct (shr_fexp_at_least_one m e l Hm Hd) as [Hm1 Hd1].
  destruct (shr_fexp prec emax m e l) as [mrs1 e1]. simpl in Hm1, Hd1.
  pose proof (round_nearest_even_ge (shr_m mrs1) (loc_of_shr_record mrs1)) as Hr.
  set (m2 := round_nearest_even _ _) in *.
  assert (Hm2 : 0 < m2) by lia.
  assert (Hd2 : 1 <= Zdigits2 m2 + e1).
  { pose proof (Zdigits2_mono (shr_m mrs1) m2 Hm1 (proj1 Hr)). lia. }
  destruct (shr_fexp_at_least_one m2 e1 loc_Exact Hm2 Hd2) as [Hm3 Hd3].
  destruct (shr_fexp prec emax m2 e1 loc_Exact) as [mrs3 e3]. simpl in Hm3, Hd3.
  destruct (shr_m mrs3) as [|p|p]; try lia.
  destruct (e3 <=? emax - prec); [|exact I].
  change (1 <= Zdigits2 (Zpos p) + e3). lia.
Qed.

Lemma digits2_pos_iter_xO (m d : positive) :
  Zpos (digits2_pos (Pos.iter xO m d)) = Zpos (digits2_pos m) + Zpos d.
Proof.
  induction d as [|d IH] using Pos.peano_ind.
  - simpl. lia.
  - rewrite Pos.iter_succ. simpl. lia.
Qed.

Lemma binary_round_at_least_one (s : bool) (m : positive) (e : Z) :
  1 <= Zdigits2 (Zpos m) + e -> at_least_one (binary_round prec emax s m e).
Proof.
  intros Hd. unfold binary_round, shl_align.
  destruct (fexp prec emax (Zpos (digits2_pos m) + e) - e) as [|d|d] eqn:Hsh;
    apply binary_round_aux_at_least_one; try lia; try exact Hd.
  simpl in *. rewrite digits2_pos_iter_xO. lia.
Qed.

Lemma SFmul_at_least_one (x y : spec_float) :
  at_least_one x -> at_least_one y -> at_least_one (SFmul prec emax x y).
Proof.
  destruct x as [sx|sx| |sx mx ex], y as [sy|sy| |sy my ey]; simpl; try done.
  intros Hx Hy. apply binary_round_aux_at_least_one; [lia|].
  change (Zpos (mx * my)) with (Zpos mx * Zpos my).
  rewrite Zdigits2_log2 by lia.
  change (Zpos (digits2_pos mx)) with (Zdigits2 (Zpos mx)) in Hx.
  change (Zpos (digits2_pos my)) with (Zdigits2 (Zpos my)) in Hy.
  rewrite Zdigits2_log2 in Hx, Hy by lia.
  pose proof (Z.log2_mul_below (Zpos mx) (Zpos my)). lia.
Qed.

Lemma at_least_one_not_zero (x : spec_float) : at_least_one x -> is_zero x = false.
Proof. by destruct x. Qed.

Lemma SFltb_irrefl (x : spec_float) : SFltb x x = false.
Proof.
  unfold SFltb. destruct x as [s|s| |s m e]; simpl; try reflexivity.
  - by destruct s.
  - destruct s; rewrite Z.compare_refl, Pos.compare_cont_refl; reflexivity.
Qed.

Lemma SFltb_trans (x y z : spec_float) :
  SFltb x y = true -> SFltb y z = true -> SFltb x z = true.
Proof.
  unfold SFltb.
  destruct x as [sx|sx| |sx mx ex], y as [sy|sy| |sy my ey], z as [sz|sz| |sz mz ez];
    simpl; try discriminate;
    try (destruct sx; simpl; try discriminate);
    try (destruct sy; simpl; try discriminate);
    try (destruct sz; simpl; try discriminate);
    try reflexivity.
  - destruct (Z.compare_spec ex ey), (Z.compare_spec ey ez), (Z.compare_spec ex ez);
      try discriminate; try reflexivity; try lia; subst.
    all: rewrite ?Pos.compare_cont_spec; simpl.
    all: destruct (Pos.compare_spec mx my), (Pos.compare_spec my mz), (Pos.compare_spec mx mz);
      simpl; try discriminate; try reflexivity; try lia.
  - destruct (Z.compare_spec ex ey), (Z.compare_spec ey ez), (Z.compare_spec ex ez);
      try discriminate; try reflexivity; try lia; subst.
    all: rewrite ?Pos.compare_cont_spec; simpl.
    all: destruct (Pos.compare_spec mx my), (Pos.compare_spec my mz), (Pos.compare_spec mx mz);
      simpl; try discriminate; try reflexivity; try lia.
Qed.

(** ** Python numbers *)

Lemma float_of_int_at_least_one (z : Z) (x : spec_float) :
  z <> 0 -> float_of_int z = Ok x -> at_least_one x /\ exists s m e, x = S754_finite s m e.
Proof.
  intros Hz. unfold float_of_int, binary_normalize.
  destruct z as [|p|p]; [done| |].
  - pose proof (binary_round_at_least_one false p 0) as H.
    destruct (binary_round prec emax false p 0) as [s|s| |s m e];
      intros [= <-]; (split; [apply H; simpl; lia|]); try (exfalso; apply H; simpl; lia).
    by exists s, m, e.
  - pose proof (binary_round_at_least_one true p 0) as H.
    destruct (binary_round prec emax true p 0) as [s|s| |s m e];
      intros [= <-]; (split; [apply H; simpl; lia|]); try (exfalso; apply H; simpl; lia).
    by exists s, m, e.
Qed.

Lemma float_of_int_cases (z : Z) (x : spec_float) :
  float_of_int z = Ok x ->
  (exists s, x = S754_zero s) \/ (exists s m e, x = S754_finite s m e).
Proof.
  destruct (decide (z = 0)) as [->|Hz].
  - intros [= <-]. left. by exists false.
  - intros Hx. right. by apply (float_of_int_at_least_one z x Hz).
Qed.

Lemma float_of_int_raise (z : Z) (e : exn) :
  float_of_int z = Raise e -> e = OverflowError.
Proof.
  unfold float_of_int. destruct (binary_normalize prec emax z 0 false); congruence.
Qed.

Lemma to_float_raise (a : pynum) (e : exn) :
  to_float a = Raise e -> e = OverflowError.
Proof. destruct a; simpl; [apply float_of_int_raise|discriminate]. Qed.

Lemma to_float_at_least_one (a : pynum) (x : spec_float) :
  at_least_one_num a -> to_float a = Ok x -> at_least_one x.
Proof.
  destruct a as [z|y]; simpl.
  - intros Hz Hx. by apply (float_of_int_at_least_one z x Hz).
  - by intros Hy [= <-].
Qed.

Lemma py_mul_raise (a b : pynum) (e : exn) :
  py_mul a b = Raise e -> e = OverflowError.
Proof.
  unfold py_mul. destruct a as [x|x], b as [y|y]; try discriminate; intros H.
  all: apply bind_raise_inv in H as [H|(x' & _ & H)];
    [by apply to_float_raise in H|].
  all: apply bind_raise_inv in H as [H|(y' & _ & H)];
    [by apply to_float_raise in H|discriminate].
Qed.

Lemma py_mul_at_least_one (a b c : pynum) :
  at_least_one_num a -> at_least_one_num b -> py_mul a b = Ok c -> at_least_one_num c.
Proof.
  intros Ha Hb. unfold py_mul.
  destruct a as [x|x], b as [y|y].
  - intros [= <-]. simpl in *. lia.
  - intros H. apply bind_ok_inv in H as (x' & Hx & H).
    apply bind_ok_inv in H as (y' & Hy & [= <-]). simpl.
    apply SFmul_at_least_one;
      [exact (to_float_at_least_one _ _ Ha Hx)|exact (to_float_at_least_one _ _ Hb Hy)].
  - intros H. apply bind_ok_inv in H as (x' & Hx & H).
    apply bind_ok_inv in H as (y' & Hy & [= <-]). simpl.
    apply SFmul_at_least_one;
      [exact (to_float_at_least_one _ _ Ha Hx)|exact (to_float_at_least_one _ _ Hb Hy)].
  - intros H. apply bind_ok_inv in H as (x' & Hx & H).
    apply bind_ok_inv in H as (y' & Hy & [= <-]). simpl.
    apply SFmul_at_least_one;
      [exact (to_float_at_least_one _ _ Ha Hx)|exact (to_float_at_least_one _ _ Hb Hy)].
Qed.

Lemma float_truediv_no_zero_division (x : spec_float) (b : pynum) :
  at_least_one_num b -> float_truediv x b <> Raise ZeroDivisionError.
Proof.
  intros Hb H. unfold float_truediv in H.
  apply bind_raise_inv in H as [H|(y & Hy & H)].
  - by apply to_float_raise in H.
  - rewrite (at_least_one_not_zero y) in H; [discriminate|].
    by apply (to_float_at_least_one b).
Qed.

Lemma py_min_raise (l : list spec_float) (e : exn) :
  py_min l = Raise e -> e = ValueError.
Proof. destruct l; simpl; congruence. Qed.

(** [min] returns one of the items, and no item is smaller than it. *)
Lemma py_min_minimum (l : list spec_float) (m : spec_float) :
  py_min l = Ok m -> m ∈ l /\ forall x, x ∈ l -> SFltb x m = false.
Proof.
  destruct l as [|x0 l]; simpl; [discriminate|]. intros [= <-].
  assert (Hgen : forall (seen : list spec_float) (cur : spec_float),
            cur ∈ seen -> (forall x, x ∈ seen -> SFltb x cur = false) ->
            let m := foldl (fun cur item => if SFltb item cur then item else cur) cur l in
            m ∈ seen ++ l /\ forall x, x ∈ seen ++ l -> SFltb x m = false).
  { induction l as [|y l IH]; intros seen cur Hcur Hmin; simpl.
    - by rewrite app_nil_r.
    - replace (seen ++ y :: l) with ((seen ++ [y]) ++ l) by by rewrite <- app_assoc.
      apply IH.
      + destruct (SFltb y cur); apply elem_of_app; [right; left|by left].
      + intros x Hx. apply elem_of_app in Hx as [Hx|Hx].
        * destruct (SFltb y cur) eqn:Hy; [|by apply Hmin].
          destruct (SFltb x y) eqn:Hxy; [|reflexivity].
          rewrite <- (Hmin x Hx). symmetry. by apply (SFltb_trans x y cur).
        * apply list_elem_of_singleton in Hx as ->.
          destruct (SFltb y cur) eqn:Hy; [apply SFltb_irrefl|exact Hy]. }
  apply (Hgen [x0] x0).
  - left.
  - intros x Hx. apply list_elem_of_singleton in Hx as ->. apply SFltb_irrefl.
Qed.

Lemma math_log_raise (libm_log : spec_float -> spec_float) (x : spec_float) (e : exn) :
  math_log libm_log x = Raise e -> e = ValueError.
Proof.
  unfold math_log. destruct x as [s|[]| |[] m ex]; try congruence.
  destruct (libm_log _); congruence.
Qed.

(** ** filter_ngrams: the two loops *)

Section filter_ngrams_facts.
Variable libm_log : spec_float -> spec_float.
Variable ngrams : list (odict (list N) Z).
Variable total : spec_float.
Variable min_pmi : list pynum.

(** The element expression of the source is the spec's contribution of
    a split point. *)
Lemma pmi_term_split (i : nat) (w : str) (v : Z) (j : nat) :
  pmi_term ngrams total i w v j = split_pmi ngrams total i w v j.
Proof.
  unfold pmi_term, split_pmi, count_or_total, list_at, get_or_total, slice.
  rewrite drop_0, Nat.sub_0_r.
  destruct (float_of_int v) as [fv|e]; simpl; [|reflexivity].
  destruct (ngrams !! j) as [dl|]; simpl; [|reflexivity].
  destruct (ngrams !! (i - j - 1)%nat) as [dr|]; simpl; reflexivity.
Qed.

(** The loop body adds [w] exactly when the spec's test says so, and
    raises what the test raises. *)
Lemma filter_ngrams_item_retains (i : nat) (out : gset (list N)) (w : str) (v : Z) :
  filter_ngrams_item libm_log ngrams total min_pmi i out (w, v) =
    let! keep := pmi_retains libm_log ngrams total min_pmi i w v in
    Ok (if keep then {[w]} ∪ out else out).
Proof.
  unfold filter_ngrams_item, pmi_retains, min_split_pmi.
  rewrite (mapR_ext _ (split_pmi ngrams total i w v))
    by (intros; apply pmi_term_split).
  destruct (mapR _ _) as [terms|e]; simpl; [|reflexivity].
  destruct (py_min terms) as [m|e]; simpl; [|reflexivity].
  destruct (math_log libm_log m) as [lg|e]; simpl; [|reflexivity].
  destruct (list_at min_pmi i) as [th|e]; simpl; reflexivity.
Qed.

(** The inner loop, over the items [d] of one map. *)
Lemma filter_ngrams_items_ok (i : nat) (d : odict (list N) Z) :
  forall out0 : gset (list N),
    (forall (w : list N) (v : Z), (w, v) ∈ d ->
       exists keep, pmi_retains libm_log ngrams total min_pmi i w v = Ok keep) ->
    exists out : gset (list N),
      foldR (filter_ngrams_item libm_log ngrams total min_pmi i) out0 d = Ok out.
Proof.
  induction d as [|[w v] d IH]; intros out0 Hok; cbn [foldR]; [eauto|].
  rewrite filter_ngrams_item_retains.
  destruct (Hok w v) as [keep ->]; [left|]. cbn [bind].
  apply IH. intros w' v' Hin. apply Hok. by right.
Qed.

Lemma filter_ngrams_items_spec (i : nat) (d : odict (list N) Z) :
  forall out0 out : gset (list N),
    foldR (filter_ngrams_item libm_log ngrams total min_pmi i) out0 d = Ok out ->
    (forall (w : list N) (v : Z), (w, v) ∈ d ->
       exists keep, pmi_retains libm_log ngrams total min_pmi i w v = Ok keep) /\
    (forall w : list N,
       w ∈ out <->
       w ∈ out0 \/
       exists v : Z, (w, v) ∈ d /\
                     pmi_retains libm_log ngrams total min_pmi i w v = Ok true).
Proof.
  induction d as [|[w v] d IH]; intros out0 out; cbn [foldR].
  - intros [= <-]. split.
    + intros w v Hin. by apply elem_of_nil in Hin.
    + intros w. split; [by left|]. intros [H|(v & Hin & _)]; [done|].
      by apply elem_of_nil in Hin.
  - rewrite filter_ngrams_item_retains. intros Hrun.
    apply bind_ok_inv in Hrun as (out1 & Hitem & Hrest).
    apply bind_ok_inv in Hitem as (keep & Hkeep & Hout1).
    injection Hout1 as <-.
    destruct (IH _ _ Hrest) as [Hok Hmem]. split.
    + intros w' v' Hin. apply elem_of_cons in Hin as [[= -> ->]|Hin]; eauto.
    + intros w'. rewrite Hmem. split.
      * intros [Hin|(v' & Hin & Ht)].
        -- destruct keep.
           ++ apply elem_of_union in Hin as [Hin|Hin]; [|by left].
              apply elem_of_singleton in Hin as ->.
              right. exists v. split; [left|done].
           ++ by left.
        -- right. exists v'. split; [by right|done].
      * intros [Hin|(v' & Hin & Ht)].
        -- left. destruct keep; [apply elem_of_union; by right|done].
        -- apply elem_of_cons in Hin as [[= -> ->]|Hin].
           ++ left. rewrite Ht in Hkeep. injection Hkeep as <-.
              apply elem_of_union. left. by apply elem_of_singleton.
           ++ right. eauto.
Qed.

(** The outer loop, over a list [orders] of order indices. *)
Lemma filter_ngrams_orders_ok (orders : list nat) :
  forall out0 : gset (list N),
    (forall i, i ∈ orders -> (i < length ngrams)%nat) ->
    (forall (i : nat) (d : odict (list N) Z) (w : list N) (v : Z),
       i ∈ orders -> ngrams !! i = Some d -> (w, v) ∈ d ->
       exists keep, pmi_retains libm_log ngrams total min_pmi i w v = Ok keep) ->
    exists out : gset (list N),
      foldR (filter_ngrams_order libm_log ngrams total min_pmi) out0 orders = Ok out.
Proof.
  induction orders as [|i orders IH]; intros out0 Hlt Hok; cbn [foldR]; [eauto|].
  unfold filter_ngrams_order at 1, list_at.
  destruct (lookup_lt_is_Some_2 ngrams i) as [d Hd]; [apply Hlt; left|].
  rewrite Hd. cbn [bind].
  destruct (filter_ngrams_items_ok i d out0) as [out1 ->].
  { intros w v Hin. apply (Hok i d); [left|done..]. }
  cbn [bind]. apply IH.
  - intros i' Hi'. apply Hlt. by right.
  - intros i' d' w v Hi'. apply Hok. by right.
Qed.

Lemma filter_ngrams_orders_spec (orders : list nat) :
  forall out0 out : gset (list N),
    foldR (filter_ngrams_order libm_log ngrams total min_pmi) out0 orders = Ok out ->
    (forall (i : nat) (d : odict (list N) Z) (w : list N) (v : Z),
       i ∈ orders -> ngrams !! i = Some d -> (w, v) ∈ d ->
       exists keep, pmi_retains libm_log ngrams total min_pmi i w v = Ok keep) /\
    (forall w : list N,
       w ∈ out <->
       w ∈ out0 \/
       exists (i : nat) (d : odict (list N) Z) (v : Z),
         i ∈ orders /\ ngrams !! i = Some d /\ (w, v) ∈ d /\
         pmi_retains libm_log ngrams total min_pmi i w v = Ok true).
Proof.
  induction orders as [|i orders IH]; intros out0 out; cbn [foldR].
  - intros [= <-]. split.
    + intros i d w v Hin. by apply elem_of_nil in Hin.
    + intros w. split; [by left|]. intros [H|(i & d & v & Hin & _)]; [done|].
      by apply elem_of_nil in Hin.
  - intros Hrun. apply bind_ok_inv in Hrun as (out1 & Hord & Hrest).
    unfold filter_ngrams_order, list_at in Hord.
    destruct (ngrams !! i) as [d|] eqn:Hd; simpl in Hord; [|discriminate].
    destruct (filter_ngrams_items_spec i d _ _ Hord) as [Hok1 Hmem1].
    destruct (IH _ _ Hrest) as [Hok Hmem]. split.
    + intros i' d' w v Hin Hd' Hwv.
      apply elem_of_cons in Hin as [->|Hin]; [|by eapply Hok].
      rewrite Hd in Hd'. injection Hd' as <-. by apply Hok1.
    + intros w. rewrite Hmem, Hmem1. split.
      * intros [[Hin|(v & Hin & Ht)]|(i' & d' & v & Hin & Hd' & Hwv & Ht)].
        -- by left.
        -- right. exists i, d, v. split; [left|done].
        -- right. exists i', d', v. split; [by right|done].
      * intros [Hin|(i' & d' & v & Hin & Hd' & Hwv & Ht)]; [by left; left|].
        apply elem_of_cons in Hin as [->|Hin].
        -- rewrite Hd in Hd'. injection Hd' as <-. left. right. eauto.
        -- right. exists i', d', v. done.
Qed.
End filter_ngrams_facts.

(** [range(order - 1, 0, -1)] visits the indices from [1] to [order - 1]. *)
Lemma elem_of_orders (order i : nat) :
  i ∈ rev (seq 1 (order - 1)) <-> (1 <= i < order)%nat.
Proof. rewrite list_elem_of_In, <- in_rev, in_seq. lia. Qed.

Lemma filter_ngrams_unfold (libm_log : spec_float -> spec_float)
    (ngrams : list (odict (list N) Z)) (total : Z) (min_pmi : min_pmi_arg)
    (tf : spec_float) :
  float_of_int total = Ok tf ->
  filter_ngrams libm_log ngrams total min_pmi =
    foldR (filter_ngrams_order libm_log ngrams tf (thresholds_of (length ngrams) min_pmi))
          ∅ (rev (seq 1 (length ngrams - 1))).
Proof. intros Htf. unfold filter_ngrams. rewrite Htf. reflexivity. Qed.

(** The filter returns a set as soon as [float(total)] and the test of every
    item it visits raise nothing. *)
Lemma filter_ngrams_runs (libm_log : spec_float -> spec_float)
    (ngrams : list (odict (list N) Z)) (total : Z) (min_pmi : min_pmi_arg)
    (tf : spec_float) :
  float_of_int total = Ok tf ->
  (forall (i : nat) (d : odict (list N) Z) (w : list N) (v : Z),
     (1 <= i)%nat -> ngrams !! i = Some d -> (w, v) ∈ d ->
     exists keep,
       pmi_retains libm_log ngrams tf (thresholds_of (length ngrams) min_pmi) i w v
       = Ok keep) ->
  exists out : gset (list N), filter_ngrams libm_log ngrams total min_pmi = Ok out.
Proof.
  intros Htf Hok. rewrite (filter_ngrams_unfold _ _ _ _ _ Htf).
  apply filter_ngrams_orders_ok.
  - intros i Hi. apply elem_of_orders in Hi. lia.
  - intros i d w v Hi. apply Hok. apply elem_of_orders in Hi. lia.
Qed.

(** The test of every item that a successful run has visited succeeded. *)
Lemma filter_ngrams_visited_ok (libm_log : spec_float -> spec_float)
    (ngrams : list (odict (list N) Z)) (total : Z) (min_pmi : min_pmi_arg)
    (out : gset (list N)) (tf : spec_float) :
  filter_ngrams libm_log ngrams total min_pmi = Ok out ->
  float_of_int total = Ok tf ->
  forall (i : nat) (d : odict (list N) Z) (w : list N) (v : Z),
    (1 <= i)%nat -> ngrams !! i = Some d -> (w, v) ∈ d ->
    exists keep,
      pmi_retains libm_log ngrams tf (thresholds_of (length ngrams) min_pmi) i w v
      = Ok keep.
Proof.
  intros Hrun Htf. rewrite (filter_ngrams_unfold _ _ _ _ _ Htf) in Hrun.
  apply filter_ngrams_orders_spec in Hrun as [Hok _].
  intros i d w v Hi Hd Hin. apply (Hok i d); [|done..].
  apply elem_of_orders. apply lookup_lt_Some in Hd. lia.
Qed.

(** What a set returned by the filter holds: the keys of the maps of index
    1 and above whose test succeeds. *)
Lemma filter_ngrams_membership (libm_log : spec_float -> spec_float)
    (ngrams : list (odict (list N) Z)) (total : Z) (min_pmi : min_pmi_arg)
    (out : gset (list N)) :
  filter_ngrams libm_log ngrams total min_pmi = Ok out ->
  exists tf : spec_float,
    float_of_int total = Ok tf /\
    forall w : list N,
      w ∈ out <->
      exists (i : nat) (d : odict (list N) Z) (v : Z),
        (1 <= i)%nat /\ ngrams !! i = Some d /\ (w, v) ∈ d /\
        pmi_retains libm_log ngrams tf (thresholds_of (length ngrams) min_pmi) i w v
        = Ok true.
Proof.
  intros Hrun. destruct (float_of_int total) as [tf|e] eqn:Htf.
  - exists tf. split; [reflexivity|].
    rewrite (filter_ngrams_unfold _ _ _ _ _ Htf) in Hrun.
    apply filter_ngrams_orders_spec in Hrun as [_ Hmem].
    intros w. rewrite Hmem. split.
    + intros [Hin|(i & d & v & Hi & H)]; [by apply not_elem_of_empty in Hin|].
      apply elem_of_orders in Hi. exists i, d, v. split; [lia|exact H].
    + intros (i & d & v & Hi & Hd & H). right. exists i, d, v.
      split; [|done]. apply elem_of_orders. apply lookup_lt_Some in Hd. lia.
  - unfold filter_ngrams in Hrun. rewrite Htf in Hrun. discriminate.
Qed.

Lemma example_counts_wf : count_maps_wf example_counts.
Proof.
  intros k d Hd. destruct k as [|[|k]]; simpl in Hd; [| |discriminate].
  - injection Hd as <-. split.
    + unfold odict_wf. simpl. apply NoDup_cons. split.
      * intros Hin. apply list_elem_of_singleton in Hin. discriminate.
      * apply NoDup_singleton.
    + intros w v Hin. apply elem_of_cons in Hin as [[= -> ->]|Hin]; [reflexivity|].
      apply list_elem_of_singleton in Hin as [= -> ->]. reflexivity.
  - injection Hd as <-. split.
    + unfold odict_wf. simpl. apply NoDup_singleton.
    + intros w v Hin. apply list_elem_of_singleton in Hin as [= -> ->]. reflexivity.
Defined.

(** ** filter_ngrams: the cohesion test *)

(** C2: on count maps that follow the data model, when no visited item
    raises, the filter returns a set, and a string [w] of length [i + 1]
    with count [v] in [OrderCountMap[i]], [1 <= i < order], is in that set
    if and only if the logarithm of the minimum over the split points
    [j] in [0 .. i-1] of
    [total * v / (OrderCountMap[j][w[0:j+1]] * OrderCountMap[i-j-1][w[j+1:]])],
    where an absent key counts as [total], is at least [threshold[i]].
    The minimum is one of the [i] contributions, and none is smaller. *)
Theorem filter_ngrams_pmi (libm_log : spec_float -> spec_float)
    (ngrams : list (odict (list N) Z)) (total : Z) (min_pmi : min_pmi_arg)
    (tf : spec_float) :
  float_of_int total = Ok tf ->
  count_maps_wf ngrams ->
  (forall (i : nat) (d : odict (list N) Z) (w : list N) (v : Z),
     (1 <= i)%nat -> ngrams !! i = Some d -> odict_get w d = Some v ->
     exists keep,
       pmi_retains libm_log ngrams tf (thresholds_of (length ngrams) min_pmi) i w v
       = Ok keep) ->
  (exists out : gset (list N),
     filter_ngrams libm_log ngrams total min_pmi = Ok out /\
     forall (i : nat) (d : odict (list N) Z) (w : list N) (v : Z),
       (1 <= i)%nat -> ngrams !! i = Some d -> odict_get w d = Some v ->
       (w ∈ out <->
        pmi_retains libm_log ngrams tf (thresholds_of (length ngrams) min_pmi) i w v
        = Ok true)) /\
  (forall (i : nat) (w : list N) (v : Z) (m : spec_float),
     min_split_pmi ngrams tf i w v = Ok m ->
     exists terms : list spec_float,
       mapR (split_pmi ngrams tf i w v) (seq 0 i) = Ok terms /\
       length terms = i /\
       m ∈ terms /\
       forall x : spec_float, x ∈ terms -> SFltb x m = false).
Proof.
  intros Htf Hwf Hok. split.
  - destruct (filter_ngrams_runs libm_log ngrams total min_pmi tf Htf) as [out Hrun].
    { intros i d w v Hi Hd Hin. apply (Hok i d); [done..|].
      apply odict_in_get; [|done]. by apply (Hwf i d). }
    exists out. split; [exact Hrun|].
    apply filter_ngrams_membership in Hrun as (tf' & Htf' & Hmem).
    assert (tf' = tf) as -> by congruence.
    intros i d w v Hi Hd Hget. rewrite Hmem. split.
    + intros (i' & d' & v' & Hi' & Hd' & Hin' & Ht).
      destruct (Hwf i d Hd) as [Hnd Hlen]. destruct (Hwf i' d' Hd') as [Hnd' Hlen'].
      pose proof (Hlen w v (odict_get_Some_in _ _ _ Hget)) as Hl.
      pose proof (Hlen' w v' Hin') as Hl'.
      assert (i' = i) as -> by lia.
      assert (d' = d) as -> by congruence.
      apply (odict_in_get _ _ _ Hnd) in Hin'.
      assert (v' = v) as -> by congruence. exact Ht.
    + intros Ht. exists i, d, v. repeat split; [done..| |done].
      by apply odict_get_Some_in.
  - intros i w v m Hm. unfold min_split_pmi in Hm.
    apply bind_ok_inv in Hm as (terms & Hterms & Hmin).
    exists terms. split; [exact Hterms|]. split.
    + rewrite (mapR_length _ _ _ Hterms). apply length_seq.
    + by apply py_min_minimum.
Qed.

Lemma filter_ngrams_pmi_witness :
  exists out : gset (list N),
    filter_ngrams log_at_one example_counts 5 (Iterable [PyInt 0; PyInt 0]) = Ok out /\
    py "ab" ∈ out.
Proof.
  destruct (filter_ngrams_pmi log_at_one example_counts 5 (Iterable [PyInt 0; PyInt 0])
              (S754_finite false 5629499534213120 (-50)))
    as [(out & Hrun & Hmem) _].
  - reflexivity.
  - exact example_counts_wf.
  - intros i d w v Hi Hd Hget.
    destruct i as [|[|i]]; [lia| |discriminate].
    injection Hd as <-. simpl in Hget.
    destruct (decide (w = py "ab")) as [->|Hne]; [|discriminate].
    injection Hget as <-. exists true. vm_compute. reflexivity.
  - exists out. split; [exact Hrun|].
    apply (Hmem 1%nat [(py "ab", 5)] (py "ab") 5); [lia|reflexivity|reflexivity|].
    vm_compute. reflexivity.
Defined.

(** ** filter_ngrams: unigrams *)

(** C5, as the spec has it, fails: "a" is counted in [OrderCountMap[0]] and
    is not in the set that the filter returns. *)
Lemma unigram_not_retained :
  ~ (forall (libm_log : spec_float -> spec_float) (ngrams : list (odict (list N) Z))
            (total : Z) (min_pmi : min_pmi_arg) (out : gset (list N))
            (d : odict (list N) Z) (w : list N) (v : Z),
       filter_ngrams libm_log ngrams total min_pmi = Ok out ->
       ngrams !! 0%nat = Some d -> odict_get w d = Some v -> w ∈ out).
Proof.
  intros H.
  specialize (H log_at_one example_counts 5 (Iterable [PyInt 0; PyInt 0])
                {[py "ab"]} [(py "a", 5); (py "b", 5)] (py "a") 5).
  assert (Hin : py "a" ∈ ({[py "ab"]} : gset (list N))).
  { apply H; [vm_compute; reflexivity|reflexivity|reflexivity]. }
  apply elem_of_singleton in Hin. discriminate.
Qed.

(** C5 (amended): the filter never visits [OrderCountMap[0]]: every string
    of its output is a key of some [OrderCountMap[i]] with [i >= 1], hence,
    on count maps that follow the data model, has 2 characters at least;
    no unigram is in the output set.  A one-character candidate passes the
    backward validator all the same, whatever the accepted set. *)
Theorem filter_ngrams_skips_unigrams (libm_log : spec_float -> spec_float)
    (ngrams : list (odict (list N) Z)) (total : Z) (min_pmi : min_pmi_arg)
    (out : gset (list N)) :
  filter_ngrams libm_log ngrams total min_pmi = Ok out ->
  (forall w : list N,
     w ∈ out ->
     exists (i : nat) (d : odict (list N) Z) (v : Z),
       (1 <= i)%nat /\ ngrams !! i = Some d /\ (w, v) ∈ d) /\
  (count_maps_wf ngrams -> forall w : list N, w ∈ out -> (2 <= length w)%nat) /\
  (forall (candidates : gmap (list N) Z) (order : nat) (c : list N) (n : Z),
     candidates !! c = Some n -> length c = 1%nat ->
     filter_vocab candidates out order !! c = Some n).
Proof.
  intros Hrun. apply filter_ngrams_membership in Hrun as (tf & _ & Hmem).
  assert (Hsrc : forall w : list N,
            w ∈ out ->
            exists (i : nat) (d : odict (list N) Z) (v : Z),
              (1 <= i)%nat /\ ngrams !! i = Some d /\ (w, v) ∈ d).
  { intros w Hw. apply Hmem in Hw as (i & d & v & Hi & Hd & Hin & _).
    by exists i, d, v. }
  split; [exact Hsrc|]. split.
  - intros Hwf w Hw. destruct (Hsrc w Hw) as (i & d & v & Hi & Hd & Hin).
    destruct (Hwf i d Hd) as [_ Hlen]. rewrite (Hlen w v Hin). lia.
  - intros candidates order c n Hc Hlen. rewrite filter_vocab_lookup.
    unfold retained. rewrite Hlen. exact Hc.
Qed.

Lemma filter_ngrams_skips_unigrams_witness :
  (2 <= length (py "ab"))%nat.
Proof.
  apply (filter_ngrams_skips_unigrams log_at_one example_counts 5
           (Iterable [PyInt 0; PyInt 0]) {[py "ab"]}).
  - vm_compute. reflexivity.
  - exact example_counts_wf.
  - by apply elem_of_singleton.
Defined.

(** ** filter_ngrams: a zero total *)

Section total_zero.
Variable libm_log : spec_float -> spec_float.
Variable ngrams : list (odict (list N) Z).
Variable threshold : list pynum.

(** With [total = 0.0] a contribution that does not raise is a zero. *)
Lemma split_pmi_total_zero (i : nat) (w : list N) (v : Z) (j : nat) (x : spec_float) :
  split_pmi ngrams (S754_zero false) i w v j = Ok x -> is_zero x = true.
Proof.
  unfold split_pmi, count_or_total. intros H.
  apply bind_ok_inv in H as (fv & Hfv & H).
  apply bind_ok_inv in H as (lc & Hlc & H).
  apply bind_ok_inv in H as (rc & Hrc & H).
  apply bind_ok_inv in H as (den & Hden & H).
  unfold float_truediv in H. apply bind_ok_inv in H as (y & Hy & H).
  destruct (is_zero y) eqn:Hzero; [discriminate|]. injection H as <-.
  assert (Hy' : exists s m e, y = S754_finite s m e).
  { destruct (ngrams !! j) as [dl|]; [|discriminate].
    destruct (ngrams !! (i - j - 1)%nat) as [dr|]; [|discriminate].
    injection Hlc as <-. injection Hrc as <-.
    destruct (odict_get (slice w 0 (j + 1)) dl) as [a|],
             (odict_get (drop (j + 1) w) dr) as [b|];
      simpl in Hden.
    - injection Hden as <-. simpl in Hy.
      apply float_of_int_cases in Hy as [[s ->]|Hy]; [discriminate|exact Hy].
    - apply bind_ok_inv in Hden as (fa & Hfa & [= <-]). simpl in Hy.
      injection Hy as <-.
      apply float_of_int_cases in Hfa as [[s ->]|(s & m & e & ->)]; discriminate.
    - apply bind_ok_inv in Hden as (fb & Hfb & [= <-]). simpl in Hy.
      injection Hy as <-.
      apply float_of_int_cases in Hfb as [[s ->]|(s & m & e & ->)]; discriminate.
    - injection Hden as <-. simpl in Hy. injection Hy as <-. discriminate. }
  destruct Hy' as (s & m & e & ->).
  apply float_of_int_cases in Hfv as [[sv ->]|(sv & mv & ev & ->)]; reflexivity.
Qed.

(** With [total = 0.0] the test of an item always raises. *)
Lemma pmi_retains_total_zero (i : nat) (w : list N) (v : Z) (keep : bool) :
  pmi_retains libm_log ngrams (S754_zero false) threshold i w v <> Ok keep.
Proof.
  unfold pmi_retains, min_split_pmi. intros H.
  apply bind_ok_inv in H as (m & Hm & H).
  apply bind_ok_inv in Hm as (terms & Hterms & Hmin).
  apply py_min_minimum in Hmin as [Hin _].
  destruct (mapR_ok_inv _ _ _ Hterms m Hin) as (j & _ & Hj).
  apply split_pmi_total_zero in Hj.
  destruct m; discriminate.
Qed.
End total_zero.

(** C8, as the spec has it, fails: with [total = 0] and empty maps the
    filter returns the empty set and raises nothing. *)
Lemma total_zero_no_error :
  ~ (forall (libm_log : spec_float -> spec_float) (ngrams : list (odict (list N) Z))
            (min_pmi : min_pmi_arg),
       exists e : exn, filter_ngrams libm_log ngrams 0 min_pmi = Raise e).
Proof.
  intros H.
  destruct (H log_at_one [[]; []] (Iterable [PyInt 0; PyInt 2])) as [e He].
  vm_compute in He. discriminate.
Qed.

(** C8 (amended): with [total = 0] the filter does not fail by itself.
    When the maps of index 1 and above are empty, as when no record passed
    [min_count], it raises nothing and returns the empty set; and this is
    the only set it can return, since the score of any item it visits
    raises an arithmetic exception. *)
Theorem filter_ngrams_total_zero (libm_log : spec_float -> spec_float)
    (ngrams : list (odict (list N) Z)) (min_pmi : min_pmi_arg) :
  ((forall (i : nat) (d : odict (list N) Z),
      (1 <= i)%nat -> ngrams !! i = Some d -> d = []) ->
   filter_ngrams libm_log ngrams 0 min_pmi = Ok ∅) /\
  (forall out : gset (list N),
     filter_ngrams libm_log ngrams 0 min_pmi = Ok out ->
     out = ∅ /\
     forall (i : nat) (d : odict (list N) Z),
       (1 <= i)%nat -> ngrams !! i = Some d -> d = []).
Proof.
  assert (Hconv : forall out : gset (list N),
            filter_ngrams libm_log ngrams 0 min_pmi = Ok out ->
            forall (i : nat) (d : odict (list N) Z),
              (1 <= i)%nat -> ngrams !! i = Some d -> d = []).
  { intros out Hrun i d Hi Hd. destruct d as [|[w v] d]; [reflexivity|].
    destruct (filter_ngrams_visited_ok _ _ _ _ _ (S754_zero false) Hrun eq_refl
                i _ w v Hi Hd) as [keep Hkeep]; [left|].
    by apply pmi_retains_total_zero in Hkeep. }
  assert (Hempty : forall out : gset (list N),
            (forall (i : nat) (d : odict (list N) Z),
               (1 <= i)%nat -> ngrams !! i = Some d -> d = []) ->
            filter_ngrams libm_log ngrams 0 min_pmi = Ok out -> out = ∅).
  { intros out Hnil Hrun. apply set_eq. intros w.
    split; [|intros H; by apply not_elem_of_empty in H].
    intros Hw. apply filter_ngrams_membership in Hrun as (tf & _ & Hmem).
    apply Hmem in Hw as (i & d & v & Hi & Hd & Hin & _).
    rewrite (Hnil i d Hi Hd) in Hin. by apply elem_of_nil in Hin. }
  split.
  - intros Hnil.
    destruct (filter_ngrams_runs libm_log ngrams 0 min_pmi (S754_zero false) eq_refl)
      as [out Hrun].
    { intros i d w v Hi Hd Hin. rewrite (Hnil i d Hi Hd) in Hin.
      by apply elem_of_nil in Hin. }
    rewrite Hrun. f_equal. by apply Hempty.
  - intros out Hrun. split; [|by apply (Hconv out)].
    apply Hempty; [by apply (Hconv out)|exact Hrun].
Qed.

Lemma filter_ngrams_total_zero_witness :
  filter_ngrams log_at_one [[]; []] 0 (Iterable [PyInt 0; PyInt 2]) = Ok ∅.
Proof.
  apply (filter_ngrams_total_zero log_at_one [[]; []] (Iterable [PyInt 0; PyInt 2])).
  intros i d Hi Hd. destruct i as [|[|i]]; [lia| |discriminate].
  by injection Hd as <-.
Defined.

(** ** filter_ngrams: division by zero *)

Section no_zero_division.
Variable libm_log : spec_float -> spec_float.
Variable ngrams : list (odict (list N) Z).
Variable total : spec_float.

Hypothesis total_at_least_one : at_least_one total.
Hypothesis counts_nonzero :
  forall (k : nat) (d : odict (list N) Z) (key : list N) (count : Z),
    ngrams !! k = Some d -> odict_get key d = Some count -> count <> 0.

Lemma get_or_total_at_least_one (k : nat) (d : odict (list N) Z) (key : list N) :
  ngrams !! k = Some d -> at_least_one_num (get_or_total d key total).
Proof.
  intros Hd. unfold get_or_total.
  destruct (odict_get key d) as [count|] eqn:Hget; simpl.
  - by apply (counts_nonzero k d key).
  - exact total_at_least_one.
Qed.

Lemma pmi_term_no_zero_division (i : nat) (w : list N) (v : Z) (j : nat) :
  pmi_term ngrams total i w v j <> Raise ZeroDivisionError.
Proof.
  intros H. unfold pmi_term in H.
  apply bind_raise_inv in H as [H|(fv & _ & H)];
    [by apply float_of_int_raise in H|].
  apply bind_raise_inv in H as [H|(dl & Hdl & H)];
    [by apply list_at_raise in H|].
  apply bind_raise_inv in H as [H|(dr & Hdr & H)];
    [by apply list_at_raise in H|].
  apply bind_raise_inv in H as [H|(den & Hden & H)];
    [by apply py_mul_raise in H|].
  unfold list_at in Hdl, Hdr.
  destruct (ngrams !! j) as [dl'|] eqn:Hj; [|discriminate].
  destruct (ngrams !! (i - j - 1)%nat) as [dr'|] eqn:Hij; [|discriminate].
  injection Hdl as ->. injection Hdr as ->.
  revert H. apply float_truediv_no_zero_division.
  eapply py_mul_at_least_one; [| |exact Hden]; by eapply get_or_total_at_least_one.
Qed.

Lemma filter_ngrams_item_no_zero_division (min_pmi : list pynum) (i : nat)
    (out : gset (list N)) (item : list N * Z) :
  filter_ngrams_item libm_log ngrams total min_pmi i out item
  <> Raise ZeroDivisionError.
Proof.
  destruct item as [w v]. intros H. unfold filter_ngrams_item in H.
  apply bind_raise_inv in H as [H|(terms & _ & H)].
  { apply mapR_raise_inv in H as (j & _ & H).
    by apply pmi_term_no_zero_division in H. }
  apply bind_raise_inv in H as [H|(m & _ & H)];
    [by apply py_min_raise in H|].
  apply bind_raise_inv in H as [H|(lg & _ & H)];
    [by apply math_log_raise in H|].
  apply bind_raise_inv in H as [H|(th & _ & H)];
    [by apply list_at_raise in H|discriminate].
Qed.

Lemma filter_ngrams_order_no_zero_division (min_pmi : list pynum)
    (out : gset (list N)) (i : nat) :
  filter_ngrams_order libm_log ngrams total min_pmi out i
  <> Raise ZeroDivisionError.
Proof.
  intros H. unfold filter_ngrams_order in H.
  apply bind_raise_inv in H as [H|(d & _ & H)];
    [by apply list_at_raise in H|].
  apply foldR_raise_inv in H as (out' & item & _ & H).
  by apply filter_ngrams_item_no_zero_division in H.
Qed.
End no_zero_division.

(** The decoder itself produces count maps with a zero in them. *)
Lemma read_ngrams_zero_count :
  read_ngrams LittleEndian example_chars 2 0 zero_count_file
  = Some (Ok (Counts zero_count_maps 3)).
Proof. vm_compute. reflexivity. Qed.

(** C9, as the spec has it, fails: [total] is 3 and the count of "a" is 0,
    so the denominator of "ab" is zero. *)
Lemma zero_count_divides_by_zero :
  ~ (forall (libm_log : spec_float -> spec_float) (ngrams : list (odict (list N) Z))
            (total : Z) (min_pmi : min_pmi_arg),
       0 < total ->
       filter_ngrams libm_log ngrams total min_pmi <> Raise ZeroDivisionError).
Proof.
  intros H.
  apply (H log_at_one zero_count_maps 3 (Iterable [PyInt 0; PyInt 2])); [lia|].
  vm_compute. reflexivity.
Qed.

(** C9 (amended): when [total] is not zero and no count stored in the maps
    is zero, no division of the filter is by zero: a factor of the
    denominator is a stored count or, for an absent key, [total], and the
    product of two such factors is not zero; so neither a term of the
    comprehension nor the filter as a whole raises [ZeroDivisionError]. *)
Theorem filter_ngrams_no_zero_division (libm_log : spec_float -> spec_float)
    (ngrams : list (odict (list N) Z)) (total : Z) (min_pmi : min_pmi_arg) :
  total <> 0 ->
  (forall (k : nat) (d : odict (list N) Z) (key : list N) (count : Z),
     ngrams !! k = Some d -> odict_get key d = Some count -> count <> 0) ->
  filter_ngrams libm_log ngrams total min_pmi <> Raise ZeroDivisionError /\
  (forall (tf : spec_float) (d : odict (list N) Z) (key : list N),
     odict_get key d = None -> get_or_total d key tf = PyFloat tf) /\
  (forall (tf : spec_float) (i : nat) (w : list N) (v : Z) (j : nat),
     float_of_int total = Ok tf ->
     pmi_term ngrams tf i w v j <> Raise ZeroDivisionError).
Proof.
  intros Htotal Hcounts. split; [|split].
  - intros H. unfold filter_ngrams in H.
    apply bind_raise_inv in H as [H|(tf & Htf & H)];
      [by apply float_of_int_raise in H|].
    apply foldR_raise_inv in H as (out & i & _ & H).
    revert H. apply filter_ngrams_order_no_zero_division; [|exact Hcounts].
    by apply (float_of_int_at_least_one total tf Htotal).
  - intros tf d key Hnone. unfold get_or_total. by rewrite Hnone.
  - intros tf i w v j Htf. apply pmi_term_no_zero_division; [|exact Hcounts].
    by apply (float_of_int_at_least_one total tf Htotal).
Qed.

Lemma filter_ngrams_no_zero_division_witness :
  filter_ngrams log_at_one example_counts 5 (Iterable [PyInt 0; PyInt 0])
  <> Raise ZeroDivisionError.
Proof.
  apply (filter_ngrams_no_zero_division log_at_one example_counts 5
           (Iterable [PyInt 0; PyInt 0])).
  - lia.
  - intros k d key count Hd Hget.
    destruct k as [|[|k]]; simpl in Hd; [| |discriminate]; injection Hd as <-;
      simpl in Hget; repeat case_decide; simplify_eq; lia.
Defined.

(** * The rest of the program *)

(** ** SimpleTrie: insertion and lookup *)

Lemma stored_empty (w : str) : stored (Dic None ∅) w = None.
Proof. destruct w as [|c w]; unfold stored; simpl; [reflexivity|]. by rewrite lookup_empty. Qed.

Lemma stored_cons (d : dic) (c : N) (w : str) :
  stored d (c :: w) = match sub d !! c with Some d' => stored d' w | None => None end.
Proof. unfold stored. simpl. by destruct (sub d !! c). Qed.

(** The word is found at the end of its own path. *)
Lemma stored_add_word_from_eq (rest : str) :
  forall (d : dic) (word : str), stored (add_word_from d rest word) rest = Some word.
Proof.
  induction rest as [|c rest IH]; intros d word.
  - reflexivity.
  - simpl add_word_from. rewrite stored_cons. simpl. rewrite lookup_insert_eq. apply IH.
Qed.

(** Nothing else changes. *)
Lemma stored_add_word_from_ne (rest : str) :
  forall (d : dic) (word w : str),
    w <> rest -> stored (add_word_from d rest word) w = stored d w.
Proof.
  induction rest as [|c rest IH]; intros d word w Hne.
  - destruct w as [|c' w]; [done|]. simpl add_word_from. by rewrite !stored_cons.
  - destruct w as [|c' w]; [reflexivity|].
    simpl add_word_from. rewrite !stored_cons. simpl.
    destruct (decide (c = c')) as [->|Hc].
    + rewrite lookup_insert_eq. rewrite IH by congruence.
      destruct (sub d !! c') as [d'|]; simpl; [reflexivity|apply stored_empty].
    + by rewrite lookup_insert_ne.
Qed.

Lemma stored_foldl_add_word (words : list (list N)) :
  forall (d : dic) (w : str),
    stored (foldl add_word d words) w =
      if decide (w ∈ words) then Some w else stored d w.
Proof.
  induction words as [|w0 words IH]; intros d w; cbn [foldl].
  - rewrite decide_False; [reflexivity|apply not_elem_of_nil].
  - rewrite IH. destruct (decide (w ∈ words)) as [Hin|Hnotin].
    + rewrite decide_True; [reflexivity|by right].
    + destruct (decide (w = w0)) as [->|Hne].
      * rewrite decide_True by left. apply stored_add_word_from_eq.
      * rewrite decide_False by (intros [?|?]%elem_of_cons; done).
        unfold add_word. by apply stored_add_word_from_ne.
Qed.

(** Looking a string up in the trie built from [words] gives the string
    itself when it is one of the words, and nothing otherwise. *)
Lemma stored_trie_of (words : list (list N)) (w : list N) :
  stored (trie_of words) w = if decide (w ∈ words) then Some w else None.
Proof.
  unfold trie_of. rewrite stored_foldl_add_word.
  destruct (decide (w ∈ words)); [reflexivity|apply stored_empty].
Qed.

(** ** SimpleTrie: the order of the insertions *)

Lemma add_word_from_comm (r1 : str) :
  forall (r2 : str) (d : dic) (w1 w2 : str),
    (r1 = r2 -> w1 = w2) ->
    add_word_from (add_word_from d r1 w1) r2 w2
    = add_word_from (add_word_from d r2 w2) r1 w1.
Proof.
  induction r1 as [|c1 r1 IH]; intros [|c2 r2] d w1 w2 Hsame; simpl.
  - by rewrite Hsame.
  - reflexivity.
  - reflexivity.
  - destruct (decide (c1 = c2)) as [->|Hc].
    + rewrite !lookup_insert_eq, !insert_insert_eq. simpl.
      f_equal. f_equal. apply IH. intros ->. by apply Hsame.
    + rewrite !lookup_insert_ne by done. f_equal. by apply insert_insert_ne.
Qed.

Lemma add_word_comm (d : dic) (w1 w2 : str) :
  add_word (add_word d w1) w2 = add_word (add_word d w2) w1.
Proof. unfold add_word. by apply add_word_from_comm. Qed.

Lemma add_word_from_idemp (rest : str) :
  forall (d : dic) (word : str),
    add_word_from (add_word_from d rest word) rest word = add_word_from d rest word.
Proof.
  induction rest as [|c rest IH]; intros d word; simpl; [reflexivity|].
  rewrite lookup_insert_eq, insert_insert_eq. simpl. by rewrite IH.
Qed.

Lemma foldl_add_word_comm (words : list (list N)) :
  forall (d : dic) (w : str),
    foldl add_word (add_word d w) words = add_word (foldl add_word d words) w.
Proof.
  induction words as [|w0 words IH]; intros d w; simpl; [reflexivity|].
  by rewrite <- IH, (add_word_comm d w w0).
Qed.

(** The trie does not depend on the order in which the words are inserted
    (they come out of a [set]), and inserting a word a second time changes
    nothing. *)
Theorem trie_of_order_irrelevant (words words' : list (list N)) (w : list N) :
  (words ≡ₚ words' -> trie_of words = trie_of words') /\
  add_word (add_word (trie_of words) w) w = add_word (trie_of words) w.
Proof.
  split.
  - unfold trie_of. generalize SimpleTrie_init.
    intros d Hperm. revert d.
    induction Hperm as [|x l l' _ IH|x y l|l l' l'' _ IH1 _ IH2]; intros d; simpl.
    + reflexivity.
    + apply IH.
    + by rewrite (add_word_comm d y x).
    + by rewrite IH1.
  - apply add_word_from_idemp.
Qed.

Lemma trie_of_order_irrelevant_witness :
  trie_of [py "the"; py "there"; py "here"] = trie_of [py "here"; py "the"; py "there"].
Proof.
  refine (proj1 (trie_of_order_irrelevant [py "the"; py "there"; py "here"]
                   [py "here"; py "the"; py "there"] (py "the")) _).
  symmetry. apply (Permutation_cons_append [py "the"; py "there"] (py "here")).
Defined.

(** ** SimpleTrie.tokenize: what the fragments cover *)

(** The scan goes at least as far as the end of every stored word that
    starts where it starts. *)
Lemma scan_reaches (rest : str) :
  forall (d : dic) (pos e k : nat),
    (1 <= k <= length rest)%nat ->
    is_Some (stored d (take k rest)) ->
    (pos + k <= scan d rest pos e)%nat.
Proof.
  induction rest as [|c rest IH]; intros d pos e k Hk Hst; simpl in Hk; [lia|].
  destruct k as [|k]; [lia|].
  change (take (S k) (c :: rest)) with (c :: take k rest) in Hst.
  rewrite stored_cons in Hst. cbn [scan].
  destruct (sub d !! c) as [d1|]; [|by destruct Hst].
  set (e' := match end_word d1 with
             | Some _ => if (e <? pos + 1)%nat then (pos + 1)%nat else e
             | None => e
             end).
  destruct k as [|k].
  - destruct Hst as [v Hv]. unfold stored in Hv. simpl in Hv.
    assert (pos + 1 <= e')%nat.
    { subst e'. rewrite Hv. destruct (Nat.ltb_spec e (pos + 1)); lia. }
    pose proof (scan_bounds rest d1 (S pos) e'). lia.
  - pose proof (IH d1 (S pos) e' (S k) ltac:(lia) Hst). lia.
Qed.

(** When the scan moves [end], it moves it to the end of a stored word. *)
Lemma scan_moves (rest : str) :
  forall (d : dic) (pos e : nat),
    scan d rest pos e = e \/
    exists k : nat,
      (1 <= k <= length rest)%nat /\
      scan d rest pos e = (pos + k)%nat /\
      (e < pos + k)%nat /\
      is_Some (stored d (take k rest)).
Proof.
  induction rest as [|c rest IH]; intros d pos e; simpl; [by left|].
  destruct (sub d !! c) as [d1|] eqn:Hc; [|by left].
  assert (Hcons : forall k, stored d (take (S k) (c :: rest)) = stored d1 (take k rest)).
  { intros k. simpl. by rewrite stored_cons, Hc. }
  destruct (end_word d1) as [v|] eqn:Hv.
  - destruct (Nat.ltb_spec e (pos + 1)) as [Hlt|Hge].
    + destruct (IH d1 (S pos) (pos + 1)%nat) as [Heq|(k & Hk & Heq & Hlt' & Hst)].
      * right. exists 1%nat. rewrite Heq. repeat split; try lia.
        rewrite Hcons. unfold stored. simpl. by rewrite Hv.
      * right. exists (S k). rewrite Heq, Hcons. repeat split; try lia. exact Hst.
    + destruct (IH d1 (S pos) e) as [Heq|(k & Hk & Heq & Hlt' & Hst)]; [by left|].
      right. exists (S k). rewrite Heq, Hcons. repeat split; try lia. exact Hst.
  - destruct (IH d1 (S pos) e) as [Heq|(k & Hk & Heq & Hlt' & Hst)]; [by left|].
    right. exists (S k). rewrite Heq, Hcons. repeat split; try lia. exact Hst.
Qed.

Lemma slice_drop_take {A} (s : list A) (i k : nat) :
  take k (drop i s) = slice s i (i + k).
Proof. unfold slice. f_equal. lia. Qed.

Lemma take_slice {A} (s : list A) (a b k : nat) :
  (k <= b - a)%nat -> take k (slice s a b) = slice s a (a + k).
Proof.
  intros Hk. unfold slice. rewrite take_take. f_equal. lia.
Qed.

Lemma drop_slice {A} (s : list A) (a b q : nat) :
  drop q (slice s a b) = slice s (a + q) b.
Proof.
  unfold slice. rewrite skipn_firstn_comm, drop_drop. f_equal. lia.
Qed.

Lemma tok_inv_start (sent : str) (i : nat) (st : tok_state) :
  tok_inv sent i st -> length (concat (tok_result st)) = tok_start st.
Proof.
  intros [Hw Hlo Hup Hcat Hne]. rewrite Hcat, length_take. lia.
Qed.

(** The window that is closed is backed, and its end cuts no stored word. *)
Lemma tokenize_step_cover (root : dic) (sent : str) (i : nat) (st : tok_state) :
  (i < length sent)%nat ->
  tok_inv sent i st -> tok_cover root sent i st ->
  tok_cover root sent (S i) (tokenize_step root sent st i).
Proof.
  intros Hi Hinv [Hst Hwin Hbnd Hback Hfr].
  pose proof (tok_inv_start _ _ _ Hinv) as Hlen.
  destruct Hinv as [Hw Hlo Hup Hcat Hne].
  unfold tokenize_step.
  destruct (Nat.eqb_spec i (tok_end st)) as [Heq|Hneq]; simpl.
  - (* the window [start, end) is emitted and a new one opens at [i] *)
    pose proof (scan_bounds (drop i sent) root i (i + 1)) as Hsb.
    pose proof (scan_moves (drop i sent) root i (i + 1)) as Hsm.
    rewrite length_drop in Hsb, Hsm.
    assert (Hcut : uncut root sent i).
    { intros p k Hpk Hword Hcut.
      destruct (decide (tok_start st <= p)%nat) as [Hp|Hp].
      - pose proof (Hwin p k ltac:(lia) ltac:(lia) Hpk Hword). lia.
      - destruct (tok_result st) as [|f fs] eqn:Hres.
        + simpl in Hlen. lia.
        + apply (Hbnd (length (f :: fs)) ltac:(simpl; lia) p k Hpk Hword).
          rewrite firstn_all, Hlen. lia. }
    split; simpl.
    + lia.
    + intros p k Hp Hk Hpk Hword. assert (p = i) as -> by lia.
      apply scan_reaches; [rewrite length_drop; lia|].
      by rewrite slice_drop_take.
    + intros j Hj. rewrite length_app in Hj. simpl in Hj.
      destruct (decide (j <= length (tok_result st))%nat) as [Hle|Hgt].
      * rewrite take_app_le by done. apply Hbnd. lia.
      * rewrite take_ge by (rewrite length_app; simpl; lia).
        rewrite concat_app, length_app, Hlen. simpl. rewrite app_nil_r, slice_length.
        replace (tok_start st + (tok_end st - tok_start st) `min`
                   (length sent - tok_start st))%nat with i by lia.
        exact Hcut.
    + destruct Hsm as [Heq'|(k & Hk & Heq' & Hlt & Hword)]; [left; lia|].
      right. rewrite Heq'. rewrite slice_drop_take in Hword. split.
      * exists k. split; [lia|exact Hword].
      * exists i. split; [lia|exact Hword].
    + apply Forall_app. split; [exact Hfr|]. apply Forall_singleton.
      destruct Hback as [Hone|[(k & Hk & Hpre) (p & Hp & Hsuf)]].
      * left. rewrite slice_length. lia.
      * right. split.
        -- exists k. rewrite slice_length. split; [lia|].
           by rewrite take_slice by lia.
        -- exists (p - tok_start st)%nat. rewrite slice_length. split; [lia|].
           rewrite drop_slice.
           by replace (tok_start st + (p - tok_start st))%nat with p by lia.
  - (* the window stays open *)
    pose proof (scan_bounds (drop i sent) root i (tok_end st)) as Hsb.
    pose proof (scan_moves (drop i sent) root i (tok_end st)) as Hsm.
    rewrite length_drop in Hsb, Hsm.
    split; simpl.
    + lia.
    + intros p k Hp Hk Hpk Hword.
      destruct (decide (p = i)) as [->|Hpi].
      * apply scan_reaches; [rewrite length_drop; lia|].
        by rewrite slice_drop_take.
      * pose proof (Hwin p k ltac:(lia) ltac:(lia) Hpk Hword). lia.
    + exact Hbnd.
    + destruct Hsm as [Heq'|(k & Hk & Heq' & Hlt & Hword)].
      * rewrite Heq'. exact Hback.
      * right. rewrite Heq'. rewrite slice_drop_take in Hword.
        split; [|exists i; split; [lia|exact Hword]].
        destruct Hback as [Hone|[(k0 & Hk0 & Hpre) _]].
        -- assert (i = tok_start st) as Hi0 by lia.
           exists k. split; [lia|]. by rewrite <- Hi0.
        -- exists k0. split; [lia|exact Hpre].
    + exact Hfr.
Qed.

Lemma tokenize_loop_cover (root : dic) (sent : str) (n : nat) :
  forall (a : nat) (st : tok_state),
    (a + n <= length sent)%nat ->
    tok_inv sent a st -> tok_cover root sent a st ->
    tok_cover root sent (a + n) (foldl (tokenize_step root sent) st (seq a n)).
Proof.
  induction n as [|n IH]; intros a st Hlen Hinv Hcov; simpl.
  - by replace (a + 0)%nat with a by lia.
  - replace (a + S n)%nat with (S a + n)%nat by lia.
    apply IH; [lia| |].
    + apply tokenize_step_inv; [lia|done].
    + apply tokenize_step_cover; [lia|done..].
Qed.

(** The state in which the loop of [tokenize] ends on a non-empty sentence. *)
Lemma tokenize_final (root : dic) (sent : str) :
  sent <> [] ->
  let st := foldl (tokenize_step root sent) (TokState [] 0 1) (seq 0 (length sent)) in
  tok_inv sent (length sent) st /\ tok_cover root sent (length sent) st.
Proof.
  intros Hne. simpl.
  assert (Hlen : (1 <= length sent)%nat).
  { destruct sent; [done|simpl; lia]. }
  assert (Hinv0 : tok_inv sent 0 (TokState [] 0 1)).
  { split; simpl; try lia; done. }
  split.
  - apply (tokenize_loop_inv root sent (length sent) 0); [lia|exact Hinv0].
  - apply (tokenize_loop_cover root sent (length sent) 0); [lia|exact Hinv0|].
    split; simpl.
    + lia.
    + intros p k Hp. lia.
    + intros j Hj. lia.
    + by left.
    + constructor.
Qed.

Lemma window_backed (root : dic) (sent : str) (i : nat) (st : tok_state) :
  tok_inv sent i st -> tok_cover root sent i st ->
  backed root (slice sent (tok_start st) (tok_end st)).
Proof.
  intros [Hw Hlo Hup Hcat Hne] [Hst Hwin Hbnd Hback Hfr].
  destruct Hback as [Hone|[(k & Hk & Hpre) (p & Hp & Hsuf)]].
  - left. rewrite slice_length. lia.
  - right. split.
    + exists k. rewrite slice_length. split; [lia|].
      by rewrite take_slice by lia.
    + exists (p - tok_start st)%nat. rewrite slice_length. split; [lia|].
      rewrite drop_slice.
      by replace (tok_start st + (p - tok_start st))%nat with p by lia.
Qed.

(** The result of [tokenize] on a non-empty sentence, with what the loop
    has established. *)
Lemma tokenize_fragments (root : dic) (sent : str) :
  sent <> [] ->
  exists st : tok_state,
    tokenize root sent = tok_result st ++ [slice sent (tok_start st) (length sent)] /\
    tok_end st = length sent /\
    tok_inv sent (length sent) st /\ tok_cover root sent (length sent) st.
Proof.
  intros Hne. destruct (tokenize_final root sent Hne) as [Hinv Hcov].
  eexists. split; [|split; [|split; [exact Hinv|exact Hcov]]].
  - unfold tokenize. f_equal. f_equal. f_equal.
    destruct Hinv as [Hw Hlo Hup Hcat Hnem]. lia.
  - destruct Hinv as [Hw Hlo Hup Hcat Hnem]. lia.
Qed.

Lemma tokenize_nil (root : dic) : tokenize root [] = [[]].
Proof. reflexivity. Qed.

Lemma slice_eq_bound {A} (s w : list A) (p : nat) :
  w <> [] -> slice s p (p + length w) = w -> (p + length w <= length s)%nat.
Proof.
  intros Hne Heq. apply (f_equal length) in Heq. rewrite slice_length in Heq.
  destruct w; [done|]. simpl in *. lia.
Qed.

(** No fragment boundary falls inside an occurrence of a trie word: if the
    fragments are split in two non-empty runs anywhere, the cut does not
    lie strictly inside any occurrence in the sentence of any inserted
    word. *)
Theorem tokenize_never_cuts_a_word (words : list (list N)) (sent : list N)
    (before after : list (list N)) (p : nat) (w : list N) :
  tokenize (trie_of words) sent = before ++ after ->
  before <> [] -> after <> [] ->
  w ∈ words ->
  slice sent p (p + length w) = w ->
  ~ (p < length (concat before) < p + length w)%nat.
Proof.
  intros Htok Hb Ha Hw Hocc Hcut.
  destruct (decide (sent = [])) as [->|Hne].
  { rewrite tokenize_nil in Htok.
    destruct before as [|b1 before]; [done|]. destruct after as [|a1 after]; [done|].
    apply (f_equal length) in Htok. simpl in Htok. rewrite length_app in Htok.
    simpl in Htok. lia. }
  destruct (tokenize_fragments (trie_of words) sent Hne)
    as (st & Heq & Hend & Hinv & Hcov).
  rewrite Heq in Htok.
  assert (Hlen : (length before <= length (tok_result st))%nat).
  { apply (f_equal length) in Htok. rewrite !length_app in Htok. simpl in Htok.
    destruct after; [done|]. simpl in Htok. lia. }
  assert (Hbefore : before = take (length before) (tok_result st)).
  { apply (f_equal (take (length before))) in Htok.
    rewrite take_app_le in Htok by done.
    rewrite take_app_length in Htok. done. }
  destruct Hcov as [_ _ Hbnd _ _].
  assert (Hwne : w <> []).
  { intros ->. simpl in Hcut. lia. }
  apply (Hbnd (length before)) with (p := p) (k := length w).
  - destruct before; [done|]. simpl. split; [lia|]. exact Hlen.
  - by apply slice_eq_bound.
  - rewrite Hocc, stored_trie_of. by rewrite decide_True.
  - by rewrite <- Hbefore.
Qed.

Lemma tokenize_never_cuts_a_word_witness :
  ~ (1 < length (concat [py "there"]) < 1 + length (py "here"))%nat.
Proof.
  apply (tokenize_never_cuts_a_word [py "the"; py "there"; py "here"]
           (py "thereby") [py "there"] [py "b"; py "y"] 1 (py "here")).
  - vm_compute. reflexivity.
  - discriminate.
  - discriminate.
  - right. right. left.
  - reflexivity.
Defined.

Lemma stored_trie_of_elem (words : list (list N)) (w : list N) :
  is_Some (stored (trie_of words) w) -> w ∈ words.
Proof.
  rewrite stored_trie_of. destruct (decide (w ∈ words)); [done|].
  intros [? ?]. discriminate.
Qed.

Lemma tokenize_fragment_backed_prefix (words : list (list N)) (sent frag : list N) :
  frag ∈ tokenize (trie_of words) sent ->
  (2 <= length frag)%nat ->
  exists w : list N, w ∈ words /\ (2 <= length w)%nat /\ w `prefix_of` frag.
Proof.
  intros Hin Hlen.
  destruct (decide (sent = [])) as [->|Hne].
  { rewrite tokenize_nil in Hin. apply list_elem_of_singleton in Hin as ->.
    simpl in Hlen. lia. }
  destruct (tokenize_fragments (trie_of words) sent Hne)
    as (st & Heq & Hend & Hinv & Hcov).
  assert (Hback : backed (trie_of words) frag).
  { rewrite Heq in Hin. apply elem_of_app in Hin as [Hin|Hin].
    - destruct Hcov as [_ _ _ _ Hfr]. rewrite Forall_forall in Hfr. by apply Hfr.
    - apply list_elem_of_singleton in Hin as ->. rewrite <- Hend.
      by apply (window_backed _ _ (length sent)). }
  destruct Hback as [Hone|[(k & Hk & Hpre) _]]; [lia|].
  exists (take k frag). split; [by apply stored_trie_of_elem|].
  split; [rewrite length_take; lia|]. exists (drop k frag). by rewrite take_drop.
Qed.

(** A fragment of two characters or more is never an accident: it begins
    with an inserted word of two characters or more and it ends with an
    inserted word. *)
Theorem tokenize_fragment_backed (words : list (list N)) (sent frag : list N) :
  frag ∈ tokenize (trie_of words) sent ->
  (2 <= length frag)%nat ->
  (exists w : list N, w ∈ words /\ (2 <= length w)%nat /\ w `prefix_of` frag) /\
  (exists w : list N, w ∈ words /\ w <> [] /\ w `suffix_of` frag).
Proof.
  intros Hin Hlen.
  destruct (decide (sent = [])) as [->|Hne].
  { rewrite tokenize_nil in Hin. apply list_elem_of_singleton in Hin as ->.
    simpl in Hlen. lia. }
  destruct (tokenize_fragments (trie_of words) sent Hne)
    as (st & Heq & Hend & Hinv & Hcov).
  assert (Hback : backed (trie_of words) frag).
  { rewrite Heq in Hin. apply elem_of_app in Hin as [Hin|Hin].
    - destruct Hcov as [_ _ _ _ Hfr]. rewrite Forall_forall in Hfr. by apply Hfr.
    - apply list_elem_of_singleton in Hin as ->. rewrite <- Hend.
      by apply (window_backed _ _ (length sent)). }
  destruct Hback as [Hone|[(k & Hk & Hpre) (p & Hp & Hsuf)]]; [lia|].
  split.
  - exists (take k frag). split; [by apply stored_trie_of_elem|].
    split; [rewrite length_take; lia|]. exists (drop k frag). by rewrite take_drop.
  - exists (drop p frag). split; [by apply stored_trie_of_elem|]. split.
    + intros Hnil. apply (f_equal length) in Hnil. rewrite length_drop in Hnil.
      simpl in Hnil. lia.
    + exists (take p frag). by rewrite take_drop.
Qed.

Lemma tokenize_fragment_backed_witness :
  (exists w : list N,
     w ∈ [py "the"; py "there"] /\ (2 <= length w)%nat /\ w `prefix_of` py "there") /\
  (exists w : list N,
     w ∈ [py "the"; py "there"] /\ w <> [] /\ w `suffix_of` py "there").
Proof.
  apply (tokenize_fragment_backed [py "the"; py "there"] (py "thereby") (py "there")).
  - vm_compute. left.
  - simpl. lia.
Defined.

(** Insertion and tokenization round trip: a sentence that is one of the
    inserted words comes back as a single fragment. *)
Theorem tokenize_inserted_word (words : list (list N)) (w : list N) :
  w ∈ words -> w <> [] -> tokenize (trie_of words) w = [w].
Proof.
  intros Hw Hne.
  destruct (tokenize_fragments (trie_of words) w Hne)
    as (st & Heq & Hend & Hinv & Hcov).
  rewrite Heq.
  pose proof (tok_inv_start _ _ _ Hinv) as Hstart.
  destruct Hinv as [Hwin Hlo Hup Hcat Hnem].
  destruct (tok_result st) as [|f fs] eqn:Hres.
  - simpl in Hstart. rewrite <- Hstart. simpl. f_equal.
    unfold slice. rewrite drop_0, Nat.sub_0_r. apply take_ge. lia.
  - exfalso. destruct Hcov as [_ _ Hbnd _ _]. rewrite Hres in Hbnd.
    apply (Hbnd 1%nat ltac:(simpl; lia) 0%nat (length w) ltac:(lia)).
    + unfold slice. rewrite drop_0, Nat.sub_0_r, take_ge by lia.
      rewrite stored_trie_of. by rewrite decide_True.
    + simpl. rewrite app_nil_r.
      apply Forall_cons in Hnem as [Hf _].
      simpl in Hstart. rewrite length_app in Hstart.
      destruct f; [done|]. simpl in *. lia.
Qed.

Lemma tokenize_inserted_word_witness :
  tokenize (trie_of [py "the"; py "there"; py "here"]) (py "here") = [py "here"].
Proof.
  apply (tokenize_inserted_word [py "the"; py "there"; py "here"] (py "here")).
  - right. right. left.
  - discriminate.
Defined.

Lemma tokenize_partition (root : dic) (sent : str) :
  sent <> [] ->
  concat (tokenize root sent) = sent /\
  Forall (fun f => f <> []) (tokenize root sent).
Proof.
  intros Hne.
  destruct (tokenize_fragments root sent Hne) as (st & Heq & Hend & Hinv & _).
  rewrite Heq. destruct Hinv as [Hw Hlo Hup Hcat Hnem]. split.
  - rewrite concat_app, Hcat. simpl. rewrite app_nil_r.
    rewrite take_app_slice by lia. apply take_ge. lia.
  - apply Forall_app. split; [done|]. apply Forall_singleton.
    intros Hnil. apply (f_equal length) in Hnil. rewrite slice_length in Hnil.
    simpl in Hnil. lia.
Qed.

Lemma concat_singletons {A} (l : list (list A)) :
  Forall (fun f => length f = 1%nat) l -> l = map (fun c => [c]) (concat l).
Proof.
  induction 1 as [|f l Hf _ IH]; simpl; [reflexivity|].
  destruct f as [|c [|c' f]]; simpl in Hf; try lia.
  simpl. by rewrite <- IH.
Qed.

(** Where no inserted word of two characters or more occurs, every
    character is a fragment of its own; in particular with an empty trie.
    The empty sentence gives the single empty fragment. *)
Theorem tokenize_without_words (words : list (list N)) (sent : list N) :
  (forall (w : list N) (p : nat),
     w ∈ words -> (2 <= length w)%nat -> slice sent p (p + length w) <> w) ->
  tokenize (trie_of words) sent
  = match sent with [] => [[]] | _ => map (fun c => [c]) sent end.
Proof.
  intros Hnone. destruct (decide (sent = [])) as [->|Hne]; [reflexivity|].
  destruct (tokenize_partition (trie_of words) sent Hne) as [Hcat Hnem].
  assert (Hone : Forall (fun f => length f = 1%nat) (tokenize (trie_of words) sent)).
  { rewrite Forall_forall in Hnem |- *. intros frag Hin.
    destruct (decide (2 <= length frag)%nat) as [Hlen|Hlen].
    - exfalso.
      destruct (tokenize_fragment_backed_prefix words sent frag Hin Hlen)
        as (w & Hw & Hwl & tl & Hfrag).
      apply list_elem_of_split in Hin as (l1 & l2 & Hsplit).
      rewrite Hsplit, concat_app in Hcat. simpl in Hcat.
      apply (Hnone w (length (concat l1)) Hw Hwl).
      rewrite <- Hcat, Hfrag. unfold slice.
      rewrite drop_app_length.
      replace (length (concat l1) + length w - length (concat l1))%nat
        with (length w) by lia.
      rewrite <- app_assoc. by rewrite take_app_length.
    - specialize (Hnem frag Hin). destruct frag; [done|]. simpl in *. lia. }
  rewrite (concat_singletons _ Hone), Hcat.
  by destruct sent.
Qed.

Lemma tokenize_without_words_witness :
  tokenize (trie_of []) (py "ab") = [py "a"; py "b"].
Proof.
  apply (tokenize_without_words [] (py "ab")).
  intros w p Hw. by apply elem_of_nil in Hw.
Defined.

(** ** filter_vocab as a filter *)

Lemma retained_mono (ngrams ngrams' : gset (list N)) (order : nat) (i : str) :
  ngrams ⊆ ngrams' -> retained ngrams order i = true -> retained ngrams' order i = true.
Proof.
  intros Hsub. unfold retained. rewrite !orb_true_iff, !andb_true_iff.
  rewrite !bool_decide_eq_true, !windows_flag_true.
  intros [[H|[H1 H2]]|[H1 H2]].
  - by left; left.
  - left; right. split; [done|]. by apply Hsub.
  - right. split; [done|]. intros k Hk. apply Hsub. by apply H2.
Qed.

(** The validator only removes entries: what it returns is a sub-dict of
    the candidates, and validating a second time removes nothing more. *)
Theorem filter_vocab_idempotent (candidates : gmap (list N) Z)
    (ngrams : gset (list N)) (order : nat) :
  filter_vocab candidates ngrams order ⊆ candidates /\
  filter_vocab (filter_vocab candidates ngrams order) ngrams order
  = filter_vocab candidates ngrams order.
Proof.
  split.
  - apply map_subseteq_spec. intros i j. rewrite filter_vocab_lookup.
    by destruct (retained ngrams order i).
  - apply map_eq. intros i. rewrite !filter_vocab_lookup.
    by destruct (retained ngrams order i).
Qed.

(** Accepting more n-grams never loses a candidate. *)
Theorem filter_vocab_monotone (candidates : gmap (list N) Z)
    (ngrams ngrams' : gset (list N)) (order : nat) :
  ngrams ⊆ ngrams' ->
  filter_vocab candidates ngrams order ⊆ filter_vocab candidates ngrams' order.
Proof.
  intros Hsub. apply map_subseteq_spec. intros i j. rewrite !filter_vocab_lookup.
  destruct (retained ngrams order i) eqn:Hret; [|discriminate].
  by rewrite (retained_mono _ _ _ _ Hsub Hret).
Qed.

Lemma filter_vocab_monotone_witness :
  filter_vocab {[py "abc" := 5; py "abd" := 7]} {[py "ab"; py "bc"]} 2
  ⊆ filter_vocab {[py "abc" := 5; py "abd" := 7]} {[py "ab"; py "bc"; py "bd"]} 2.
Proof.
  apply (filter_vocab_monotone {[py "abc" := 5; py "abd" := 7]}
           {[py "ab"; py "bc"]} {[py "ab"; py "bc"; py "bd"]} 2).
  apply union_subseteq_l.
Defined.

(** With no accepted n-gram at all, exactly the candidates shorter than 3
    characters are left, whatever the order. *)
Theorem filter_vocab_nothing_accepted (candidates : gmap (list N) Z)
    (order : nat) (i : list N) :
  filter_vocab candidates ∅ order !! i
  = if (length i <? 3)%nat then candidates !! i else None.
Proof.
  rewrite filter_vocab_lookup.
  assert (Hret : retained ∅ order i = (length i <? 3)%nat).
  { unfold retained. destruct (length i <? 3)%nat eqn:H3; [reflexivity|].
    apply Nat.ltb_ge in H3. simpl.
    rewrite bool_decide_eq_false_2 by apply not_elem_of_empty.
    rewrite andb_false_r. simpl.
    destruct (order <? length i)%nat eqn:Ho; [|reflexivity]. simpl.
    apply Nat.ltb_lt in Ho.
    destruct (windows_flag i ∅ order) eqn:Hflag; [|reflexivity].
    apply windows_flag_true with (k := 0%nat) in Hflag; [|lia].
    by apply not_elem_of_empty in Hflag. }
  by rewrite Hret.
Qed.

(** ** KenlmNgrams.read_chars *)

Lemma split_on_nonempty (sep : N) (s : str) : split_on sep s <> [].
Proof. destruct s as [|c s]; simpl; [done|]. by destruct (decide (c = sep)). Qed.

Lemma py_join_cons (sep p : str) (ps : list str) :
  ps <> [] -> py_join sep (p :: ps) = p ++ sep ++ py_join sep ps.
Proof. by destruct ps. Qed.

Lemma py_join_split_on (sep : N) (s : str) : py_join [sep] (split_on sep s) = s.
Proof.
  induction s as [|c s IH]; [reflexivity|]. cbn [split_on].
  pose proof (split_on_nonempty sep s) as Hne.
  destruct (decide (c = sep)) as [->|Hc].
  - rewrite py_join_cons by done. simpl. by rewrite IH.
  - destruct (split_on sep s) as [|p ps]; [done|]. cbn [hd tl].
    destruct ps as [|q ps].
    + simpl in *. by rewrite IH.
    + rewrite py_join_cons in IH by done. rewrite py_join_cons by done.
      simpl. by rewrite <- IH.
Qed.

Lemma split_on_no_sep (sep : N) (s : str) : Forall (fun p => sep ∉ p) (split_on sep s).
Proof.
  induction s as [|c s IH]; simpl.
  - apply Forall_singleton, not_elem_of_nil.
  - destruct (decide (c = sep)) as [->|Hc].
    + apply Forall_cons. split; [apply not_elem_of_nil|exact IH].
    + pose proof (split_on_nonempty sep s) as Hne.
      destruct (split_on sep s) as [|p ps]; [done|]. simpl.
      apply Forall_cons in IH as [Hp Hps]. apply Forall_cons. split; [|exact Hps].
      apply not_elem_of_cons. split; [congruence|exact Hp].
Qed.

Lemma split_on_length (sep : N) (s : str) :
  length (split_on sep s) = S (length (filter (fun c => c = sep) s)).
Proof.
  induction s as [|c s IH]; [reflexivity|]. cbn [split_on].
  pose proof (split_on_nonempty sep s) as Hne.
  destruct (decide (c = sep)) as [->|Hc].
  - rewrite filter_cons_True by done. simpl. by rewrite IH.
  - rewrite filter_cons_False by done.
    destruct (split_on sep s) as [|p ps]; [done|]. simpl in *. exact IH.
Qed.

Lemma split_on_app_sep (sep : N) (t s : str) :
  sep ∉ t -> split_on sep (t ++ sep :: s) = t :: split_on sep s.
Proof.
  induction t as [|c t IH]; intros Ht; simpl.
  - by rewrite decide_True.
  - apply not_elem_of_cons in Ht as [Hc Ht].
    rewrite decide_False by congruence. by rewrite IH.
Qed.

Lemma split_on_elem (sep : N) (s : str) :
  Forall (fun p => forall x : N, x ∈ p -> x ∈ s) (split_on sep s).
Proof.
  induction s as [|c s IH]; simpl.
  - apply Forall_singleton. by intros x Hx.
  - pose proof (split_on_nonempty sep s) as Hne.
    destruct (decide (c = sep)) as [->|Hc].
    + apply Forall_cons. split; [intros x Hx; by apply elem_of_nil in Hx|].
      eapply Forall_impl; [exact IH|]. intros p Hp x Hx. right. by apply Hp.
    + destruct (split_on sep s) as [|p ps]; [done|]. simpl.
      apply Forall_cons in IH as [Hp Hps]. apply Forall_cons. split.
      * intros x Hx. apply elem_of_cons in Hx as [->|Hx]; [left|right; by apply Hp].
      * eapply Forall_impl; [exact Hps|]. intros q Hq x Hx. right. by apply Hq.
Qed.

Lemma universal_newlines_facts (n : nat) :
  forall s : str,
    (length s <= n)%nat ->
    (13%N ∉ universal_newlines s) /\
    filter (fun c => c = 0%N) (universal_newlines s) = filter (fun c => c = 0%N) s /\
    (13%N ∉ s -> universal_newlines s = s).
Proof.
  induction n as [|n IH]; intros s Hlen.
  - destruct s; [|simpl in Hlen; lia]. simpl. split; [apply not_elem_of_nil|done].
  - destruct s as [|c s]; [simpl; split; [apply not_elem_of_nil|done]|].
    simpl in Hlen. cbn [universal_newlines].
    destruct (N.eqb_spec c 13) as [->|Hc].
    + destruct s as [|c' s].
      * split; [|split].
        -- intros Hin. apply list_elem_of_singleton in Hin. discriminate.
        -- reflexivity.
        -- intros Hno. exfalso. apply Hno. left.
      * simpl in Hlen.
        destruct (IH s ltac:(lia)) as (H1 & H2 & _).
        destruct (IH (c' :: s) ltac:(simpl; lia)) as (H1' & H2' & _).
        destruct (N.eqb_spec c' 10) as [->|Hc'].
        -- split; [|split].
           ++ apply not_elem_of_cons. split; [done|exact H1].
           ++ rewrite filter_cons_False by done. rewrite H2.
              by rewrite !filter_cons_False by done.
           ++ intros Hno. exfalso. apply Hno. left.
        -- split; [|split].
           ++ apply not_elem_of_cons. split; [done|exact H1'].
           ++ rewrite filter_cons_False by done. rewrite H2'.
              by rewrite (filter_cons_False _ 13%N) by done.
           ++ intros Hno. exfalso. apply Hno. left.
    + destruct (IH s ltac:(lia)) as (H1 & H2 & H3). split; [|split].
      * apply not_elem_of_cons. split; [congruence|exact H1].
      * destruct (decide (c = 0%N)) as [->|H0].
        -- rewrite !filter_cons_True by done. by rewrite H2.
        -- rewrite !filter_cons_False by done. exact H2.
      * intros Hno. apply not_elem_of_cons in Hno as [_ Hno]. by rewrite H3.
Qed.

(** The vocabulary file is read in text mode and cut at its NUL
    characters: joining the entries with NUL gives the text of the file
    with its newlines translated, which is the text itself when the file
    holds no carriage return; no entry holds a NUL or a carriage return,
    and there is one entry more than there are NULs in the file. *)
Theorem read_chars_round_trip (content : list N) :
  py_join [0%N] (read_chars content) = universal_newlines content /\
  (13%N ∉ content -> py_join [0%N] (read_chars content) = content) /\
  Forall (fun entry => (0%N ∉ entry) /\ (13%N ∉ entry)) (read_chars content) /\
  length (read_chars content) = S (length (filter (fun c => c = 0%N) content)).
Proof.
  unfold read_chars.
  destruct (universal_newlines_facts (length content) content ltac:(lia))
    as (Hcr & Hnul & Hid).
  split; [apply py_join_split_on|]. split; [|split].
  - intros Hno. rewrite py_join_split_on. by apply Hid.
  - pose proof (split_on_no_sep 0%N (universal_newlines content)) as Hsep.
    pose proof (split_on_elem 0%N (universal_newlines content)) as Hel.
    rewrite Forall_forall in Hsep, Hel |- *. intros entry Hin.
    split; [by apply Hsep|]. intros Hx. apply Hcr. by apply (Hel entry Hin).
  - by rewrite split_on_length, Hnul.
Qed.

Lemma read_chars_round_trip_witness :
  py_join [0%N] (read_chars (py "a" ++ [0%N] ++ py "b")) = py "a" ++ [0%N] ++ py "b".
Proof.
  apply (read_chars_round_trip (py "a" ++ [0%N] ++ py "b")).
  apply (bool_decide_unpack _). by vm_compute.
Defined.

(** ** KenlmNgrams.read_ngrams: the states it goes through *)

Lemma add_prefix_loop_length (c : str) (n : Z) (L : nat) :
  forall ngs ngs' : list (odict (list N) Z),
    foldR (add_prefix c n) ngs (seq 0 L) = Ok ngs' -> (L <= length ngs)%nat.
Proof.
  induction L as [|L IH]; intros ngs ngs' Hrun; [lia|].
  rewrite seq_S, foldR_app in Hrun. simpl in Hrun.
  apply bind_ok_inv in Hrun as (ngs1 & Hrun1 & Hlast).
  pose proof (IH _ _ Hrun1) as HL.
  destruct (add_prefix_loop c n ngs L HL) as (ngs1' & Hrun1' & Hlen & _).
  assert (ngs1' = ngs1) as -> by congruence.
  apply bind_ok_inv in Hlast as (ngs2 & Hadd & _).
  unfold add_prefix in Hadd.
  destruct (ngs1 !! L) as [d|] eqn:Hd; [|discriminate].
  apply lookup_lt_Some in Hd. lia.
Qed.

Lemma add_prefix_loop_bump (c : str) (n : Z) (ngs ngs' : list (odict (list N) Z)) :
  foldR (add_prefix c n) ngs (seq 0 (length c)) = Ok ngs' ->
  (length c <= length ngs)%nat /\ ngs' = bump c n ngs.
Proof.
  intros Hrun. pose proof (add_prefix_loop_length _ _ _ _ _ Hrun) as HL.
  split; [exact HL|].
  destruct (add_prefix_loop c n ngs (length c) HL) as (ngs1 & Hrun1 & Hlen & Hget).
  assert (ngs1 = ngs') as -> by congruence.
  apply list_eq. intros j. unfold bump. rewrite list_lookup_imap.
  destruct (ngs !! j) as [d|] eqn:Hd; simpl.
  - by rewrite (Hget j d Hd).
  - apply lookup_ge_None in Hd. apply lookup_ge_None. lia.
Qed.

(** A step that does not raise either drops the record or bumps the maps. *)
Lemma read_ngrams_step_ok_inv (native : byteorder) (chars : list (list N))
    (order : nat) (min_count : Z) (st st' : counts) (s : list Byte.byte) (n : Z) :
  read_ngrams_step native chars order min_count st (s, n) = Ok st' ->
  (n < min_count /\ st' = st) \/
  (min_count <= n /\
   exists c : list N,
     (length c <= length (ngrams st))%nat /\
     st' = Counts (bump c n (ngrams st)) (total st + n)).
Proof.
  unfold read_ngrams_step. destruct (Z.leb_spec min_count n) as [Hn|Hn].
  - intros Hstep. right. split; [exact Hn|].
    apply bind_ok_inv in Hstep as (idxs & _ & Hstep).
    apply bind_ok_inv in Hstep as (c & _ & Hstep).
    apply bind_ok_inv in Hstep as (ngs' & Hloop & [= <-]).
    apply add_prefix_loop_bump in Hloop as [HL ->]. by exists c.
  - intros [= <-]. by left.
Qed.

Lemma bump_length (c : str) (n : Z) (ngs : list (odict (list N) Z)) :
  length (bump c n ngs) = length ngs.
Proof. unfold bump. apply length_imap. Qed.

(** Reading a count after a bump. *)
Lemma count_of_bump (c : str) (n : Z) (ngs : list (odict (list N) Z)) (j : nat) (w : str) :
  (j < length ngs)%nat ->
  count_of (bump c n ngs) j w =
    if decide ((j < length c)%nat /\ w = take (j + 1) c)
    then Some (default 0 (count_of ngs j w) + n)
    else count_of ngs j w.
Proof.
  intros Hj. unfold count_of, bump. rewrite list_lookup_imap.
  destruct (lookup_lt_is_Some_2 ngs j Hj) as [d Hd]. rewrite Hd. simpl.
  destruct (decide (j < length c)%nat) as [Hlt|Hge].
  - destruct (decide (w = take (j + 1) c)) as [->|Hne].
    + rewrite decide_True by done. by rewrite odict_get_set_eq.
    + rewrite decide_False by (intros [_ ?]; done).
      by apply odict_get_set_ne.
  - rewrite decide_False by (intros [? _]; done). reflexivity.
Qed.

Lemma count_of_replicate (order j : nat) (w : str) :
  count_of (replicate order []) j w = None.
Proof.
  unfold count_of. destruct (replicate order [] !! j) as [d|] eqn:Hd; [|reflexivity].
  by apply lookup_replicate in Hd as [-> _].
Qed.

(** Induction over the states that [read_ngrams] goes through: the
    initial state, then one bump for each kept record. *)
Lemma read_ngrams_states (P : counts -> list Z -> Prop)
    (native : byteorder) (chars : list (list N)) (order : nat) (min_count : Z) :
  P (Counts (replicate order []) 0) [] ->
  (forall (st : counts) (kept : list Z) (c : list N) (n : Z),
     P st kept -> length (ngrams st) = order -> min_count <= n ->
     (length c <= order)%nat ->
     P (Counts (bump c n (ngrams st)) (total st + n)) (kept ++ [n])) ->
  forall (f : list Byte.byte) (st : counts),
    read_ngrams native chars order min_count f = Some (Ok st) ->
    exists items : list (list Byte.byte * Z),
      ngrams_gen native order f = Some (Ok items) /\
      P st (kept_counts min_count items) /\ length (ngrams st) = order.
Proof.
  intros Hinit Hstep f st. unfold read_ngrams.
  destruct (ngrams_gen native order f) as [[items|e]|]; [|discriminate..].
  intros [= Hrun]. exists items. split; [reflexivity|].
  assert (Hgen : forall (items : list (list Byte.byte * Z)) (st0 : counts) (kept0 : list Z),
            P st0 kept0 -> length (ngrams st0) = order ->
            foldR (read_ngrams_step native chars order min_count) st0 items = Ok st ->
            P st (kept0 ++ kept_counts min_count items) /\ length (ngrams st) = order).
  { clear items Hrun. induction items as [|[s n] items IH]; intros st0 kept0 HP Hlen; simpl.
    - intros [= <-]. by rewrite app_nil_r.
    - intros Hrun. apply bind_ok_inv in Hrun as (st1 & Hst1 & Hrun).
      apply read_ngrams_step_ok_inv in Hst1 as [[Hn ->]|(Hn & c & Hc & ->)].
      + unfold kept_counts. simpl. rewrite filter_cons_False by lia.
        by apply (IH st0 kept0).
      + unfold kept_counts. simpl. rewrite filter_cons_True by done.
        rewrite cons_middle, app_assoc.
        apply (IH (Counts (bump c n (ngrams st0)) (total st0 + n)) (kept0 ++ [n])).
        * apply Hstep; [done..|lia].
        * simpl. by rewrite bump_length.
        * exact Hrun. }
  apply (Hgen items (Counts (replicate order []) 0) []);
    [exact Hinit|apply length_replicate|exact Hrun].
Qed.

Lemma count_of_Some_lt (ngs : list (odict (list N) Z)) (j : nat) (w : str) (v : Z) :
  count_of ngs j w = Some v -> (j < length ngs)%nat.
Proof.
  unfold count_of. destruct (ngs !! j) as [d|] eqn:Hd; [|discriminate].
  intros _. by eapply lookup_lt_Some.
Qed.

Lemma count_of_lookup (ngs : list (odict (list N) Z)) (j : nat)
    (d : odict (list N) Z) (w : str) :
  ngs !! j = Some d -> count_of ngs j w = odict_get w d.
Proof. intros Hd. unfold count_of. by rewrite Hd. Qed.

Lemma sum_snoc (kept : list Z) (n : Z) :
  foldr Z.add 0 (kept ++ [n]) = foldr Z.add 0 kept + n.
Proof. induction kept as [|k kept IH]; simpl; lia. Qed.

(** [total] is the sum of the counts of the records that passed
    [min_count], whatever they decode to. *)
Theorem read_ngrams_total (native : byteorder) (chars : list (list N))
    (order : nat) (min_count : Z) (f : list Byte.byte) (st : counts) :
  read_ngrams native chars order min_count f = Some (Ok st) ->
  exists items : list (list Byte.byte * Z),
    ngrams_gen native order f = Some (Ok items) /\
    total st = foldr Z.add 0 (kept_counts min_count items).
Proof.
  intros Hrun.
  destruct (read_ngrams_states (fun st kept => total st = foldr Z.add 0 kept)
              native chars order min_count) with (f := f) (st := st)
    as (items & Hgen & Htot & _).
  - reflexivity.
  - intros st0 kept c n Htot _ _ _. simpl. by rewrite sum_snoc, Htot.
  - exact Hrun.
  - by exists items.
Qed.

Lemma read_ngrams_total_witness :
  exists items : list (list Byte.byte * Z),
    ngrams_gen LittleEndian 2 zero_count_file = Some (Ok items) /\
    3 = foldr Z.add 0 (kept_counts 0 items).
Proof.
  apply (read_ngrams_total LittleEndian example_chars 2 0 zero_count_file
           (Counts zero_count_maps 3)).
  vm_compute. reflexivity.
Defined.

Lemma read_ngrams_counts_between (native : byteorder) (chars : list (list N))
    (order : nat) (min_count : Z) (f : list Byte.byte) (st : counts) :
  read_ngrams native chars order min_count f = Some (Ok st) ->
  0 <= min_count ->
  forall (j : nat) (d : odict (list N) Z) (w : list N) (v : Z),
    ngrams st !! j = Some d -> odict_get w d = Some v ->
    min_count <= v <= total st.
Proof.
  intros Hrun Hmin.
  destruct (read_ngrams_states
              (fun st _ =>
                 0 <= total st /\
                 forall (j : nat) (w : list N) (v : Z),
                   count_of (ngrams st) j w = Some v -> min_count <= v <= total st)
              native chars order min_count) with (f := f) (st := st)
    as (items & _ & [Htot Hall] & _).
  - split; [simpl; lia|]. intros j w v. simpl. by rewrite count_of_replicate.
  - intros st0 kept c n [Htot Hall] Hlen Hn Hc. simpl. split; [lia|].
    intros j w v Hv. pose proof (count_of_Some_lt _ _ _ _ Hv) as Hj.
    rewrite bump_length in Hj. rewrite count_of_bump in Hv by done.
    destruct (decide ((j < length c)%nat /\ w = take (j + 1) c)) as [_|_].
    + injection Hv as <-.
      destruct (count_of (ngrams st0) j w) as [v0|] eqn:Hold; simpl.
      * specialize (Hall j w v0 Hold). lia.
      * lia.
    + specialize (Hall j w v Hv). lia.
  - exact Hrun.
  - intros j d w v Hd Hget. apply (Hall j w v). by rewrite (count_of_lookup _ _ d).
Qed.

(** With [min_count >= 0], every stored count is at least [min_count] and
    at most [total]. *)
Theorem read_ngrams_count_bounds (native : byteorder) (chars : list (list N))
    (order : nat) (min_count : Z) (f : list Byte.byte) (st : counts) :
  read_ngrams native chars order min_count f = Some (Ok st) ->
  0 <= min_count ->
  forall (j : nat) (d : odict (list N) Z) (w : list N) (v : Z),
    ngrams st !! j = Some d -> odict_get w d = Some v ->
    min_count <= v <= total st.
Proof.
  intros Hrun Hmin j d w v Hd Hget.
  exact (read_ngrams_counts_between native chars order min_count f st Hrun Hmin j d w v Hd Hget).
Qed.

Lemma read_ngrams_count_bounds_witness : 0 <= 3 <= 3.
Proof.
  apply (read_ngrams_count_bounds LittleEndian example_chars 2 0 zero_count_file
           (Counts zero_count_maps 3) ltac:(vm_compute; reflexivity) ltac:(lia)
           0%nat [(py "a", 0); (py "c", 3)] (py "c") 3); reflexivity.
Defined.

Lemma read_ngrams_prefix_step (native : byteorder) (chars : list (list N))
    (order : nat) (min_count : Z) (f : list Byte.byte) (st : counts) :
  read_ngrams native chars order min_count f = Some (Ok st) ->
  forall (j : nat) (w : list N) (v : Z),
    count_of (ngrams st) (S j) w = Some v ->
    exists v0 : Z,
      count_of (ngrams st) j (take (S j) w) = Some v0 /\ (0 <= min_count -> v <= v0).
Proof.
  intros Hrun.
  destruct (read_ngrams_states
              (fun st _ =>
                 (0 <= min_count ->
                  forall (j : nat) (w : list N) (v : Z),
                    count_of (ngrams st) j w = Some v -> 0 <= v) /\
                 forall (j : nat) (w : list N) (v : Z),
                   count_of (ngrams st) (S j) w = Some v ->
                   exists v0 : Z,
                     count_of (ngrams st) j (take (S j) w) = Some v0 /\
                     (0 <= min_count -> v <= v0))
              native chars order min_count) with (f := f) (st := st)
    as (items & _ & [_ Hall] & _); [| |exact Hrun|exact Hall].
  - split; intros; simpl in *; rewrite count_of_replicate in *; discriminate.
  - intros st0 kept c n [Hpos Hpre] Hlen Hn Hc. simpl. split.
    + intros Hmin j w v Hv. pose proof (count_of_Some_lt _ _ _ _ Hv) as Hj.
      rewrite bump_length in Hj. rewrite count_of_bump in Hv by done.
      destruct (decide ((j < length c)%nat /\ w = take (j + 1) c)) as [_|_].
      * injection Hv as <-.
        destruct (count_of (ngrams st0) j w) as [v0|] eqn:Hold; simpl; [|lia].
        specialize (Hpos Hmin j w v0 Hold). lia.
      * by apply (Hpos Hmin j w v).
    + intros j w v Hv. pose proof (count_of_Some_lt _ _ _ _ Hv) as Hj.
      rewrite bump_length in Hj. rewrite count_of_bump in Hv by done.
      rewrite count_of_bump by lia.
      destruct (decide ((S j < length c)%nat /\ w = take (S j + 1) c)) as [[Hlt ->]|Hno].
      * assert (Hkey : take (S j) (take (S j + 1) c) = take (j + 1) c).
        { rewrite take_take. f_equal. lia. }
        rewrite Hkey. rewrite decide_True by (split; [lia|reflexivity]).
        injection Hv as <-. eexists. split; [reflexivity|]. intros Hmin.
        change (S j + 1)%nat with (S (j + 1)) in *.
        destruct (count_of (ngrams st0) (S j) (take (S (j + 1)) c)) as [a|] eqn:Ha; simpl.
        -- destruct (Hpre j _ a Ha) as (b & Hb & Hab). rewrite Hkey in Hb.
           rewrite Hb. simpl. specialize (Hab Hmin). lia.
        -- destruct (count_of (ngrams st0) j (take (j + 1) c)) as [b|] eqn:Hb; simpl; [|lia].
           specialize (Hpos Hmin j _ b Hb). lia.
      * destruct (Hpre j w v Hv) as (b & Hb & Hvb).
        destruct (decide ((j < length c)%nat /\ take (S j) w = take (j + 1) c)) as [_|_].
        -- rewrite Hb. simpl. eexists. split; [reflexivity|]. intros Hmin.
           specialize (Hvb Hmin). lia.
        -- exists b. split; [exact Hb|exact Hvb].
Qed.

(** The maps are nested prefix aggregates: every prefix of a stored n-gram
    is stored in the map of its length, with a count that, when
    [min_count >= 0], is at least as large.  So on the decoder's output the
    left factor [ngrams[j].get(w[:j + 1], total)] of the cohesion score is
    always a stored count, never the default. *)
Theorem read_ngrams_prefixes (native : byteorder) (chars : list (list N))
    (order : nat) (min_count : Z) (f : list Byte.byte) (st : counts)
    (i j : nat) (d : odict (list N) Z) (w : list N) (v : Z) :
  read_ngrams native chars order min_count f = Some (Ok st) ->
  ngrams st !! i = Some d -> odict_get w d = Some v ->
  (j <= i)%nat ->
  exists (dl : odict (list N) Z) (v0 : Z),
    ngrams st !! j = Some dl /\
    odict_get (take (j + 1) w) dl = Some v0 /\
    (forall total : spec_float, get_or_total dl (take (j + 1) w) total = PyInt v0) /\
    (0 <= min_count -> v <= v0).
Proof.
  intros Hrun Hd Hget Hji.
  assert (Hcount : exists v0 : Z,
            count_of (ngrams st) j (take (j + 1) w) = Some v0 /\
            (0 <= min_count -> v <= v0)).
  { assert (Hlen : length w = (i + 1)%nat).
    { destruct (read_ngrams_count_maps_wf _ _ _ _ _ _ Hrun) as [Hwf _].
      destruct (Hwf i d Hd) as [_ Hl]. apply (Hl w v). by apply odict_get_Some_in. }
    assert (Hiw : count_of (ngrams st) i (take (i + 1) w) = Some v).
    { rewrite take_ge by lia. by rewrite (count_of_lookup _ _ d). }
    clear Hd Hget Hlen. revert v Hiw.
    induction Hji as [|i Hji IH]; intros v Hiw.
    - exists v. split; [exact Hiw|lia].
    - replace (S i + 1)%nat with (S (S i)) in Hiw by lia.
      destruct (read_ngrams_prefix_step _ _ _ _ _ _ Hrun i _ v Hiw) as (v1 & Hv1 & Hle1).
      rewrite take_take in Hv1.
      replace (S i `min` S (S i))%nat with (i + 1)%nat in Hv1 by lia.
      destruct (IH v1 Hv1) as (v0 & Hv0 & Hle0).
      exists v0. split; [exact Hv0|]. intros Hmin.
      specialize (Hle0 Hmin). specialize (Hle1 Hmin). lia. }
  destruct Hcount as (v0 & Hv0 & Hle).
  unfold count_of in Hv0. destruct (ngrams st !! j) as [dl|] eqn:Hdl; [|discriminate].
  exists dl, v0. split; [reflexivity|]. split; [exact Hv0|]. split; [|exact Hle].
  intros tf. unfold get_or_total. by rewrite Hv0.
Qed.

Lemma read_ngrams_prefixes_witness :
  exists (dl : odict (list N) Z) (v0 : Z),
    zero_count_maps !! 0%nat = Some dl /\
    odict_get (take 1 (py "cd")) dl = Some v0 /\
    (forall total : spec_float, get_or_total dl (take 1 (py "cd")) total = PyInt v0) /\
    (0 <= 0 -> 3 <= v0).
Proof.
  apply (read_ngrams_prefixes LittleEndian example_chars 2 0 zero_count_file
           (Counts zero_count_maps 3) 1 0 [(py "ab", 0); (py "cd", 3)] (py "cd") 3).
  - vm_compute. reflexivity.
  - reflexivity.
  - reflexivity.
  - lia.
Defined.

(** ** KenlmNgrams.read_ngrams: the maps after a file *)

Lemma kept_records_cons (native : byteorder) (chars : list (list N)) (order : nat)
    (min_count : Z) (s : list Byte.byte) (n : Z) (items : list (list Byte.byte * Z)) :
  kept_records native chars order min_count ((s, n) :: items)
  = if decide (min_count <= n)
    then let! c := decode_record native chars order s in
         let! recs := kept_records native chars order min_count items in
         Ok ((c, n) :: recs)
    else kept_records native chars order min_count items.
Proof.
  unfold kept_records. destruct (decide (min_count <= n)) as [Hn|Hn].
  - rewrite filter_cons_True by done. simpl.
    by destruct (decode_record native chars order s).
  - by rewrite filter_cons_False by done.
Qed.

Lemma read_ngrams_fold (native : byteorder) (chars : list (list N)) (order : nat)
    (min_count : Z) (items : list (list Byte.byte * Z)) :
  forall (st0 : counts) (recs : list (str * Z)),
    kept_records native chars order min_count items = Ok recs ->
    Forall (fun cn => (length (fst cn) <= order)%nat) recs ->
    length (ngrams st0) = order ->
    foldR (read_ngrams_step native chars order min_count) st0 items
    = Ok (Counts (foldl (fun ngs cn => bump (fst cn) (snd cn) ngs) (ngrams st0) recs)
                 (total st0 + sum_counts recs)).
Proof.
  induction items as [|[s n] items IH]; intros st0 recs Hrecs Hlen Hst.
  - injection Hrecs as <-. simpl. destruct st0 as [ngs tot]. simpl.
    unfold sum_counts. simpl. by rewrite Z.add_0_r.
  - rewrite kept_records_cons in Hrecs. cbn [foldR]. unfold read_ngrams_step at 1.
    destruct (decide (min_count <= n)) as [Hn|Hn].
    + apply bind_ok_inv in Hrecs as (c & Hc & Hrecs).
      apply bind_ok_inv in Hrecs as (recs' & Hrecs' & [= <-]).
      apply Forall_cons in Hlen as [Hc_len Hlen]. simpl in Hc_len.
      destruct (Z.leb_spec min_count n) as [_|?]; [|lia].
      unfold decode_record in Hc. apply bind_ok_inv in Hc as (idxs & Hidxs & Hstr).
      rewrite Hidxs. cbn [bind]. rewrite Hstr. cbn [bind].
      destruct (add_prefix_loop c n (ngrams st0) (length c) ltac:(lia))
        as (ngs' & Hrun & _ & _).
      rewrite Hrun. cbn [bind].
      apply add_prefix_loop_bump in Hrun as [_ ->].
      rewrite (IH _ recs' Hrecs' Hlen) by (simpl; by rewrite bump_length).
      simpl. unfold sum_counts. simpl. do 2 f_equal. lia.
    + destruct (Z.leb_spec min_count n) as [?|_]; [lia|]. cbn [bind].
      by apply IH.
Qed.

Lemma foldl_bump_length (recs : list (str * Z)) (ngs : list (odict (list N) Z)) :
  length (foldl (fun ngs cn => bump (fst cn) (snd cn) ngs) ngs recs) = length ngs.
Proof.
  revert ngs. induction recs as [|[c n] recs IH]; intros ngs; simpl; [done|].
  by rewrite IH, bump_length.
Qed.

Lemma count_of_foldl_bump (recs : list (str * Z)) :
  forall (ngs : list (odict (list N) Z)) (j : nat) (w : str),
    (j < length ngs)%nat ->
    count_of (foldl (fun ngs cn => bump (fst cn) (snd cn) ngs) ngs recs) j w
    = if decide (records_of_key j w recs = []) then count_of ngs j w
      else Some (default 0 (count_of ngs j w) + sum_counts (records_of_key j w recs)).
Proof.
  induction recs as [|[c n] recs IH]; intros ngs j w Hj.
  - reflexivity.
  - cbn [foldl]. rewrite IH by (by rewrite bump_length).
    rewrite count_of_bump by done. unfold records_of_key. simpl fst; simpl snd.
    destruct (decide ((j < length c)%nat /\ w = take (j + 1) c)) as [[Hlt ->]|Hno].
    + rewrite (filter_cons_True _ (c, n)) by done.
      rewrite (decide_False (P := (c, n) :: _ = [])) by done.
      destruct (decide (filter _ recs = [])) as [Hnil|Hnil].
      * rewrite Hnil. unfold sum_counts. simpl. f_equal. lia.
      * unfold sum_counts. simpl. f_equal. lia.
    + rewrite (filter_cons_False _ (c, n)) by (simpl; intros [? ?]; apply Hno; done).
      reflexivity.
Qed.

(** C4: the decoder, run on a file whose kept records (count at least
    [min_count]) decode to strings of at most [order] characters,
    returns; [total] is then the sum of the counts of the kept records,
    and [OrderCountMap[j]] holds the key [w] exactly when some kept
    record has a string of more than [j] characters that starts with [w],
    with the sum of the counts of those records as its value.  So every
    kept record of string [c] adds exactly its count under [c[:j + 1]] in
    map [j] for each [j < len(c)], and a record below [min_count] adds to
    no map and not to [total]. *)
Theorem read_ngrams_sums (native : byteorder) (chars : list (list N))
    (order : nat) (min_count : Z) (f : list Byte.byte) :
  exists items : list (list Byte.byte * Z),
    ngrams_gen native order f = Some (Ok items) /\
    forall recs : list (str * Z),
      kept_records native chars order min_count items = Ok recs ->
      Forall (fun cn => (length (fst cn) <= order)%nat) recs ->
      exists st : counts,
        read_ngrams native chars order min_count f = Some (Ok st) /\
        total st = sum_counts recs /\
        length (ngrams st) = order /\
        forall (j : nat) (d : odict (list N) Z) (w : str),
          ngrams st !! j = Some d ->
          odict_get w d
          = if decide (records_of_key j w recs = []) then None
            else Some (sum_counts (records_of_key j w recs)).
Proof.
  unfold read_ngrams, ngrams_gen.
  destruct (ngrams_loop_spec native (order * 4 + 8) ltac:(lia) (S (length f)) f ltac:(lia))
    as (items & Hgen & _).
  exists items. split; [exact Hgen|]. rewrite Hgen.
  intros recs Hrecs Hlen.
  rewrite (read_ngrams_fold native chars order min_count items _ recs Hrecs Hlen)
    by (simpl; apply length_replicate).
  eexists. split; [reflexivity|]. cbn [ngrams total]. split; [lia|].
  split; [by rewrite foldl_bump_length, length_replicate|].
  intros j d w Hd. rewrite <- (count_of_lookup _ j d w Hd).
  apply lookup_lt_Some in Hd. rewrite foldl_bump_length in Hd.
  rewrite count_of_foldl_bump by exact Hd.
  rewrite count_of_replicate. destruct (decide _); [reflexivity|]. simpl. f_equal.
Qed.

Lemma read_ngrams_sums_witness :
  exists st : counts,
    read_ngrams LittleEndian example_chars 2 2 four_record_file = Some (Ok st) /\
    total st = sum_counts [(py "ab", 5); (py "cd", 3); (py "ab", 2)] /\
    length (ngrams st) = 2%nat /\
    forall (j : nat) (d : odict (list N) Z) (w : str),
      ngrams st !! j = Some d ->
      odict_get w d
      = if decide (records_of_key j w [(py "ab", 5); (py "cd", 3); (py "ab", 2)] = [])
        then None
        else Some (sum_counts
                     (records_of_key j w [(py "ab", 5); (py "cd", 3); (py "ab", 2)])).
Proof.
  destruct (read_ngrams_sums LittleEndian example_chars 2 2 four_record_file)
    as (items & Hgen & Hsums).
  assert (Hitems : items
                   = [(example_record Byte.x03 Byte.x04 Byte.x05, 5);
                      (example_record Byte.x05 Byte.x06 Byte.x03, 3);
                      (example_record Byte.x03 Byte.x04 Byte.x02, 2);
                      (example_record Byte.x03 Byte.x04 Byte.x01, 1)]).
  { vm_compute in Hgen. by injection Hgen as <-. }
  subst items.
  apply (Hsums [(py "ab", 5); (py "cd", 3); (py "ab", 2)]).
  - by vm_compute.
  - repeat constructor.
Defined.

(** ** KenlmNgrams.read_ngrams: when it raises *)

Lemma chars_at_raise (chars : list (list N)) (x : Z) (e : exn) :
  chars_at chars x = Raise e -> e = IndexError.
Proof. unfold chars_at. destruct (chars !! Z.to_nat x); congruence. Qed.

Lemma add_prefix_raise (c : str) (n : Z) (ngs : list (odict (list N) Z)) (j : nat) (e : exn) :
  add_prefix c n ngs j = Raise e -> e = IndexError.
Proof. unfold add_prefix. destruct (ngs !! j); congruence. Qed.

Lemma read_ngrams_step_raise (native : byteorder) (chars : list (list N))
    (order : nat) (min_count : Z) (st : counts) (s : list Byte.byte) (n : Z) (e : exn) :
  length s = (order * 4 + 8)%nat ->
  read_ngrams_step native chars order min_count st (s, n) = Raise e ->
  e = IndexError /\ min_count <= n.
Proof.
  intros Hlen. unfold read_ngrams_step.
  destruct (Z.leb_spec min_count n) as [Hn|Hn]; [|discriminate].
  rewrite record_indices_spec by lia. simpl. intros H. split; [|exact Hn].
  apply bind_raise_inv in H as [H|(c & _ & H)].
  - unfold record_string in H.
    apply bind_raise_inv in H as [H|(cs & _ & H)]; [|discriminate].
    apply mapR_raise_inv in H as (x & _ & H). by apply chars_at_raise in H.
  - apply bind_raise_inv in H as [H|(ngs' & _ & H)]; [|discriminate].
    apply foldR_raise_inv in H as (ngs1 & j & _ & H). by apply add_prefix_raise in H.
Qed.

Lemma read_ngrams_ends (native : byteorder) (chars : list (list N))
    (order : nat) (min_count : Z) (f : list Byte.byte) :
  (exists st : counts, read_ngrams native chars order min_count f = Some (Ok st)) \/
  read_ngrams native chars order min_count f = Some (Raise IndexError).
Proof.
  unfold read_ngrams, ngrams_gen.
  destruct (ngrams_loop_spec native (order * 4 + 8) ltac:(lia) (S (length f)) f ltac:(lia))
    as (items & -> & _ & _ & Hall).
  destruct (foldR _ _ items) as [st|e] eqn:Hrun; [left; by exists st|right].
  apply foldR_raise_inv in Hrun as (st' & [s n] & Hin & Hstep).
  rewrite Forall_forall in Hall. destruct (Hall _ Hin) as [Hlen _].
  by apply read_ngrams_step_raise in Hstep as [-> _].
Qed.

Lemma read_ngrams_step_raise_source (native : byteorder) (chars : list (list N))
    (order : nat) (min_count : Z) (st : counts) (s : list Byte.byte) (n : Z) (e : exn) :
  length s = (order * 4 + 8)%nat ->
  length (ngrams st) = order ->
  read_ngrams_step native chars order min_count st (s, n) = Raise e ->
  e = IndexError /\ min_count <= n /\
  ((exists (idxs : list Z) (x : Z),
      record_indices native order s = Ok idxs /\ x ∈ idxs /\ 2 < x /\
      chars !! Z.to_nat x = None) \/
   (exists c : list N,
      decode_record native chars order s = Ok c /\ (order < length c)%nat)).
Proof.
  intros Hlen Hst Hstep.
  destruct (read_ngrams_step_raise _ _ _ _ _ _ _ _ Hlen Hstep) as [-> Hn].
  split; [reflexivity|]. split; [exact Hn|].
  unfold read_ngrams_step in Hstep.
  destruct (Z.leb_spec min_count n) as [_|?]; [|lia].
  unfold decode_record.
  destruct (record_indices native order s) as [idxs|e] eqn:Hidxs;
    [|by rewrite record_indices_spec in Hidxs by lia].
  cbn [bind] in Hstep |- *.
  destruct (record_string chars idxs) as [c|e] eqn:Hstr; cbn [bind] in Hstep.
  - right. exists c. split; [reflexivity|].
    destruct (decide (length c <= length (ngrams st))%nat) as [Hle|Hgt]; [|lia].
    destruct (add_prefix_loop c n (ngrams st) (length c) Hle) as (ngs' & Hrun & _).
    rewrite Hrun in Hstep. discriminate.
  - left. unfold record_string in Hstr.
    apply bind_raise_inv in Hstr as [Hstr|(cs & _ & Hstr)]; [|discriminate].
    apply mapR_raise_inv in Hstr as (x & Hx & Hat).
    apply list_elem_of_filter in Hx as [Hx2 Hx].
    exists idxs, x. split; [reflexivity|]. split; [exact Hx|]. split; [exact Hx2|].
    unfold chars_at in Hat. by destruct (chars !! Z.to_nat x).
Qed.

Lemma read_ngrams_fold_raise (native : byteorder) (chars : list (list N))
    (order : nat) (min_count : Z) (items : list (list Byte.byte * Z)) (e : exn) :
  Forall (fun it => length (fst it) = (order * 4 + 8)%nat) items ->
  forall st0 : counts,
    length (ngrams st0) = order ->
    foldR (read_ngrams_step native chars order min_count) st0 items = Raise e ->
    exists (s : list Byte.byte) (n : Z),
      (s, n) ∈ items /\ min_count <= n /\
      ((exists (idxs : list Z) (x : Z),
          record_indices native order s = Ok idxs /\ x ∈ idxs /\ 2 < x /\
          chars !! Z.to_nat x = None) \/
       (exists c : list N,
          decode_record native chars order s = Ok c /\ (order < length c)%nat)).
Proof.
  induction 1 as [|[s n] items Hs _ IH]; intros st0 Hst Hrun; [discriminate|].
  cbn [foldR] in Hrun. simpl in Hs.
  apply bind_raise_inv in Hrun as [Hstep|(st1 & Hstep & Hrun)].
  - destruct (read_ngrams_step_raise_source _ _ _ _ _ _ _ _ Hs Hst Hstep)
      as (_ & Hn & Hsrc).
    exists s, n. split; [left|]. by split.
  - assert (Hst1 : length (ngrams st1) = order).
    { apply read_ngrams_step_ok_inv in Hstep as [[_ ->]|(_ & c & _ & ->)]; [done|].
      simpl. by rewrite bump_length. }
    destruct (IH st1 Hst1 Hrun) as (s' & n' & Hin & Hrest).
    exists s', n'. split; [by right|exact Hrest].
Qed.

(** [read_ngrams] always comes to an end, and the only exception it can
    raise is [IndexError]; a truncated file, in particular, never makes
    [struct.unpack] fail.  The [IndexError] comes from a record that
    passes [min_count]: from [self.chars[j]], when an index above 2 is
    beyond the vocabulary, or from [self.ngrams[j]], when the decoded
    string has more than [order] characters, as a vocabulary entry of two
    characters or more can make it. *)
Theorem read_ngrams_outcome (native : byteorder) (chars : list (list N))
    (order : nat) (min_count : Z) (f : list Byte.byte) :
  exists items : list (list Byte.byte * Z),
    ngrams_gen native order f = Some (Ok items) /\
    ((exists st : counts, read_ngrams native chars order min_count f = Some (Ok st)) \/
     (read_ngrams native chars order min_count f = Some (Raise IndexError) /\
      exists (s : list Byte.byte) (n : Z),
        (s, n) ∈ items /\ min_count <= n /\
        ((exists (idxs : list Z) (x : Z),
            record_indices native order s = Ok idxs /\ x ∈ idxs /\ 2 < x /\
            chars !! Z.to_nat x = None) \/
         (exists c : list N,
            decode_record native chars order s = Ok c /\ (order < length c)%nat)))).
Proof.
  unfold read_ngrams, ngrams_gen.
  destruct (ngrams_loop_spec native (order * 4 + 8) ltac:(lia) (S (length f)) f ltac:(lia))
    as (items & Hgen & _ & _ & Hall).
  exists items. split; [exact Hgen|]. rewrite Hgen.
  assert (Hsize : Forall (fun it => length (fst it) = (order * 4 + 8)%nat) items).
  { eapply Forall_impl; [exact Hall|]. by intros it [? _]. }
  destruct (foldR _ _ items) as [st|e] eqn:Hrun; [left; by exists st|right].
  pose proof (read_ngrams_fold_raise native chars order min_count items e Hsize
                (Counts (replicate order []) 0) ltac:(simpl; apply length_replicate) Hrun)
    as Hsrc.
  apply foldR_raise_inv in Hrun as (st' & [s n] & Hin & Hstep).
  rewrite Forall_forall in Hsize. pose proof (Hsize _ Hin) as Hlen. simpl in Hlen.
  apply read_ngrams_step_raise in Hstep as [-> _]; [|exact Hlen].
  split; [reflexivity|exact Hsrc].
Qed.

Lemma concat_length_le {A} (cs : list (list A)) :
  Forall (fun t => (length t <= 1)%nat) cs -> (length (concat cs) <= length cs)%nat.
Proof.
  induction 1 as [|t cs Ht _ IH]; simpl; [lia|]. rewrite length_app. lia.
Qed.

Lemma mapR_all_ok {A B} (f : A -> result B) (P : B -> Prop) (l : list A) :
  (forall a, a ∈ l -> exists b, f a = Ok b /\ P b) ->
  exists bs, mapR f l = Ok bs /\ Forall P bs.
Proof.
  induction l as [|a l IH]; intros H; simpl.
  - exists []. split; [reflexivity|constructor].
  - destruct (H a) as (b & -> & Hb); [left|].
    destruct IH as (bs & -> & Hbs); [intros a' Ha'; apply H; by right|].
    simpl. exists (b :: bs). split; [reflexivity|by constructor].
Qed.

(** A record is decoded without an exception when each of its indices
    above 2 points to a vocabulary entry of one character at most. *)
Lemma read_ngrams_step_ok (native : byteorder) (chars : list (list N))
    (order : nat) (min_count : Z) (st : counts) (s : list Byte.byte) (n : Z) :
  length s = (order * 4 + 8)%nat ->
  length (ngrams st) = order ->
  (min_count <= n ->
   forall (idxs : list Z) (x : Z),
     record_indices native order s = Ok idxs -> x ∈ idxs -> 2 < x ->
     exists t : list N, chars !! Z.to_nat x = Some t /\ (length t <= 1)%nat) ->
  exists st' : counts,
    read_ngrams_step native chars order min_count st (s, n) = Ok st' /\
    length (ngrams st') = order.
Proof.
  intros Hlen Hst Hvalid. unfold read_ngrams_step.
  destruct (Z.leb_spec min_count n) as [Hn|Hn]; [|by exists st].
  specialize (Hvalid Hn).
  rewrite record_indices_spec in * by lia. simpl.
  set (idxs := map _ (seq 0 order)) in *.
  destruct (mapR_all_ok (chars_at chars) (fun t => (length t <= 1)%nat)
              (filter (fun j => 2 < j) idxs)) as (cs & Hcs & Hshort).
  { intros x Hx. apply list_elem_of_filter in Hx as [Hx Hin].
    destruct (Hvalid idxs x eq_refl Hin Hx) as (t & Ht & Hl).
    exists t. unfold chars_at. by rewrite Ht. }
  unfold record_string. rewrite Hcs. simpl.
  assert (Hc : (length (concat cs) <= order)%nat).
  { pose proof (concat_length_le cs Hshort) as H1.
    pose proof (mapR_length _ _ _ Hcs) as H2.
    pose proof (length_filter (fun j => 2 < j) idxs) as H3.
    assert (length idxs = order) by (subst idxs; by rewrite length_map, length_seq).
    lia. }
  destruct (add_prefix_loop (concat cs) n (ngrams st) (length (concat cs)))
    as (ngs' & -> & Hlen' & _); [lia|].
  simpl. eexists. split; [reflexivity|]. simpl. lia.
Qed.

(** The decoder succeeds on every file in which the records that pass
    [min_count] only name, beyond the three reserved indices, vocabulary
    entries that exist and have one character at most; the records that
    do not pass are never decoded, so they may hold anything. *)
Theorem read_ngrams_succeeds (native : byteorder) (chars : list (list N))
    (order : nat) (min_count : Z) (f : list Byte.byte)
    (items : list (list Byte.byte * Z)) :
  ngrams_gen native order f = Some (Ok items) ->
  (forall (s : list Byte.byte) (n : Z) (idxs : list Z) (x : Z),
     (s, n) ∈ items -> min_count <= n ->
     record_indices native order s = Ok idxs -> x ∈ idxs -> 2 < x ->
     exists t : list N, chars !! Z.to_nat x = Some t /\ (length t <= 1)%nat) ->
  exists st : counts, read_ngrams native chars order min_count f = Some (Ok st).
Proof.
  intros Hgen Hvalid. unfold read_ngrams. rewrite Hgen.
  assert (Hsize : Forall (fun it => length (fst it) = (order * 4 + 8)%nat) items).
  { unfold ngrams_gen in Hgen.
    destruct (ngrams_loop_spec native (order * 4 + 8) ltac:(lia) (S (length f)) f ltac:(lia))
      as (items' & Hgen' & _ & _ & Hall).
    assert (items' = items) as -> by congruence.
    eapply Forall_impl; [exact Hall|]. by intros it [? _]. }
  assert (Hrun : forall st0 : counts,
            length (ngrams st0) = order ->
            exists st : counts,
              foldR (read_ngrams_step native chars order min_count) st0 items = Ok st).
  { clear Hgen. induction items as [|[s n] items IH]; intros st0 Hlen; cbn [foldR]; [eauto|].
    apply Forall_cons in Hsize as [Hs Hsize].
    destruct (read_ngrams_step_ok native chars order min_count st0 s n Hs Hlen)
      as (st1 & -> & Hlen1).
    { intros Hn idxs x. apply (Hvalid s n); [left|exact Hn]. }
    cbn [bind]. apply IH; [|exact Hsize|exact Hlen1].
    intros s' n' idxs x Hin. apply Hvalid. by right. }
  destruct (Hrun (Counts (replicate order []) 0)) as [st Hst]; [apply length_replicate|].
  exists st. by rewrite Hst.
Qed.

Lemma read_ngrams_succeeds_witness :
  exists st : counts,
    read_ngrams LittleEndian example_chars 2 0 zero_count_file = Some (Ok st).
Proof.
  apply (read_ngrams_succeeds LittleEndian example_chars 2 0 zero_count_file
           [(example_record Byte.x03 Byte.x04 Byte.x00, 0);
            (example_record Byte.x05 Byte.x06 Byte.x03, 3)]).
  - vm_compute. reflexivity.
  - intros s n idxs x Hin Hn Hidx Hx Hgt.
    apply elem_of_cons in Hin as [[= -> ->]|Hin];
      [|apply list_elem_of_singleton in Hin as [= -> ->]];
      vm_compute in Hidx; injection Hidx as <-;
      repeat (apply elem_of_cons in Hx as [->|Hx]); try by apply elem_of_nil in Hx.
    all: eexists; split; [vm_compute; reflexivity|simpl; lia].
Defined.

(** ** filter_ngrams: the thresholds *)

Lemma float_ge_int_mono (x : spec_float) (z z' : Z) :
  z <= z' -> float_ge_int x z' = true -> float_ge_int x z = true.
Proof.
  intros Hz. unfold float_ge_int. destruct x as [s|s| |s m e]; try done.
  - rewrite !Z.leb_le. lia.
  - destruct (0 <=? e) eqn:He; rewrite !Z.leb_le; [lia|].
    apply Z.leb_gt in He. assert (0 < 2 ^ (- e)) by (apply Z.pow_pos_nonneg; lia).
    nia.
Qed.

Section thresholds.
Variable libm_log : spec_float -> spec_float.
Variable ngrams : list (odict (list N) Z).
Variable total : spec_float.

Lemma pmi_retains_threshold_mono (ts ts' : list Z) (i : nat) (w : list N) (v : Z) :
  Forall2 Z.le ts ts' ->
  pmi_retains libm_log ngrams total (map PyInt ts') i w v = Ok true ->
  pmi_retains libm_log ngrams total (map PyInt ts) i w v = Ok true.
Proof.
  intros Hle. unfold pmi_retains. intros H.
  apply bind_ok_inv in H as (m & -> & H). simpl.
  apply bind_ok_inv in H as (lg & -> & H). simpl.
  apply bind_ok_inv in H as (th' & Hth' & [= Hge]).
  unfold list_at in *. rewrite list_lookup_fmap in *.
  destruct (ts' !! i) as [z'|] eqn:Hz'; [|discriminate]. simpl in Hth'.
  injection Hth' as <-.
  destruct (Forall2_lookup_r _ _ _ _ _ Hle Hz') as (z & -> & Hzz). simpl.
  f_equal. simpl in Hge. by apply (float_ge_int_mono lg z z').
Qed.

Lemma pmi_retains_threshold_ok (ths ths' : list pynum) (i : nat) (w : list N) (v : Z)
    (keep : bool) :
  length ths = length ths' ->
  pmi_retains libm_log ngrams total ths i w v = Ok keep ->
  exists keep', pmi_retains libm_log ngrams total ths' i w v = Ok keep'.
Proof.
  intros Hlen. unfold pmi_retains. intros H.
  apply bind_ok_inv in H as (m & -> & H). simpl.
  apply bind_ok_inv in H as (lg & -> & H). simpl.
  apply bind_ok_inv in H as (th & Hth & _).
  unfold list_at in *. destruct (ths !! i) as [t|] eqn:Ht; [|discriminate].
  apply lookup_lt_Some in Ht.
  destruct (lookup_lt_is_Some_2 ths' i) as [t' ->]; [lia|]. simpl. eauto.
Qed.

(** A test that does not raise has found a threshold for its order. *)
Lemma pmi_retains_ok_threshold (ths : list pynum) (i : nat) (w : list N) (v : Z)
    (keep : bool) :
  pmi_retains libm_log ngrams total ths i w v = Ok keep -> (i < length ths)%nat.
Proof.
  unfold pmi_retains. intros H.
  apply bind_ok_inv in H as (m & _ & H).
  apply bind_ok_inv in H as (lg & _ & H).
  apply bind_ok_inv in H as (th & Hth & _).
  unfold list_at in Hth. destruct (ths !! i) as [t|] eqn:Ht; [|discriminate].
  by apply lookup_lt_Some in Ht.
Qed.
End thresholds.

(** Raising the integer thresholds never adds an n-gram to the output, and
    does not change whether the filter raises. *)
Theorem filter_ngrams_threshold_monotone (libm_log : spec_float -> spec_float)
    (ngrams : list (odict (list N) Z)) (total : Z) (ts ts' : list Z)
    (out : gset (list N)) :
  Forall2 Z.le ts ts' ->
  filter_ngrams libm_log ngrams total (Iterable (map PyInt ts)) = Ok out ->
  exists out' : gset (list N),
    filter_ngrams libm_log ngrams total (Iterable (map PyInt ts')) = Ok out' /\
    out' ⊆ out.
Proof.
  intros Hle Hrun.
  pose proof (filter_ngrams_membership _ _ _ _ _ Hrun) as (tf & Htf & Hmem).
  destruct (filter_ngrams_runs libm_log ngrams total (Iterable (map PyInt ts')) tf Htf)
    as [out' Hrun'].
  { intros i d w v Hi Hd Hin.
    destruct (filter_ngrams_visited_ok _ _ _ _ _ tf Hrun Htf i d w v Hi Hd Hin)
      as [keep Hkeep].
    eapply pmi_retains_threshold_ok; [|exact Hkeep].
    simpl. rewrite !length_map. by apply Forall2_length in Hle. }
  exists out'. split; [exact Hrun'|].
  apply filter_ngrams_membership in Hrun' as (tf' & Htf' & Hmem').
  assert (tf' = tf) as -> by congruence.
  intros w Hw. apply Hmem' in Hw as (i & d & v & Hi & Hd & Hin & Ht).
  apply Hmem. exists i, d, v. repeat split; [done..|].
  simpl in *. by apply (pmi_retains_threshold_mono _ _ _ ts ts').
Qed.

Lemma filter_ngrams_threshold_monotone_witness :
  exists out' : gset (list N),
    filter_ngrams log_at_one example_counts 5 (Iterable (map PyInt [0; 1])) = Ok out' /\
    out' ⊆ {[py "ab"]}.
Proof.
  apply (filter_ngrams_threshold_monotone log_at_one example_counts 5 [0; 0] [0; 1]).
  - repeat constructor; lia.
  - vm_compute. reflexivity.
Defined.

(** If the filter returns, [min_pmi] had an entry for the order index of
    every non-empty map that was visited.  The driver passes
    [[0, 2, 4, 6]]: with [order >= 5] and any 5-gram kept by the decoder
    the filter cannot return. *)
Theorem filter_ngrams_needs_thresholds (libm_log : spec_float -> spec_float)
    (ngrams : list (odict (list N) Z)) (total : Z) (min_pmi : min_pmi_arg)
    (out : gset (list N)) (i : nat) (d : odict (list N) Z) :
  filter_ngrams libm_log ngrams total min_pmi = Ok out ->
  (1 <= i)%nat -> ngrams !! i = Some d -> d <> [] ->
  (i < length (thresholds_of (length ngrams) min_pmi))%nat.
Proof.
  intros Hrun Hi Hd Hne.
  pose proof (filter_ngrams_membership _ _ _ _ _ Hrun) as (tf & Htf & _).
  destruct d as [|[w v] d]; [done|].
  destruct (filter_ngrams_visited_ok _ _ _ _ _ tf Hrun Htf i _ w v Hi Hd) as [keep Hkeep];
    [left|].
  by apply pmi_retains_ok_threshold in Hkeep.
Qed.

Lemma filter_ngrams_needs_thresholds_witness :
  (1 < length (thresholds_of (length example_counts) (Iterable [PyInt 0; PyInt 0])))%nat.
Proof.
  apply (filter_ngrams_needs_thresholds log_at_one example_counts 5
           (Iterable [PyInt 0; PyInt 0]) {[py "ab"]} 1 [(py "ab", 5)]).
  - vm_compute. reflexivity.
  - lia.
  - reflexivity.
  - discriminate.
Defined.

(** ** filter_ngrams: the exceptions it can raise *)

Lemma float_truediv_raise (x : spec_float) (b : pynum) (e : exn) :
  float_truediv x b = Raise e -> e = OverflowError \/ e = ZeroDivisionError.
Proof.
  unfold float_truediv. intros H.
  apply bind_raise_inv in H as [H|(y & _ & H)].
  - left. by apply to_float_raise in H.
  - right. destruct (is_zero y); congruence.
Qed.

Lemma pmi_term_raise (ngrams : list (odict (list N) Z)) (total : spec_float)
    (i : nat) (w : list N) (v : Z) (j : nat) (e : exn) :
  (i < length ngrams)%nat -> (j < i)%nat ->
  pmi_term ngrams total i w v j = Raise e ->
  e = OverflowError \/ e = ZeroDivisionError.
Proof.
  intros Hi Hj. unfold pmi_term, list_at.
  destruct (lookup_lt_is_Some_2 ngrams j) as [dl ->]; [lia|].
  destruct (lookup_lt_is_Some_2 ngrams (i - j - 1)) as [dr ->]; [lia|].
  intros H.
  apply bind_raise_inv in H as [H|(fv & _ & H)];
    [left; by apply float_of_int_raise in H|].
  simpl in H.
  apply bind_raise_inv in H as [H|(den & _ & H)];
    [left; by apply py_mul_raise in H|].
  by apply float_truediv_raise in H.
Qed.

Lemma filter_ngrams_raise_cases (libm_log : spec_float -> spec_float)
    (ngrams : list (odict (list N) Z)) (total : Z) (min_pmi : min_pmi_arg) (e : exn) :
  filter_ngrams libm_log ngrams total min_pmi = Raise e ->
  (e = ZeroDivisionError \/ e = ValueError \/ e = OverflowError \/
   (e = IndexError /\
    exists (i : nat) (l : list pynum),
      min_pmi = Iterable l /\ (1 <= i < length ngrams)%nat /\ (length l <= i)%nat)).
Proof.
  unfold filter_ngrams. intros H.
  apply bind_raise_inv in H as [H|(tf & _ & H)].
  { right; right; left. by apply float_of_int_raise in H. }
  apply foldR_raise_inv in H as (out & i & Hi & H).
  apply elem_of_orders in Hi.
  unfold filter_ngrams_order in H.
  apply bind_raise_inv in H as [H|(d & _ & H)].
  { unfold list_at in H. destruct (lookup_lt_is_Some_2 ngrams i) as [d Hd]; [lia|].
    rewrite Hd in H. discriminate. }
  apply foldR_raise_inv in H as (out' & [w v] & _ & H).
  unfold filter_ngrams_item in H.
  apply bind_raise_inv in H as [H|(terms & _ & H)].
  { apply mapR_raise_inv in H as (j & Hj & H).
    apply list_elem_of_In, in_seq in Hj.
    destruct (pmi_term_raise ngrams tf i w v j e ltac:(lia) ltac:(lia) H) as [He|He];
      subst e; tauto. }
  apply bind_raise_inv in H as [H|(m & _ & H)].
  { apply py_min_raise in H as ->. tauto. }
  apply bind_raise_inv in H as [H|(lg & _ & H)].
  { apply math_log_raise in H as ->. tauto. }
  apply bind_raise_inv in H as [H|(th & _ & H)]; [|discriminate].
  pose proof (list_at_raise _ _ _ H) as ->.
  right; right; right. split; [reflexivity|].
  unfold list_at in H.
  destruct min_pmi as [t|l].
  - rewrite lookup_replicate_2 in H by lia. discriminate.
  - exists i, l. split; [reflexivity|]. split; [lia|].
    destruct (l !! i) eqn:Hl; [discriminate|]. by apply lookup_ge_None in Hl.
Qed.

(** The filter raises nothing but [ZeroDivisionError], [ValueError] (from
    [math.log]) and [OverflowError], except that it raises [IndexError]
    when [min_pmi] is a sequence with no entry for the order index of a
    map it visits; a number as [min_pmi] rules that out. *)
Theorem filter_ngrams_exceptions (libm_log : spec_float -> spec_float)
    (ngrams : list (odict (list N) Z)) (total : Z) (min_pmi : min_pmi_arg) (e : exn) :
  filter_ngrams libm_log ngrams total min_pmi = Raise e ->
  (e = ZeroDivisionError \/ e = ValueError \/ e = OverflowError \/
   (e = IndexError /\
    exists (i : nat) (l : list pynum),
      min_pmi = Iterable l /\ (1 <= i < length ngrams)%nat /\ (length l <= i)%nat)).
Proof. apply filter_ngrams_raise_cases. Qed.

Lemma filter_ngrams_exceptions_witness :
  ZeroDivisionError = ZeroDivisionError \/ ZeroDivisionError = ValueError \/
  ZeroDivisionError = OverflowError \/
  (ZeroDivisionError = IndexError /\
   exists (i : nat) (l : list pynum),
     Iterable [PyInt 0; PyInt 2] = Iterable l /\
     (1 <= i < length zero_count_maps)%nat /\ (length l <= i)%nat).
Proof.
  apply (filter_ngrams_exceptions log_at_one zero_count_maps 3
           (Iterable [PyInt 0; PyInt 2]) ZeroDivisionError).
  vm_compute. reflexivity.
Defined.

(** ** KenlmNgrams then filter_ngrams *)

Lemma decoded_counts_divide (libm_log : spec_float -> spec_float)
    (native : byteorder) (chars : list (list N)) (order : nat) (min_count : Z)
    (f : list Byte.byte) (st : counts) (min_pmi : min_pmi_arg) :
  read_ngrams native chars order min_count f = Some (Ok st) ->
  1 <= min_count ->
  filter_ngrams libm_log (ngrams st) (total st) min_pmi <> Raise ZeroDivisionError.
Proof.
  intros Hrun Hmin H.
  assert (Hbounds : forall (j : nat) (d : odict (list N) Z) (w : list N) (v : Z),
            ngrams st !! j = Some d -> odict_get w d = Some v ->
            min_count <= v <= total st).
  { apply (read_ngrams_counts_between native chars order min_count f st Hrun). lia. }
  unfold filter_ngrams in H.
  apply bind_raise_inv in H as [H|(tf & Htf & H)];
    [by apply float_of_int_raise in H|].
  apply foldR_raise_inv in H as (out & i & _ & H).
  unfold filter_ngrams_order in H.
  apply bind_raise_inv in H as [H|(d & Hd & H)];
    [by apply list_at_raise in H|].
  apply foldR_raise_inv in H as (out' & [w v] & Hin & H).
  unfold list_at in Hd. destruct (ngrams st !! i) as [d'|] eqn:Hi; [|discriminate].
  injection Hd as ->.
  assert (Htotal : total st <> 0).
  { destruct (odict_get w d) as [v'|] eqn:Hget.
    - specialize (Hbounds i d w v' Hi Hget). lia.
    - destruct (read_ngrams_count_maps_wf _ _ _ _ _ _ Hrun) as [Hwf _].
      destruct (Hwf i d Hi) as [Hnd _].
      rewrite (odict_in_get w v d Hnd Hin) in Hget. discriminate. }
  revert H. apply filter_ngrams_item_no_zero_division.
  - by apply (float_of_int_at_least_one (total st) tf Htotal).
  - intros k dk key count Hk Hget. specialize (Hbounds k dk key count Hk Hget). lia.
Qed.

(** With [min_count >= 1] the filter, run on what the decoder built, never
    divides by zero: every stored count is then at least 1, and so is
    [total] as soon as a map holds anything. *)
Theorem decoded_counts_no_zero_division (libm_log : spec_float -> spec_float)
    (native : byteorder) (chars : list (list N)) (order : nat) (min_count : Z)
    (f : list Byte.byte) (st : counts) (min_pmi : min_pmi_arg) :
  read_ngrams native chars order min_count f = Some (Ok st) ->
  1 <= min_count ->
  filter_ngrams libm_log (ngrams st) (total st) min_pmi <> Raise ZeroDivisionError.
Proof. apply decoded_counts_divide. Qed.

Lemma decoded_counts_no_zero_division_witness :
  filter_ngrams log_at_one
    [[(py "a", 5); (py "c", 3)]; [(py "ab", 5); (py "cd", 3)]] 8
    (Iterable [PyInt 0; PyInt 0])
  <> Raise ZeroDivisionError.
Proof.
  apply (decoded_counts_no_zero_division log_at_one LittleEndian example_chars 2 1
           (example_record Byte.x03 Byte.x04 Byte.x05
            ++ example_record Byte.x05 Byte.x06 Byte.x03)
           (Counts [[(py "a", 5); (py "c", 3)]; [(py "ab", 5); (py "cd", 3)]] 8)).
  - vm_compute. reflexivity.
  - lia.
Defined.

(** ** Progress *)

Lemma Progress_iter_from_spec {A} (period : Z) (iterator : list A) :
  period <> 0 ->
  forall i : Z,
    snd (Progress_iter_from period i iterator) = None /\
    yielded_items (fst (Progress_iter_from period i iterator)) = iterator /\
    logged_counts (fst (Progress_iter_from period i iterator))
    = filter (fun k => k mod period = 0)
             (map (fun k => i + Z.of_nat k) (seq 1 (length iterator))).
Proof.
  intros Hp. induction iterator as [|j rest IH]; intros i; simpl.
  - done.
  - destruct (Z.eqb_spec period 0) as [?|_]; [done|].
    destruct (IH (i + 1)) as (Herr & Hy & Hl).
    destruct (Progress_iter_from period (i + 1) rest) as [events err]. simpl in *.
    split; [exact Herr|].
    assert (Hshift : map (fun k => i + Z.of_nat k) (seq 2 (length rest))
                     = map (fun k => i + 1 + Z.of_nat k) (seq 1 (length rest))).
    { rewrite <- (fmap_S_seq 1), <- list_fmap_compose. apply map_ext. intros k. simpl. lia. }
    rewrite Hshift. replace (i + Z.of_nat 1) with (i + 1) by lia.
    destruct (Z.eqb_spec ((i + 1) mod period) 0) as [Hm|Hm]; simpl.
    + rewrite filter_cons_True by done. unfold yielded_items, logged_counts in *.
      simpl. by rewrite Hy, Hl.
    + rewrite filter_cons_False by done. unfold yielded_items, logged_counts in *.
      simpl. by rewrite Hy, Hl.
Qed.

(** [Progress] hands over every item of the iterator, in order and
    unchanged, and logs exactly at the counts that [period] divides; with
    [period = 0] the first item is never handed over: the iteration raises
    [ZeroDivisionError], unless the iterator is empty. *)
Theorem Progress_passes_items {A : Type} (period : Z) (iterator : list A) :
  (period <> 0 ->
   snd (Progress_iter period iterator) = None /\
   yielded_items (fst (Progress_iter period iterator)) = iterator /\
   logged_counts (fst (Progress_iter period iterator))
   = filter (fun k => k mod period = 0) (map Z.of_nat (seq 1 (length iterator)))) /\
  (period = 0 ->
   Progress_iter period iterator
   = match iterator with [] => ([], None) | _ => ([], Some ZeroDivisionError) end).
Proof.
  split.
  - intros Hp. destruct (Progress_iter_from_spec period iterator Hp 0) as (H1 & H2 & H3).
    unfold Progress_iter. split; [exact H1|]. split; [exact H2|].
    rewrite H3. f_equal.
  - intros ->. by destruct iterator.
Qed.

Lemma Progress_passes_items_witness :
  snd (Progress_iter 2 [py "a"; py "b"; py "c"]) = None /\
  yielded_items (fst (Progress_iter 2 [py "a"; py "b"; py "c"])) = [py "a"; py "b"; py "c"] /\
  logged_counts (fst (Progress_iter 2 [py "a"; py "b"; py "c"]))
  = filter (fun k => k mod 2 = 0) (map Z.of_nat (seq 1 3)).
Proof.
  apply (Progress_passes_items 2 [py "a"; py "b"; py "c"]). lia.
Defined.

(** ** write_corpus *)

Lemma join_chars_cons (c : N) (s : str) :
  py_join [32%N] (str_chars (c :: s))
  = c :: match s with [] => [] | _ => 32%N :: py_join [32%N] (str_chars s) end.
Proof. by destruct s. Qed.

Lemma join_chars_length (s : str) :
  length (py_join [32%N] (str_chars s)) = (2 * length s - 1)%nat.
Proof.
  induction s as [|c s IH]; [reflexivity|]. rewrite join_chars_cons.
  destruct s as [|c' s]; [reflexivity|]. cbn [length] in *. lia.
Qed.

Lemma join_chars_lookup (s : str) (k : nat) :
  (k < length s)%nat ->
  py_join [32%N] (str_chars s) !! (2 * k)%nat = s !! k /\
  ((S k < length s)%nat -> py_join [32%N] (str_chars s) !! (2 * k + 1)%nat = Some 32%N).
Proof.
  revert k. induction s as [|c s IH]; intros k Hk; [simpl in Hk; lia|].
  rewrite join_chars_cons. destruct k as [|k].
  - split; [reflexivity|]. intros Hlen. destruct s as [|c' s]; [simpl in Hlen; lia|].
    reflexivity.
  - destruct s as [|c' s]; [simpl in Hk; lia|].
    destruct (IH k) as [Heven Hodd]; [simpl in *; lia|].
    replace (2 * S k)%nat with (S (S (2 * k))) by lia.
    replace (S (S (2 * k)) + 1)%nat with (S (S (2 * k + 1))) by lia.
    cbn [lookup list_lookup]. split; [exact Heven|].
    intros Hlen. apply Hodd. simpl in *. lia.
Qed.

Lemma split_on_join_chars (s : str) :
  32%N ∉ s -> s <> [] -> split_on 32%N (py_join [32%N] (str_chars s)) = str_chars s.
Proof.
  induction s as [|c s IH]; intros Hno Hne; [done|].
  apply not_elem_of_cons in Hno as [Hc Hno]. rewrite join_chars_cons.
  destruct s as [|c' s].
  - cbn [split_on]. by rewrite decide_False by congruence.
  - change (c :: 32%N :: py_join [32%N] (str_chars (c' :: s)))
      with ([c] ++ 32%N :: py_join [32%N] (str_chars (c' :: s))).
    rewrite split_on_app_sep.
    + by rewrite IH.
    + intros Hin. apply list_elem_of_singleton in Hin. congruence.
Qed.

(** The line that [write_corpus] writes for a text has the characters of
    the text at the even positions, a space between two of them, and a
    newline at the end. *)
Theorem corpus_line_format (s : str) (k : nat) :
  (k < length s)%nat ->
  length (corpus_line s) = (2 * length s)%nat /\
  corpus_line s !! (2 * k)%nat = s !! k /\
  corpus_line s !! (2 * k + 1)%nat
  = Some (if decide (S k < length s)%nat then 32%N else 10%N).
Proof.
  intros Hk. unfold corpus_line.
  pose proof (join_chars_length s) as Hlen.
  destruct (join_chars_lookup s k Hk) as [Heven Hodd].
  split; [rewrite length_app; simpl; lia|]. split.
  - rewrite lookup_app_l by lia. exact Heven.
  - destruct (decide (S k < length s)%nat) as [Hlt|Hge].
    + rewrite lookup_app_l by lia. by apply Hodd.
    + rewrite lookup_app_r by lia.
      replace (2 * k + 1 - length (py_join [32%N] (str_chars s)))%nat with 0%nat by lia.
      reflexivity.
Qed.

Lemma corpus_line_format_witness :
  length (corpus_line (py "ab")) = (2 * length (py "ab"))%nat /\
  corpus_line (py "ab") !! (2 * 1)%nat = py "ab" !! 1%nat /\
  corpus_line (py "ab") !! (2 * 1 + 1)%nat
  = Some (if decide (2 < length (py "ab"))%nat then 32%N else 10%N).
Proof.
  apply (corpus_line_format (py "ab") 1). simpl. lia.
Defined.

(** Cutting the line of a text without spaces at the spaces gives back its
    characters, one by one: each character is a token of its own for the
    n-gram counter. *)
Theorem corpus_line_tokens (s : str) :
  32%N ∉ s -> s <> [] ->
  exists body : str,
    corpus_line s = body ++ [10%N] /\ split_on 32%N body = str_chars s.
Proof.
  intros Hno Hne. exists (py_join [32%N] (str_chars s)).
  split; [reflexivity|]. by apply split_on_join_chars.
Qed.

Lemma corpus_line_tokens_witness :
  exists body : str,
    corpus_line (py "ab") = body ++ [10%N] /\ split_on 32%N body = str_chars (py "ab").
Proof.
  apply (corpus_line_tokens (py "ab")).
  - apply (bool_decide_unpack _). by vm_compute.
  - discriminate.
Defined.

(** ** text_generator *)

Lemma re_sub_runs_chars (b : bool) (s : str) :
  Forall (fun c => kept_char c = true \/ c = 10%N) (re_sub_runs b s).
Proof.
  revert b. induction s as [|c s IH]; intros b; simpl; [constructor|].
  destruct (kept_char c) eqn:Hc.
  - constructor; [by left|apply IH].
  - destruct b; [apply IH|]. constructor; [by right|apply IH].
Qed.

Lemma re_sub_runs_head (s : str) : re_sub_runs true s !! 0%nat <> Some 10%N.
Proof.
  induction s as [|c s IH]; simpl; [done|].
  destruct (kept_char c) eqn:Hc; [|exact IH].
  simpl. intros [= ->]. by vm_compute in Hc.
Qed.

Lemma re_sub_runs_no_double (b : bool) (s : str) (k : nat) :
  re_sub_runs b s !! k = Some 10%N -> re_sub_runs b s !! S k <> Some 10%N.
Proof.
  revert b k. induction s as [|c s IH]; intros b k; simpl; [done|].
  destruct (kept_char c) eqn:Hc.
  - destruct k as [|k]; simpl.
    + intros [= ->]. by vm_compute in Hc.
    + apply IH.
  - destruct b; [apply IH|]. destruct k as [|k]; simpl.
    + intros _. apply re_sub_runs_head.
    + apply IH.
Qed.

Lemma re_sub_runs_again (s : str) (b b' : bool) :
  (b' = true -> b = true) ->
  re_sub_runs b' (re_sub_runs b s) = re_sub_runs b s.
Proof.
  revert b b'. induction s as [|c s IH]; intros b b' Hb; simpl; [done|].
  destruct (kept_char c) eqn:Hc.
  - simpl. rewrite Hc. f_equal. by apply IH.
  - destruct b; [by apply IH|].
    destruct b'; [by specialize (Hb eq_refl)|].
    simpl. f_equal. by apply IH.
Qed.

Lemma re_sub_runs_kept (b : bool) (s : str) :
  filter (fun c => kept_char c = true) (re_sub_runs b s)
  = filter (fun c => kept_char c = true) s.
Proof.
  revert b. induction s as [|c s IH]; intros b; simpl; [done|].
  destruct (kept_char c) eqn:Hc.
  - rewrite !filter_cons_True by done. f_equal. apply IH.
  - rewrite (filter_cons_False _ c s) by (rewrite Hc; done).
    destruct b; [apply IH|].
    rewrite filter_cons_False by (by vm_compute). apply IH.
Qed.

(** A text that [text_generator] yields holds only Chinese characters,
    digits, Latin letters, spaces and newlines, and never two newlines in a
    row; the characters of the first four kinds are those of the stripped
    text, in the same order. *)
Theorem clean_text_shape (d : str) :
  Forall (fun c => kept_char c = true \/ c = 10%N) (clean_text d) /\
  (forall k : nat, clean_text d !! k = Some 10%N /\ clean_text d !! S k = Some 10%N -> False) /\
  filter (fun c => kept_char c = true) (clean_text d)
  = filter (fun c => kept_char c = true) (py_strip (replace_char 12288 32 d)).
Proof.
  unfold clean_text. split; [apply re_sub_runs_chars|]. split.
  - intros k [H1 H2]. by apply (re_sub_runs_no_double _ _ _ H1).
  - apply re_sub_runs_kept.
Qed.

(** The substitution of [text_generator] changes nothing when it is run a
    second time on its own result. *)
Theorem re_sub_runs_idempotent (s : str) :
  re_sub_runs false (re_sub_runs false s) = re_sub_runs false s.
Proof. by apply re_sub_runs_again. Qed.

Lemma py_lstrip_head (s : str) (c : N) :
  head (py_lstrip s) = Some c -> py_isspace c = false.
Proof.
  induction s as [|c' s IH]; simpl; [done|].
  destruct (py_isspace c') eqn:Hc'; [exact IH|]. simpl. by intros [= <-].
Qed.

Lemma py_lstrip_suffix (s : str) :
  exists l : str, s = l ++ py_lstrip s /\ Forall (fun c => py_isspace c = true) l.
Proof.
  induction s as [|c s IH]; simpl.
  - by exists [].
  - destruct (py_isspace c) eqn:Hc.
    + destruct IH as (l & Hl & Hall). exists (c :: l). split.
      * simpl. by rewrite <- Hl.
      * by constructor.
    + by exists [].
Qed.

(** [strip] cuts a run of white space off each end, and what is left
    neither begins nor ends with white space. *)
Lemma py_strip_spec (s : str) :
  (exists l r : str,
     s = l ++ py_strip s ++ r /\
     Forall (fun c => py_isspace c = true) l /\ Forall (fun c => py_isspace c = true) r) /\
  (forall c : N, head (py_strip s) = Some c -> py_isspace c = false) /\
  (forall c : N, last (py_strip s) = Some c -> py_isspace c = false).
Proof.
  unfold py_strip.
  destruct (py_lstrip_suffix s) as (l & Hl & Hlall).
  destruct (py_lstrip_suffix (reverse (py_lstrip s))) as (r & Hr & Hrall).
  assert (Hm : py_lstrip s = reverse (py_lstrip (reverse (py_lstrip s))) ++ reverse r).
  { rewrite <- reverse_app, <- Hr. by rewrite reverse_involutive. }
  split; [|split].
  - exists l, (reverse r). split; [by rewrite <- Hm|]. split; [exact Hlall|].
    rewrite Forall_forall in *. intros c Hc. apply Hrall. by apply elem_of_reverse.
  - intros c Hc. apply (py_lstrip_head s). rewrite Hm.
    destruct (reverse (py_lstrip (reverse (py_lstrip s)))); [done|exact Hc].
  - intros c. rewrite last_reverse. apply py_lstrip_head.
Qed.

Lemma re_sub_runs_nonempty (s : str) : s <> [] -> re_sub_runs false s <> [].
Proof. destruct s as [|c s]; [done|]. intros _. simpl. by destruct (kept_char c). Qed.

Lemma re_sub_runs_last (b : bool) (s : str) :
  last s <> Some 32%N -> last (re_sub_runs b s) <> Some 32%N.
Proof.
  revert b. induction s as [|c s IH]; intros b Hlast; simpl; [done|].
  assert (Hs : s <> [] -> last s <> Some 32%N).
  { intros Hne. destruct s as [|c' s]; [done|]. by rewrite last_cons_cons in Hlast. }
  destruct (kept_char c) eqn:Hc.
  - destruct s as [|c' s]; [exact Hlast|].
    pose proof (re_sub_runs_nonempty (c' :: s) ltac:(done)) as Hne.
    rewrite last_cons.
    destruct (last (re_sub_runs false (c' :: s))) as [y|] eqn:Hy.
    + rewrite <- Hy. apply IH. by apply Hs.
    + by apply last_None in Hy.
  - destruct s as [|c' s]; [by destruct b|].
    destruct b; [apply IH; by apply Hs|].
    rewrite last_cons.
    destruct (last (re_sub_runs true (c' :: s))) as [y|] eqn:Hy; [|done].
    rewrite <- Hy. apply IH. by apply Hs.
Qed.

(** A text that [text_generator] yields neither begins nor ends with a
    space. *)
Theorem clean_text_ends (d : str) :
  head (clean_text d) <> Some 32%N /\ last (clean_text d) <> Some 32%N.
Proof.
  unfold clean_text.
  destruct (py_strip_spec (replace_char 12288 32 d)) as (_ & Hhead & Hlast).
  split.
  - destruct (py_strip (replace_char 12288 32 d)) as [|c s]; [done|]. simpl.
    specialize (Hhead c eq_refl).
    destruct (kept_char c); simpl; [|done]. intros [= ->]. by vm_compute in Hhead.
  - apply re_sub_runs_last. intros H. apply Hlast in H. by vm_compute in H.
Qed.

(** ** Counting the candidates *)

Lemma foldl_concat {A B C} (f : A -> B -> A) (g : C -> list B) (l : list C) (a : A) :
  foldl (fun acc t => foldl f acc (g t)) a l = foldl f a (concat (map g l)).
Proof.
  revert a. induction l as [|t l IH]; intros a; simpl; [done|].
  by rewrite foldl_app, IH.
Qed.

Lemma occurrences_cons (w x : str) (l : list str) :
  occurrences w (x :: l) = (if decide (x = w) then 1 else 0) + occurrences w l.
Proof.
  unfold occurrences. destruct (decide (x = w)) as [Hx|Hx].
  - rewrite filter_cons_True by done. simpl length. lia.
  - rewrite filter_cons_False by done. lia.
Qed.

Lemma occurrences_nonneg (w : str) (l : list str) : 0 <= occurrences w l.
Proof. unfold occurrences. lia. Qed.

Lemma count_word_get (candidates : odict str Z) (w w' : str) :
  odict_get w' (count_word candidates w)
  = if decide (w = w') then Some (default 0 (odict_get w candidates) + 1)
    else odict_get w' candidates.
Proof.
  unfold count_word. destruct (decide (w = w')) as [->|Hne].
  - apply odict_get_set_eq.
  - by apply odict_get_set_ne.
Qed.

Lemma foldl_count_word_get (l : list str) (candidates : odict str Z) (w : str) :
  odict_get w (foldl count_word candidates l)
  = if decide (occurrences w l = 0) then odict_get w candidates
    else Some (default 0 (odict_get w candidates) + occurrences w l).
Proof.
  revert candidates. induction l as [|x l IH]; intros candidates.
  - reflexivity.
  - cbn [foldl]. rewrite IH, occurrences_cons, count_word_get.
    pose proof (occurrences_nonneg w l) as Hnn.
    destruct (decide (x = w)) as [->|Hx].
    + rewrite (decide_False (P := 1 + occurrences w l = 0)) by lia.
      destruct (decide (occurrences w l = 0)) as [H0|H0].
      * simpl. f_equal. lia.
      * simpl. f_equal. lia.
    + destruct (decide (occurrences w l = 0)) as [H0|H0].
      * by rewrite decide_True by lia.
      * rewrite decide_False by lia. f_equal.
Qed.

Lemma foldl_count_word_wf (l : list str) (candidates : odict str Z) :
  odict_wf candidates -> odict_wf (foldl count_word candidates l).
Proof.
  revert candidates. induction l as [|x l IH]; intros candidates Hwf; [done|].
  simpl. apply IH. by apply odict_set_wf.
Qed.

Lemma count_candidates_wf (ngtrie : dic) (texts : list str) :
  odict_wf (count_candidates ngtrie texts).
Proof.
  unfold count_candidates. rewrite foldl_concat.
  apply foldl_count_word_wf. apply NoDup_nil_2.
Qed.

Lemma count_candidates_get (ngtrie : dic) (texts : list str) (w : str) :
  odict_get w (count_candidates ngtrie texts)
  = if decide (occurrences w (concat (map (tokenize ngtrie) texts)) = 0) then None
    else Some (occurrences w (concat (map (tokenize ngtrie) texts))).
Proof.
  unfold count_candidates. rewrite foldl_concat, foldl_count_word_get. simpl.
  destruct (decide _); [done|]. f_equal.
Qed.

Lemma count_candidates_elem (ngtrie : dic) (texts : list str) (w : str) (n : Z) :
  odict_wf (count_candidates ngtrie texts) /\
  ((w, n) ∈ count_candidates ngtrie texts <->
   n = occurrences w (concat (map (tokenize ngtrie) texts)) /\ 0 < n).
Proof.
  split; [apply count_candidates_wf|].
  pose proof (count_candidates_get ngtrie texts w) as Hget.
  pose proof (occurrences_nonneg w (concat (map (tokenize ngtrie) texts))) as Hnn.
  split.
  - intros Hin. apply (odict_in_get _ _ _ (count_candidates_wf ngtrie texts)) in Hin.
    rewrite Hin in Hget. destruct (decide _); [done|]. injection Hget as ->. lia.
  - intros [-> Hpos]. apply odict_get_Some_in. rewrite Hget.
    by rewrite decide_False by lia.
Qed.

(** After the counting loop [candidates] holds exactly the fragments of
    the texts, each once and with the number of times it came out of
    [tokenize]. *)
Theorem count_candidates_counts (ngtrie : dic) (texts : list str) (w : str) (n : Z) :
  odict_wf (count_candidates ngtrie texts) /\
  ((w, n) ∈ count_candidates ngtrie texts <->
   n = occurrences w (concat (map (tokenize ngtrie) texts)) /\ 0 < n).
Proof. apply count_candidates_elem. Qed.

(** ** The frequency filter and filter_vocab on an ordered dict *)

Lemma odict_set_fresh {K V} `{EqDecision K} (k : K) (v : V) (d : odict K V) :
  k ∉ map fst d -> odict_set k v d = d ++ [(k, v)].
Proof.
  induction d as [|[k' v'] d IH]; simpl; [done|].
  intros Hk. apply not_elem_of_cons in Hk as [Hne Hk].
  rewrite decide_False by done. by rewrite IH.
Qed.

Lemma foldl_keep_filter (step : odict str Z -> str * Z -> odict str Z)
    (keep : str * Z -> bool) :
  (forall result ij,
     step result ij = if keep ij then odict_set ij.1 ij.2 result else result) ->
  forall l acc : odict str Z,
    NoDup (map fst (acc ++ l)) ->
    foldl step acc l = acc ++ filter (fun ij => keep ij = true) l.
Proof.
  intros Hstep. induction l as [|[i j] l IH]; intros acc Hnd.
  - simpl. by rewrite app_nil_r.
  - cbn [foldl]. rewrite Hstep.
    assert (Hfresh : i ∉ map fst acc).
    { rewrite map_app in Hnd. apply NoDup_app in Hnd as (_ & Hdis & _).
      intros Hin. apply (Hdis i Hin). simpl. left. }
    destruct (keep (i, j)) eqn:Hk.
    + rewrite filter_cons_True by done. simpl fst; simpl snd.
      rewrite odict_set_fresh by done. rewrite IH.
      * by rewrite <- app_assoc.
      * by rewrite <- app_assoc.
    + rewrite filter_cons_False by (rewrite Hk; done). apply IH.
      rewrite map_app in *. simpl in Hnd.
      apply NoDup_app in Hnd as (Hacc & Hdis & Hl). apply NoDup_cons in Hl as [_ Hl].
      apply NoDup_app. split; [done|]. split; [|done].
      intros x Hx Hx'. apply (Hdis x Hx). by right.
Qed.

Lemma frequency_filter_filter (min_count : Z) (candidates : odict str Z) :
  odict_wf candidates ->
  frequency_filter min_count candidates = filter (fun ij => min_count <= ij.2) candidates.
Proof.
  intros Hwf. unfold frequency_filter.
  rewrite (foldl_keep_filter _ (fun ij => bool_decide (min_count <= ij.2))).
  - simpl. apply list_filter_iff. intros ij. by rewrite bool_decide_eq_true.
  - intros result ij. by destruct (decide (min_count <= ij.2)) as [H|H];
      [rewrite bool_decide_eq_true_2|rewrite bool_decide_eq_false_2].
  - exact Hwf.
Qed.

Lemma filter_vocab_ordered_step_cases (ngrams : gset (list N)) (order : nat)
    (result : odict str Z) (ij : str * Z) :
  filter_vocab_ordered_step ngrams order result ij
  = if retained ngrams order ij.1 then odict_set ij.1 ij.2 result else result.
Proof.
  destruct ij as [i j]. unfold filter_vocab_ordered_step, retained. simpl.
  destruct (length i <? 3)%nat; [reflexivity|].
  destruct ((length i <=? order)%nat && bool_decide (i ∈ ngrams)); [reflexivity|].
  destruct (order <? length i)%nat; [|reflexivity].
  simpl. by destruct (windows_flag i ngrams order).
Qed.

Lemma filter_vocab_ordered_filter (candidates : odict str Z) (ngrams : gset (list N))
    (order : nat) :
  odict_wf candidates ->
  filter_vocab_ordered candidates ngrams order
  = filter (fun ij => retained ngrams order ij.1 = true) candidates.
Proof.
  intros Hwf. unfold filter_vocab_ordered.
  rewrite (foldl_keep_filter _ (fun ij => retained ngrams order ij.1)).
  - reflexivity.
  - apply filter_vocab_ordered_step_cases.
  - exact Hwf.
Qed.

Lemma filter_keys_NoDup (P : str * Z -> Prop) `{!forall x, Decision (P x)}
    (d : odict str Z) :
  odict_wf d -> odict_wf (filter P d).
Proof.
  unfold odict_wf. intros Hwf. apply (sublist_NoDup _ (map fst d)); [exact Hwf|].
  apply fmap_sublist, sublist_filter.
Qed.

(** A dict that is read in the order of its insertions is filtered as the
    same dict read by key is, and the items that stay keep their order. *)
Theorem filter_vocab_ordered_agrees (candidates : odict str Z) (ngrams : gset (list N))
    (order : nat) :
  odict_wf candidates ->
  filter_vocab_ordered candidates ngrams order
  = filter (fun ij => retained ngrams order ij.1 = true) candidates /\
  list_to_map (filter_vocab_ordered candidates ngrams order)
  = filter_vocab (list_to_map candidates) ngrams order.
Proof.
  intros Hwf. split; [by apply filter_vocab_ordered_filter|].
  rewrite filter_vocab_ordered_filter by done.
  apply map_eq. intros i. rewrite filter_vocab_lookup. apply option_eq. intros j.
  rewrite <- elem_of_list_to_map by (by apply filter_keys_NoDup).
  rewrite list_elem_of_filter. simpl.
  destruct (retained ngrams order i).
  - rewrite <- elem_of_list_to_map by exact Hwf. tauto.
  - split; [intros [? _]; done|done].
Qed.

Lemma filter_vocab_ordered_agrees_witness :
  filter_vocab_ordered [(py "abc", 5); (py "abd", 7)] {[py "ab"; py "bc"]} 2
  = filter (fun ij => retained {[py "ab"; py "bc"]} 2 ij.1 = true)
           [(py "abc", 5); (py "abd", 7)] /\
  list_to_map (filter_vocab_ordered [(py "abc", 5); (py "abd", 7)] {[py "ab"; py "bc"]} 2)
  = filter_vocab (list_to_map [(py "abc", 5); (py "abd", 7)]) {[py "ab"; py "bc"]} 2.
Proof.
  apply (filter_vocab_ordered_agrees [(py "abc", 5); (py "abd", 7)] {[py "ab"; py "bc"]} 2).
  apply (bool_decide_unpack _). by vm_compute.
Defined.

(** ** sorted *)

Lemma insert_sorted_perm (x : str * Z) (l : list (str * Z)) :
  insert_sorted x l ≡ₚ x :: l.
Proof.
  induction l as [|y l IH]; simpl; [done|].
  destruct (- x.2 <? - y.2); [done|]. rewrite IH. apply Permutation_swap.
Qed.

Lemma insert_sorted_sorted (x : str * Z) (l : list (str * Z)) :
  StronglySorted (fun a b : str * Z => b.2 <= a.2) l ->
  StronglySorted (fun a b : str * Z => b.2 <= a.2) (insert_sorted x l).
Proof.
  induction 1 as [|y l Hl IH Hy]; simpl.
  - constructor; constructor.
  - destruct (Z.ltb_spec (- x.2) (- y.2)) as [Hlt|Hge].
    + constructor; [by constructor|]. constructor; [lia|].
      eapply Forall_impl; [exact Hy|]. simpl. intros z Hz. lia.
    + constructor; [exact IH|].
      rewrite (Forall_forall (fun b : str * Z => b.2 <= y.2)). intros z Hz.
      rewrite insert_sorted_perm in Hz. apply elem_of_cons in Hz as [->|Hz]; [lia|].
      rewrite Forall_forall in Hy. by apply Hy.
Qed.

Lemma filter_none {A} (P : A -> Prop) `{!forall x, Decision (P x)} (l : list A) :
  Forall (fun x => ~ P x) l -> filter P l = [].
Proof.
  induction 1 as [|x l Hx _ IH]; [done|]. by rewrite filter_cons_False.
Qed.

Lemma insert_sorted_stable (k : Z) (x : str * Z) (l : list (str * Z)) :
  StronglySorted (fun a b : str * Z => b.2 <= a.2) l ->
  filter (fun y => y.2 = k) (insert_sorted x l)
  = filter (fun y => y.2 = k) l ++ filter (fun y => y.2 = k) [x].
Proof.
  induction 1 as [|y l Hl IH Hy]; [done|]. cbn [insert_sorted].
  destruct (Z.ltb_spec (- x.2) (- y.2)) as [Hlt|Hge].
  - destruct (decide (x.2 = k)) as [Hk|Hk].
    + rewrite (filter_cons_True _ x) by done.
      assert (Hnone : filter (fun y0 : str * Z => y0.2 = k) (y :: l) = []).
      { apply filter_none. rewrite Forall_forall. intros z Hz.
        apply elem_of_cons in Hz as [->|Hz]; [lia|].
        rewrite Forall_forall in Hy. specialize (Hy z Hz). simpl in Hy. lia. }
      rewrite Hnone. simpl. by rewrite filter_cons_True by done.
    + rewrite (filter_cons_False _ x) by done.
      rewrite (filter_cons_False _ x []) by done. by rewrite app_nil_r.
  - destruct (decide (y.2 = k)) as [Hk|Hk].
    + rewrite !(filter_cons_True _ y) by done. by rewrite IH.
    + rewrite !(filter_cons_False _ y) by done. by rewrite IH.
Qed.

Lemma py_sorted_from (items acc : list (str * Z)) :
  StronglySorted (fun a b : str * Z => b.2 <= a.2) acc ->
  foldl (fun sorted x => insert_sorted x sorted) acc items ≡ₚ acc ++ items /\
  StronglySorted (fun a b : str * Z => b.2 <= a.2)
    (foldl (fun sorted x => insert_sorted x sorted) acc items) /\
  forall k : Z,
    filter (fun y => y.2 = k) (foldl (fun sorted x => insert_sorted x sorted) acc items)
    = filter (fun y => y.2 = k) acc ++ filter (fun y => y.2 = k) items.
Proof.
  revert acc. induction items as [|x items IH]; intros acc Hacc.
  - simpl. split; [by rewrite app_nil_r|]. split; [done|].
    intros k. by rewrite app_nil_r.
  - cbn [foldl].
    destruct (IH (insert_sorted x acc) (insert_sorted_sorted x acc Hacc))
      as (Hperm & Hsorted & Hstable).
    split; [|split; [exact Hsorted|]].
    + rewrite Hperm, insert_sorted_perm. simpl. apply Permutation_middle.
    + intros k. rewrite Hstable, insert_sorted_stable by done.
      rewrite <- app_assoc. f_equal. by rewrite <- filter_app.
Qed.

(** The sorted list holds the items of the dict, the larger count first,
    and items of equal count in the order the dict has them. *)
Theorem py_sorted_stable (items : list (str * Z)) :
  py_sorted items ≡ₚ items /\
  StronglySorted (fun a b : str * Z => b.2 <= a.2) (py_sorted items) /\
  forall k : Z,
    filter (fun y => y.2 = k) (py_sorted items) = filter (fun y => y.2 = k) items.
Proof.
  destruct (py_sorted_from items [] ltac:(constructor)) as (Hperm & Hsorted & Hstable).
  split; [exact Hperm|]. split; [exact Hsorted|]. exact Hstable.
Qed.

(** ** From the accepted n-grams to the output file *)

Lemma occurrences_pos (w : str) (l : list str) : 0 < occurrences w l -> w ∈ l.
Proof.
  unfold occurrences. intros Hpos.
  destruct (filter (fun x => x = w) l) as [|x rest] eqn:Hf; [simpl in Hpos; lia|].
  assert (Hx : x ∈ filter (fun x => x = w) l) by (rewrite Hf; left).
  apply list_elem_of_filter in Hx as [-> Hx]. exact Hx.
Qed.

Lemma elem_of_concat_map {A B} (f : A -> list B) (l : list A) (x : B) :
  x ∈ concat (map f l) -> exists t : A, t ∈ l /\ x ∈ f t.
Proof.
  induction l as [|t l IH]; simpl; [by intros H; apply elem_of_nil in H|].
  intros H. apply elem_of_app in H as [H|H].
  - exists t. split; [left|exact H].
  - destruct (IH H) as (t' & Ht' & Hx). exists t'. split; [by right|exact Hx].
Qed.

Lemma vocabulary_elem (ngtrie : dic) (ngrams : gset (list N)) (order : nat)
    (min_count : Z) (texts : list str) (w : str) (n : Z) :
  (w, n) ∈ vocabulary ngtrie ngrams order min_count texts <->
  (n = occurrences w (concat (map (tokenize ngtrie) texts)) /\ 0 < n) /\
  min_count <= n /\ retained ngrams order w = true.
Proof.
  unfold vocabulary, py_sorted.
  destruct (py_sorted_from
              (filter_vocab_ordered
                 (frequency_filter min_count (count_candidates ngtrie texts)) ngrams order)
              [] ltac:(constructor)) as (Hperm & _ & _).
  rewrite Hperm. simpl.
  rewrite frequency_filter_filter by apply count_candidates_wf.
  rewrite filter_vocab_ordered_filter by apply filter_keys_NoDup, count_candidates_wf.
  rewrite !list_elem_of_filter. simpl.
  destruct (count_candidates_elem ngtrie texts w n) as [_ Hel]. rewrite Hel. tauto.
Qed.

Lemma vocabulary_sorted (ngtrie : dic) (ngrams : gset (list N)) (order : nat)
    (min_count : Z) (texts : list str) :
  StronglySorted (fun a b : str * Z => b.2 <= a.2)
    (vocabulary ngtrie ngrams order min_count texts).
Proof.
  unfold vocabulary, py_sorted.
  by destruct (py_sorted_from
              (filter_vocab_ordered
                 (frequency_filter min_count (count_candidates ngtrie texts)) ngrams order)
              [] ltac:(constructor)) as (_ & Hsorted & _).
Qed.

(** The output lists a word with its count exactly when the word came out
    of [tokenize] that number of times, the number is at least
    [min_count], and [filter_vocab] keeps the word; no word is listed
    twice, and the counts never grow down the list. *)
Theorem vocabulary_entries (ngtrie : dic) (ngrams : gset (list N)) (order : nat)
    (min_count : Z) (texts : list str) :
  (forall (w : str) (n : Z),
     (w, n) ∈ vocabulary ngtrie ngrams order min_count texts <->
     (n = occurrences w (concat (map (tokenize ngtrie) texts)) /\ 0 < n) /\
     min_count <= n /\ retained ngrams order w = true) /\
  NoDup (map fst (vocabulary ngtrie ngrams order min_count texts)) /\
  StronglySorted (fun a b : str * Z => b.2 <= a.2)
    (vocabulary ngtrie ngrams order min_count texts).
Proof.
  split; [intros w n; apply vocabulary_elem|]. split; [|apply vocabulary_sorted].
  unfold vocabulary, py_sorted.
  destruct (py_sorted_from
              (filter_vocab_ordered
                 (frequency_filter min_count (count_candidates ngtrie texts)) ngrams order)
              [] ltac:(constructor)) as (Hperm & _ & _).
  rewrite Hperm. simpl.
  rewrite frequency_filter_filter by apply count_candidates_wf.
  rewrite filter_vocab_ordered_filter by apply filter_keys_NoDup, count_candidates_wf.
  apply filter_keys_NoDup, filter_keys_NoDup, count_candidates_wf.
Qed.

Lemma vocabulary_accepted (accepted : gset (list N)) (order : nat) (min_count : Z)
    (texts : list str) (w : str) (n : Z) :
  (w, n) ∈ vocabulary (trie_of (elements accepted)) accepted order min_count texts ->
  (2 <= length w <= order)%nat -> w ∈ accepted.
Proof.
  intros Hin Hlen. apply vocabulary_elem in Hin as ([-> Hpos] & _ & Hret).
  destruct (decide (length w = 2%nat)) as [H2|H2].
  - apply occurrences_pos in Hpos.
    apply elem_of_concat_map in Hpos as (t & _ & Hw).
    destruct (tokenize_fragment_backed_prefix (elements accepted) t w Hw ltac:(lia))
      as (g & Hg & Hgl & tl & Hpre).
    apply elem_of_elements in Hg.
    assert (tl = []) as ->.
    { apply (f_equal length) in Hpre. rewrite length_app in Hpre.
      destruct tl; [done|]. simpl in Hpre. lia. }
    rewrite app_nil_r in Hpre. by subst w.
  - unfold retained in Hret. rewrite !orb_true_iff, !andb_true_iff in Hret.
    destruct Hret as [[Hret|[_ Hret]]|[Hret _]].
    + apply Nat.ltb_lt in Hret. lia.
    + by apply bool_decide_eq_true in Hret.
    + apply Nat.ltb_lt in Hret. lia.
Qed.

(** When the trie is built from the accepted n-grams, a word of the output
    with 2 to [order] characters is an accepted n-gram, also when it has
    only two characters and [filter_vocab] does not look it up; and every
    window of [order] characters of a longer word is one. *)
Theorem vocabulary_words_accepted (accepted : gset (list N)) (order : nat)
    (min_count : Z) (texts : list str) (w : str) (n : Z) :
  (w, n) ∈ vocabulary (trie_of (elements accepted)) accepted order min_count texts ->
  ((2 <= length w <= order)%nat -> w ∈ accepted) /\
  ((3 <= length w)%nat -> (order < length w)%nat ->
   forall k : nat, (k + order <= length w)%nat -> slice w k (k + order) ∈ accepted).
Proof.
  intros Hin. split; [by apply (vocabulary_accepted accepted order min_count texts w n)|].
  intros H3 Hlong k Hk.
  apply vocabulary_elem in Hin as (_ & _ & Hret).
  unfold retained in Hret. rewrite !orb_true_iff, !andb_true_iff in Hret.
  destruct Hret as [[Hret|[Hret _]]|[_ Hret]].
  - apply Nat.ltb_lt in Hret. lia.
  - apply Nat.leb_le in Hret. lia.
  - rewrite windows_flag_true in Hret. apply Hret. lia.
Qed.

Lemma vocabulary_words_accepted_witness :
  ((2 <= length (py "ab") <= 2)%nat -> py "ab" ∈ ({[py "ab"]} : gset (list N))) /\
  ((3 <= length (py "ab"))%nat -> (2 < length (py "ab"))%nat ->
   forall k : nat, (k + 2 <= length (py "ab"))%nat ->
                   slice (py "ab") k (k + 2) ∈ ({[py "ab"]} : gset (list N))).
Proof.
  apply (vocabulary_words_accepted {[py "ab"]} 2 1 [py "abcab"] (py "ab") 2).
  apply (bool_decide_unpack _). by vm_compute.
Defined.

(** ** The script *)

Lemma filter_ngrams_lengths (libm_log : spec_float -> spec_float)
    (ngs : list (odict (list N) Z)) (total : Z) (min_pmi : min_pmi_arg)
    (out : gset (list N)) :
  filter_ngrams libm_log ngs total min_pmi = Ok out ->
  count_maps_wf ngs ->
  forall g : list N, g ∈ out -> (2 <= length g <= length ngs)%nat.
Proof.
  intros Hrun Hwf g Hg.
  apply filter_ngrams_membership in Hrun as (tf & _ & Hmem).
  apply Hmem in Hg as (i & d & v & Hi & Hd & Hin & _).
  destruct (Hwf i d Hd) as [_ Hlen]. rewrite (Hlen g v Hin).
  apply lookup_lt_Some in Hd. lia.
Qed.

(** With [load_texts_in_memory] false, [texts] is a generator that
    [write_corpus] uses up: the loop that looks for words gets no text, and
    the script, when it ends without an error, writes an empty file. *)
Theorem main_generator_finds_nothing (libm_log : spec_float -> spec_float)
    (native : byteorder) (kenlm : nat -> str -> Z * (str * list Byte.byte))
    (files : list (list N)) (min_count : Z) (order : nat) (out : list (str * Z)) :
  main libm_log native kenlm false files min_count order = Some (Ok out) -> out = [].
Proof.
  unfold main. cbn [iterate].
  destruct (count_ngrams kenlm order _) as [[vocab_content ngram_content]|e]; [|done].
  destruct (KenlmNgrams_init _ _ _ _ _) as [[[chars st]|e]|]; [|done..].
  destruct (filter_ngrams _ _ _ _) as [accepted|e]; [|done].
  by intros [= <-].
Qed.

Lemma main_generator_finds_nothing_witness :
  main log_at_one LittleEndian example_kenlm false [py "ab ab"] 1 2 = Some (Ok [])
  /\ ([] : list (str * Z)) = [].
Proof.
  split; [by vm_compute|].
  apply (main_generator_finds_nothing log_at_one LittleEndian example_kenlm
           [py "ab ab"] 1 2 []).
  by vm_compute.
Defined.

(** With [load_texts_in_memory] true, the script, when it ends without an
    error, has run KenLM with success on the corpus of the cleaned texts,
    decoded its two files, and got from [filter_ngrams], with the
    thresholds [[0, 2, 4, 6]], a set [accepted] of n-grams of 2 to [order]
    characters; it writes the words that [tokenize], with the trie of
    [accepted], cut out of the cleaned texts at least [min_count] times
    and that [filter_vocab] keeps with [accepted], the more frequent
    first. *)
Theorem main_in_memory_output (libm_log : spec_float -> spec_float)
    (native : byteorder) (kenlm : nat -> str -> Z * (str * list Byte.byte))
    (files : list (list N)) (min_count : Z) (order : nat) (out : list (str * Z)) :
  main libm_log native kenlm true files min_count order = Some (Ok out) ->
  exists (vocab_content : str) (ngram_content : list Byte.byte) (st : counts)
         (accepted : gset (list N)),
    kenlm order (write_corpus (text_generator files)) = (0, (vocab_content, ngram_content)) /\
    read_ngrams native (read_chars vocab_content) order min_count ngram_content
    = Some (Ok st) /\
    filter_ngrams libm_log (ngrams st) (total st)
      (Iterable [PyInt 0; PyInt 2; PyInt 4; PyInt 6]) = Ok accepted /\
    (forall g : list N, g ∈ accepted -> (2 <= length g <= order)%nat) /\
    out = vocabulary (trie_of (elements accepted)) accepted order min_count
            (text_generator files) /\
    StronglySorted (fun a b : str * Z => b.2 <= a.2) out /\
    forall (w : str) (n : Z),
      (w, n) ∈ out <->
      (n = occurrences w
             (concat (map (tokenize (trie_of (elements accepted))) (text_generator files)))
       /\ 0 < n) /\
      min_count <= n /\ retained accepted order w = true.
Proof.
  unfold main, count_ngrams. cbn [iterate].
  destruct (kenlm order _) as [done [vocab_content ngram_content]] eqn:Hkenlm.
  destruct (Z.eqb_spec done 0) as [->|_]; [|done].
  unfold KenlmNgrams_init.
  destruct (read_ngrams _ _ _ _ _) as [[st|e]|] eqn:Hread; [|done..].
  destruct (filter_ngrams _ _ _ _) as [accepted|e] eqn:Hfilter; [|done].
  intros [= <-]. exists vocab_content, ngram_content, st, accepted.
  split; [reflexivity|]. split; [exact Hread|]. split; [exact Hfilter|].
  split; [|split; [reflexivity|split; [apply vocabulary_sorted|]]].
  - destruct (read_ngrams_count_maps_wf _ _ _ _ _ _ Hread) as [Hwf Hlen].
    intros g Hg. rewrite <- Hlen.
    by apply (filter_ngrams_lengths libm_log (ngrams st) (total st) _ accepted Hfilter Hwf).
  - intros w n. apply vocabulary_elem.
Qed.

Lemma main_in_memory_output_witness :
  main log_step LittleEndian example_kenlm_cohesive true [py "abab cd"] 1 2
  = Some (Ok [(py "ab", 2); (py " ", 1); (py "c", 1); (py "d", 1)]) /\
  exists (vocab_content : str) (ngram_content : list Byte.byte) (st : counts)
         (accepted : gset (list N)),
    example_kenlm_cohesive 2 (write_corpus (text_generator [py "abab cd"]))
    = (0, (vocab_content, ngram_content)) /\
    read_ngrams LittleEndian (read_chars vocab_content) 2 1 ngram_content = Some (Ok st) /\
    filter_ngrams log_step (ngrams st) (total st)
      (Iterable [PyInt 0; PyInt 2; PyInt 4; PyInt 6]) = Ok accepted /\
    (forall g : list N, g ∈ accepted -> (2 <= length g <= 2)%nat) /\
    [(py "ab", 2); (py " ", 1); (py "c", 1); (py "d", 1)]
    = vocabulary (trie_of (elements accepted)) accepted 2 1 (text_generator [py "abab cd"]) /\
    StronglySorted (fun a b : str * Z => b.2 <= a.2)
      [(py "ab", 2); (py " ", 1); (py "c", 1); (py "d", 1)] /\
    forall (w : str) (n : Z),
      (w, n) ∈ [(py "ab", 2); (py " ", 1); (py "c", 1); (py "d", 1)] <->
      (n = occurrences w
             (concat (map (tokenize (trie_of (elements accepted)))
                          (text_generator [py "abab cd"])))
       /\ 0 < n) /\
      1 <= n /\ retained accepted 2 w = true.
Proof.
  split; [by vm_compute|].
  apply (main_in_memory_output log_step LittleEndian example_kenlm_cohesive
           [py "abab cd"] 1 2 [(py "ab", 2); (py " ", 1); (py "c", 1); (py "d", 1)]).
  by vm_compute.
Defined.

(** The script always comes to an end, whatever [min_count] is: normally,
    or with a [ValueError] (KenLM failed, or [math.log] did), an
    [IndexError] (a record names a character that the vocabulary has not,
    or [order] is above 4 and only four thresholds are passed), an
    [OverflowError] or a [ZeroDivisionError]; and with [min_count >= 1] it
    never ends with a division by zero. *)
Theorem main_outcome (libm_log : spec_float -> spec_float)
    (native : byteorder) (kenlm : nat -> str -> Z * (str * list Byte.byte))
    (load_texts_in_memory : bool) (files : list (list N)) (min_count : Z) (order : nat) :
  ((exists out : list (str * Z),
      main libm_log native kenlm load_texts_in_memory files min_count order = Some (Ok out)) \/
   exists e : exn,
     main libm_log native kenlm load_texts_in_memory files min_count order = Some (Raise e) /\
     (e = ValueError \/ e = IndexError \/ e = OverflowError \/ e = ZeroDivisionError)) /\
  (1 <= min_count ->
   main libm_log native kenlm load_texts_in_memory files min_count order
   <> Some (Raise ZeroDivisionError)).
Proof.
  unfold main.
  destruct (iterate _) as [written texts].
  unfold count_ngrams. destruct (kenlm order _) as [done [vocab_content ngram_content]].
  destruct (done =? 0);
    [|split; [right; exists ValueError; tauto|intros _; discriminate]].
  unfold KenlmNgrams_init.
  destruct (read_ngrams_ends native (read_chars vocab_content) order min_count ngram_content)
    as [[st Hread]|Hread]; rewrite Hread;
    [|split; [right; exists IndexError; tauto|intros _; discriminate]].
  destruct (filter_ngrams _ _ _ _) as [accepted|e] eqn:Hfilter.
  - destruct (iterate texts) as [read texts'].
    split; [left; by eexists|intros _; discriminate].
  - split.
    + right. exists e. split; [reflexivity|].
      destruct (filter_ngrams_raise_cases _ _ _ _ _ Hfilter) as [->|[->|[->|[-> _]]]]; tauto.
    + intros Hmin [= ->]. revert Hfilter.
      by apply (decoded_counts_divide libm_log native (read_chars vocab_content) order
                  min_count ngram_content st _ Hread Hmin).
Qed.

Lemma main_outcome_witness :
  main log_step LittleEndian example_kenlm_cohesive true [py "abab cd"] 1 2
  <> Some (Raise ZeroDivisionError).
Proof.
  apply (main_outcome log_step LittleEndian example_kenlm_cohesive true [py "abab cd"] 1 2).
  lia.
Defined.
